(** * Crossword CSP solver (Project 3, [generate.py]): model and properties

    A shallow embedding of [CrosswordCreator]: the domain store with its
    shared containers, node and arc consistency, the ordering heuristics and
    the backtracking search, followed by the properties of the
    specification that were checked against it. *)

From stdpp Require Import base option list gmap strings sorting.
From Stdlib Require Import Lia Ascii.

Local Open Scope string_scope.
Local Open Scope list_scope.
Local Open Scope nat_scope.

(** ** Puzzle structure *)

Inductive Direction := ACROSS | DOWN.

(** A crossword variable (slot): the [Variable] class of the project, whose
    identity is the tuple (i, j, direction, length). *)
Record Var := mkVar {
  var_i : nat;
  var_j : nat;
  var_direction : Direction;
  var_length : nat
}.

#[global] Instance Direction_eq_dec : EqDecision Direction.
Proof. solve_decision. Defined.

#[global] Instance Var_eq_dec : EqDecision Var.
Proof. solve_decision. Defined.

Definition Var_to_tuple (v : Var) : nat * nat * bool * nat :=
  (var_i v, var_j v,
   match var_direction v with ACROSS => true | DOWN => false end,
   var_length v).

Definition Var_of_tuple (t : nat * nat * bool * nat) : Var :=
  let '(a, b, d, n) := t in mkVar a b (if d then ACROSS else DOWN) n.

#[global] Instance Var_countable : Countable Var.
Proof.
  apply (inj_countable' Var_to_tuple Var_of_tuple).
  intros [a b [] n]; reflexivity.
Defined.

(** Modelled from the spec: the [Crossword] class lives in [crossword.py],
    which is not part of the sources at hand.  The spec describes it as the
    set of slots, the vocabulary, and a total function over slot pairs
    giving the character offsets of the shared cell, or nothing.  Python
    sets are represented by lists in their iteration order. *)
Record Crossword := mkCrossword {
  variables : list Var;
  words : list string;
  overlaps : Var → Var → option (nat * nat)
}.

(** Modelled from the spec: [Crossword.neighbors] is missing with
    [crossword.py]; the neighbours of a slot are the other slots that
    overlap it. *)
Definition neighbors (cw : Crossword) (var : Var) : list Var :=
  filter (λ v, v ≠ var ∧ is_Some (overlaps cw v var)) (variables cw).

(** ** The domain store

    [self.domains] is a dict from variables to containers (a set of words,
    or a list once [consistent] has run).  The dict holds references: a
    shallow [copy()] of the dict shares the containers.  The containers
    live in [heap], addressed by position; the dict maps each variable to
    the address of its container.  A container is the list of its words in
    iteration order.

    The dicts themselves are values here.  The code changes a dict only
    through [self.domains[var] = ...] in [consistent], after it has taken
    its copy, and every [old_domains] is bound afresh before it is read, so
    no dict is read through one name after being changed through
    another. *)
Abbreviation loc := nat.

Record State := mkState {
  heap : list (list string);
  domains : gmap Var loc
}.

(** The words a variable's domain currently holds, when the variable is a
    key of the dict. *)
Definition domain (st : State) (v : Var) : option (list string) :=
  l ← domains st !! v; heap st !! l.

(** An assignment is a dict from variables to words. *)
Abbreviation Assignment := (gmap Var string).

(** ** Outcomes: a value, a Python exception, or fuel exhaustion *)

(** The exceptions the methods can raise.  [DanglingRef] is not one of
    Python's: it marks a read through a reference that points outside the
    heap, which no run of the program produces. *)
Inductive exn := KeyError | IndexError | ValueError | TypeError | DanglingRef.

Inductive res (A : Type) :=
  | Ok (a : A)
  | Raise (e : exn)
  | OutOfFuel.
Arguments Ok {A} a.
Arguments Raise {A} e.
Arguments OutOfFuel {A}.

(** Computations over the domain store. *)
Definition M (A : Type) : Type := State → res (A * State).

Definition ret {A} (a : A) : M A := λ st, Ok (a, st).

Definition bind {A B} (m : M A) (f : A → M B) : M B :=
  λ st, match m st with
        | Ok (a, st') => f a st'
        | Raise e => Raise e
        | OutOfFuel => OutOfFuel
        end.

Definition raise {A} (e : exn) : M A := λ _, Raise e.
Definition out_of_fuel {A} : M A := λ _, OutOfFuel.

#[global] Instance M_ret : MRet M := @ret.
#[global] Instance M_bind : MBind M := λ A B f m, bind m f.

(** [for x in xs: body(x)] *)
Fixpoint for_each {A} (xs : list A) (body : A → M unit) : M unit :=
  match xs with
  | [] => mret tt
  | x :: xs' => body x;; for_each xs' body
  end.

(** *** Primitive operations on the store *)

(** [self.domains[var]] (the reference itself) *)
Definition domain_ref (var : Var) : M loc :=
  λ st, match domains st !! var with
        | Some l => Ok (l, st)
        | None => Raise KeyError
        end.

(** Reading the container behind a reference. *)
Definition read (l : loc) : M (list string) :=
  λ st, match heap st !! l with
        | Some ws => Ok (ws, st)
        | None => Raise DanglingRef
        end.

(** Overwriting the contents of a container in place. *)
Definition write (l : loc) (ws : list string) : M unit :=
  λ st, Ok (tt, mkState (<[l := ws]> (heap st)) (domains st)).

(** Allocating a new container. *)
Definition alloc (ws : list string) : M loc :=
  λ st, Ok (length (heap st), mkState (heap st ++ [ws]) (domains st)).

(** [self.domains[var] = ref] *)
Definition set_domain_ref (var : Var) (l : loc) : M unit :=
  λ st, Ok (tt, mkState (heap st) (<[var := l]> (domains st))).

(** [self.domains], the dict itself *)
Definition get_domains : M (gmap Var loc) :=
  λ st, Ok (domains st, st).

(** [self.domains.copy()]: a shallow copy, the containers are shared. *)
Definition copy_domains : M (gmap Var loc) :=
  λ st, Ok (domains st, st).

(** [self.domains = d] *)
Definition set_domains (d : gmap Var loc) : M unit :=
  λ st, Ok (tt, mkState (heap st) d).

(** [container.remove(w)]: drops the first occurrence of [w].  When [w] is
    absent a list raises [ValueError] and a set [KeyError]; the model has
    [ValueError] for both. *)
Fixpoint list_remove_first {A} `{EqDecision A} (w : A) (ws : list A) : option (list A) :=
  match ws with
  | [] => None
  | w' :: ws' =>
      if decide (w' = w) then Some ws'
      else cons w' <$> list_remove_first w ws'
  end.

Definition container_remove (l : loc) (w : string) : M unit :=
  ws ← read l;
  match list_remove_first w ws with
  | Some ws' => write l ws'
  | None => raise ValueError
  end.

(** [word[k]] *)
Definition char_at (w : string) (k : nat) : M Ascii.ascii :=
  match String.get k w with
  | Some c => mret c
  | None => raise IndexError
  end.

Section Creator.

Variable cw : Crossword.

(** [__init__]: every variable gets its own copy of the vocabulary. *)
Definition init_domains : M unit :=
  for_each (variables cw) (λ var,
    l ← alloc (words cw);
    set_domain_ref var l).

Definition empty_state : State := mkState [] ∅.

(** The store of a creator that has just been built. *)
Definition init_state : State :=
  match init_domains empty_state with
  | Ok (_, st) => st
  | _ => empty_state
  end.

(** ** Node consistency *)

(** The body of the inner loop: one word of the copy of the domain. *)
Definition node_body (var : Var) (domain_word : string) : M unit :=
  if decide (String.length domain_word ≠ var_length var)
  then l' ← domain_ref var; container_remove l' domain_word
  else mret tt.

(** The body of the outer loop: one variable, walking a copy of its
    domain. *)
Definition node_step (var : Var) : M unit :=
  l ← domain_ref var;
  snapshot ← read l;
  for_each snapshot (node_body var).

Definition enforce_node_consistency : M unit :=
  for_each (variables cw) node_step.

(** ** Arc consistency *)

(** The list comprehension of [revise]: the words of [domains[y]] that agree
    with [x_domain_word] at the overlap. *)
Fixpoint y_possible_words (x_domain_word : string) (x_overlap y_overlap : nat)
    (ys : list string) : M (list string) :=
  match ys with
  | [] => mret []
  | y_domain_word :: ys' =>
      cx ← char_at x_domain_word x_overlap;
      cy ← char_at y_domain_word y_overlap;
      rest ← y_possible_words x_domain_word x_overlap y_overlap ys';
      mret (if decide (cx = cy) then y_domain_word :: rest else rest)
  end.

(** The loop of [revise], carrying the flag [revised]. *)
Fixpoint revise_loop (x y : Var) (x_overlap y_overlap : nat)
    (xs : list string) (revised : bool) : M bool :=
  match xs with
  | [] => mret revised
  | x_domain_word :: xs' =>
      ly ← domain_ref y;
      ys ← read ly;
      possible ← y_possible_words x_domain_word x_overlap y_overlap ys;
      if decide (length possible = 0)
      then lx ← domain_ref x;
           container_remove lx x_domain_word;;
           revise_loop x y x_overlap y_overlap xs' true
      else revise_loop x y x_overlap y_overlap xs' revised
  end.

Definition revise (x y : Var) : M bool :=
  match overlaps cw x y with
  | None => mret false
  | Some (x_overlap, y_overlap) =>
      lx ← domain_ref x;
      snapshot ← read lx;
      revise_loop x y x_overlap y_overlap snapshot false
  end.

(** The arcs [ac3] starts from when it is given none: every variable paired
    with each of its neighbours. *)
Definition all_arcs : list (Var * Var) :=
  flat_map (λ var, map (λ neighbor, (var, neighbor)) (neighbors cw var))
           (variables cw).

(** One round of the [while] loop of [ac3]: either the function returns, or
    the loop goes on with a new queue. *)
Inductive ac3_round := Return (b : bool) | Continue (arcs : list (Var * Var)).

Definition ac3_step (arcs : list (Var * Var)) : M ac3_round :=
  match arcs with
  | [] => mret (Return true)
  | arc :: _ =>
      match list_remove_first arc arcs with
      | None => raise ValueError
      | Some arcs1 =>
          revised ← revise arc.1 arc.2;
          if revised : bool then
            l ← domain_ref arc.1;
            ws ← read l;
            if decide (length ws = 0) then mret (Return false)
            else mret (Continue
                   (arcs1 ++ map (λ neighbor, (neighbor, arc.1))
                                 (neighbors cw arc.1)))
          else mret (Continue arcs1)
      end
  end.

Fixpoint ac3_loop (fuel : nat) (arcs : list (Var * Var)) : M bool :=
  match fuel with
  | 0 => out_of_fuel
  | S fuel' =>
      r ← ac3_step arcs;
      match r with
      | Return b => mret b
      | Continue arcs' => ac3_loop fuel' arcs'
      end
  end.

Definition ac3 (fuel : nat) (arcs : option (list (Var * Var))) : M bool :=
  match arcs with
  | None => ac3_loop fuel all_arcs
  | Some arcs => ac3_loop fuel arcs
  end.

(** ** Checks on assignments *)

Definition assignment_complete (assignment : Assignment) : bool :=
  bool_decide (size assignment = length (variables cw)).

(** [list(assignment.values()).count(w)] *)
Definition count_value (assignment : Assignment) (w : string) : nat :=
  length (filter (λ w', w' = w) (map_to_list assignment).*2).

(** The loop runs over the keys; [assignment[var]] is the value stored with
    the key. *)
Definition assignment_has_duplicates (assignment : Assignment) : bool :=
  existsb (λ '(var, w), bool_decide (1 < count_value assignment w))
          (map_to_list assignment).

Fixpoint has_empty_loop (vars : list Var) : M bool :=
  match vars with
  | [] => mret false
  | var :: vars' =>
      l ← domain_ref var;
      ws ← read l;
      if decide (length ws = 0) then mret true else has_empty_loop vars'
  end.

Definition has_empty_domains : M bool :=
  d ← get_domains;
  has_empty_loop (map_to_list d).*1.

Definition consistent (fuel : nat) (assignment : Assignment) : M bool :=
  if assignment_has_duplicates assignment then mret false
  else
    old_domains ← copy_domains;
    for_each (map_to_list assignment) (λ '(var, w),
      l ← alloc [w];
      set_domain_ref var l);;
    enforce_node_consistency;;
    empty ← has_empty_domains;
    if empty : bool then set_domains old_domains;; mret false
    else
      ok ← ac3 fuel None;
      if negb ok then set_domains old_domains;; mret false
      else set_domains old_domains;; mret true.

(** ** Ordering heuristics *)

(** The innermost loop of [order_domain_values]: one more constraint for
    every word of the neighbour that differs from [word] at the overlap. *)
Fixpoint count_conflicts (word : string) (var1_overlap var2_overlap : nat)
    (neighbor_words : list string) (constraints : nat) : M nat :=
  match neighbor_words with
  | [] => mret constraints
  | neighbor_word :: rest =>
      c1 ← char_at word var1_overlap;
      c2 ← char_at neighbor_word var2_overlap;
      count_conflicts word var1_overlap var2_overlap rest
        (if decide (c1 ≠ c2) then constraints + 1 else constraints)
  end.

(** The loop over the neighbours that have no word yet.  Unpacking the
    overlap of a pair that has none raises [TypeError]. *)
Fixpoint count_neighbors (var : Var) (word : string)
    (non_assigned_neighbors : list Var) (constraints : nat) : M nat :=
  match non_assigned_neighbors with
  | [] => mret constraints
  | neighbor :: rest =>
      match overlaps cw var neighbor with
      | None => raise TypeError
      | Some (var1_overlap, var2_overlap) =>
          l ← domain_ref neighbor;
          neighbor_words ← read l;
          constraints' ← count_conflicts word var1_overlap var2_overlap
                           neighbor_words constraints;
          count_neighbors var word rest constraints'
      end
  end.

(** The loop over the words of the domain, building the list of
    [{'word': ..., 'constraints': ...}] records. *)
Fixpoint score_words (var : Var) (non_assigned_neighbors : list Var)
    (domain_words : list string) : M (list (string * nat)) :=
  match domain_words with
  | [] => mret []
  | word :: rest =>
      constraints ← count_neighbors var word non_assigned_neighbors 0;
      scored ← score_words var non_assigned_neighbors rest;
      mret ((word, constraints) :: scored)
  end.

(** Python's [sorted(..., key=...)] is a stable sort on the keys; an
    insertion sort that never moves a record past one of equal key
    stands for it. *)
Fixpoint insert_by_key {A} (key : A → nat) (x : A) (l : list A) : list A :=
  match l with
  | [] => [x]
  | y :: l' =>
      if decide (key x ≤ key y) then x :: y :: l'
      else y :: insert_by_key key x l'
  end.

Definition sorted_by_key {A} (key : A → nat) (l : list A) : list A :=
  foldr (insert_by_key key) [] l.

Definition order_domain_values (var : Var) (assignment : Assignment)
    : M (list string) :=
  l ← domain_ref var;
  domain_words ← read l;
  let non_assigned_neighbors :=
    filter (λ neighbor, assignment !! neighbor = None) (neighbors cw var) in
  sorted_domain_words ← score_words var non_assigned_neighbors domain_words;
  mret (sorted_by_key snd sorted_domain_words).*1.

(** [len(self.domains[var])] *)
Definition domain_len (var : Var) : M nat :=
  l ← domain_ref var;
  ws ← read l;
  mret (length ws).

(** The first loop of [select_unassigned_variable]: the variables whose
    domain has the fewest words, in the order they were met. *)
Fixpoint smallest_domain_loop (unassigned_variables : list Var)
    (smallest_domain_length : option nat) (smallest_domain_vars : list Var)
    : M (list Var) :=
  match unassigned_variables with
  | [] => mret smallest_domain_vars
  | var :: rest =>
      n ← domain_len var;
      match smallest_domain_length with
      | None => smallest_domain_loop rest (Some n) (smallest_domain_vars ++ [var])
      | Some smallest =>
          if decide (n < smallest) then smallest_domain_loop rest (Some n) [var]
          else if decide (n = smallest)
               then smallest_domain_loop rest (Some smallest)
                      (smallest_domain_vars ++ [var])
               else smallest_domain_loop rest (Some smallest) smallest_domain_vars
      end
  end.

(** The second loop: the first variable of highest degree. *)
Fixpoint highest_degree_loop (vars : list Var) (highest_degree_var : option Var)
    : option Var :=
  match vars with
  | [] => highest_degree_var
  | var :: rest =>
      match highest_degree_var with
      | None => highest_degree_loop rest (Some var)
      | Some h =>
          if decide (length (neighbors cw h) < length (neighbors cw var))
          then highest_degree_loop rest (Some var)
          else highest_degree_loop rest (Some h)
      end
  end.

Definition select_unassigned_variable (assignment : Assignment)
    : M (option Var) :=
  if assignment_complete assignment then mret None
  else
    let unassigned_variables :=
      filter (λ var, assignment !! var = None) (variables cw) in
    smallest_domain_vars ← smallest_domain_loop unassigned_variables None [];
    match smallest_domain_vars with
    | [var] => mret (Some var)
    | _ => mret (highest_degree_loop smallest_domain_vars None)
    end.

(** ** Backtracking search

    [backtrack] works on one dict: [new_assignment = assignment] binds a
    second name to the caller's dict, and every recursive call receives
    that same dict.  The model threads its contents through the calls.  A
    result other than [None] is that dict, so a call yields whether it
    found a result together with the contents of the dict when it
    returns. *)

(** The [for word in sorted_domain_words] loop; [recurse] is the recursive
    call. *)
Fixpoint backtrack_loop (fuel : nat)
    (recurse : Assignment → M (bool * Assignment))
    (unassigned_var : Var) (sorted_domain_words : list string)
    (assignment : Assignment) : M (bool * Assignment) :=
  match sorted_domain_words with
  | [] => mret (false, assignment)
  | word :: rest =>
      let new_assignment := <[unassigned_var := word]> assignment in
      ok ← consistent fuel new_assignment;
      if ok : bool then
        old_domains ← copy_domains;
        enforce_node_consistency;;
        ac3 fuel None;;
        '(found, assignment') ← recurse new_assignment;
        if found : bool then mret (true, assignment')
        else
          set_domains old_domains;;
          backtrack_loop fuel recurse unassigned_var rest assignment'
      else backtrack_loop fuel recurse unassigned_var rest new_assignment
  end.

(** [fuel] bounds the depth of the recursion and the rounds of every [ac3]
    loop run on the way.  Asking for the domain of [None], which
    [select_unassigned_variable] may return, raises [KeyError]. *)
Fixpoint backtrack (fuel : nat) (assignment : Assignment)
    : M (bool * Assignment) :=
  match fuel with
  | 0 => out_of_fuel
  | S fuel' =>
      if assignment_complete assignment then mret (true, assignment)
      else
        selected ← select_unassigned_variable assignment;
        match selected with
        | None => raise KeyError
        | Some unassigned_var =>
            sorted_domain_words ← order_domain_values unassigned_var assignment;
            backtrack_loop fuel' (backtrack fuel') unassigned_var
              sorted_domain_words assignment
        end
  end.

Definition solve (fuel : nat) : M (option Assignment) :=
  enforce_node_consistency;;
  ac3 fuel None;;
  '(found, assignment) ← backtrack fuel ∅;
  mret (if found : bool then Some assignment else None).

End Creator.

(** * Vocabulary of the properties *)

Section Vocabulary.

Context (cw : Crossword).

(** ** Well-formed stores

    The containers of distinct variables are distinct objects, every
    reference of the dict points into the heap, and every variable of the
    puzzle has a domain.  [__init__] builds such a store and every method
    keeps it so. *)
Definition store_ok (st : State) : Prop :=
  map_Forall (λ _ l, l < length (heap st)) (domains st)
  ∧ NoDup (map_to_list (domains st)).*2
  ∧ Forall (λ v, is_Some (domains st !! v)) (variables cw).

#[global] Instance store_ok_dec st : Decision (store_ok st).
Proof. unfold store_ok. apply _. Defined.

(** The unary constraint of a variable on a word. *)
Definition node_ok (var : Var) (w : string) : Prop :=
  String.length w = var_length var.

#[global] Instance node_ok_dec var w : Decision (node_ok var w).
Proof. unfold node_ok. apply _. Defined.

(** Two words agree at an overlap when the characters at the two offsets
    exist and are equal. *)
Definition agree_at (px py : nat) (xw yw : string) : Prop :=
  is_Some (String.get px xw) ∧ String.get px xw = String.get py yw.

#[global] Instance agree_at_dec px py xw yw : Decision (agree_at px py xw yw).
Proof. unfold agree_at. apply _. Defined.

(** A word of [x] is supported when some word of [y] agrees with it. *)
Definition supported (px py : nat) (ys : list string) (xw : string) : Prop :=
  Exists (agree_at px py xw) ys.

#[global] Instance supported_dec px py ys xw : Decision (supported px py ys xw).
Proof. unfold supported. apply _. Defined.

(** [st'] differs from [st] at most in the container at [l], which has only
    lost words. *)
Definition shrunk_at (l : loc) (st st' : State) : Prop :=
  domains st' = domains st
  ∧ length (heap st') = length (heap st)
  ∧ (∀ l', l' ≠ l → heap st' !! l' = heap st !! l')
  ∧ (∀ ws, heap st !! l = Some ws →
       ∃ ws', heap st' !! l = Some ws' ∧ ws' `sublist_of` ws).

(** The arcs queued after a revision of [x]: one per neighbour of [x]. *)
Definition requeued (x : Var) : list (Var * Var) :=
  map (λ neighbor, (neighbor, x)) (neighbors cw x).

(** Every variable with a word in [a] has that word as its only candidate. *)
Definition pinned (a : Assignment) (st : State) : Prop :=
  ∀ v w, a !! v = Some w → domain st v = Some [w].

(** No two variables share a word. *)
Definition distinct_words (a : Assignment) : Prop :=
  ∀ v1 v2 w, a !! v1 = Some w → a !! v2 = Some w → v1 = v2.

(** The words of every two overlapping variables agree at the recorded
    offsets. *)
Definition overlaps_agree (a : Assignment) : Prop :=
  ∀ x y px py wx wy,
    x ∈ variables cw → y ∈ variables cw → x ≠ y →
    overlaps cw x y = Some (px, py) →
    a !! x = Some wx → a !! y = Some wy → agree_at px py wx wy.

(** Every variable of the puzzle has a word. *)
Definition covers_all (a : Assignment) : Prop :=
  ∀ v, v ∈ variables cw → is_Some (a !! v).

(** The puzzle is well formed: its variables form a set and its overlap
    relation is symmetric on them. *)
Definition puzzle_ok : Prop :=
  NoDup (variables cw)
  ∧ Forall (λ x, Forall (λ y,
      is_Some (overlaps cw x y) → is_Some (overlaps cw y x)) (variables cw))
      (variables cw).

#[global] Instance puzzle_ok_dec : Decision puzzle_ok.
Proof. unfold puzzle_ok. apply _. Defined.

(** A word of a neighbour conflicts with a candidate when the characters at
    the overlap differ. *)
Definition conflicts (px py : nat) (word neighbor_word : string) : Prop :=
  String.get px word ≠ String.get py neighbor_word.

#[global] Instance conflicts_dec px py w nw : Decision (conflicts px py w nw).
Proof. unfold conflicts. apply _. Defined.

(** The number of words a candidate rules out in the domain of one
    neighbour. *)
Definition eliminated_in (st : State) (var : Var) (word : string)
    (neighbor : Var) : nat :=
  match overlaps cw var neighbor, domain st neighbor with
  | Some (px, py), Some neighbor_words =>
      length (filter (conflicts px py word) neighbor_words)
  | _, _ => 0
  end.

(** The number of words a candidate rules out over all the neighbours that
    have no word assigned. *)
Definition eliminated (st : State) (var : Var) (assignment : Assignment)
    (word : string) : nat :=
  sum_list (map (eliminated_in st var word)
             (filter (λ neighbor, assignment !! neighbor = None)
                     (neighbors cw var))).

(** Every key of the dict is a variable of the puzzle. *)
Definition keys_ok (a : Assignment) : Prop :=
  ∀ v, is_Some (a !! v) → v ∈ variables cw.

(** What a call of [backtrack] on the dict [a] guarantees when it returns
    [(found, a')] in the store [st'], having started in [st]. *)
Definition search_post (st : State) (r : bool * Assignment) (st' : State)
    : Prop :=
  length (heap st) ≤ length (heap st')
  ∧ keys_ok r.2
  ∧ (r.1 = true →
       assignment_complete cw r.2 = true
       ∧ distinct_words r.2 ∧ overlaps_agree r.2).

(** An assignment that solves the puzzle: a word for every variable, no
    word twice, and agreement at every overlap. *)
Definition solution (a : Assignment) : Prop :=
  covers_all a ∧ distinct_words a ∧ overlaps_agree a.

(** The offsets of an overlap lie inside the two variables. *)
Definition offset_ok (x y : Var) : Prop :=
  match overlaps cw x y with
  | Some (px, py) => px < var_length x ∧ py < var_length y
  | None => True
  end.

#[global] Instance offset_ok_dec x y : Decision (offset_ok x y).
Proof. unfold offset_ok. destruct (overlaps cw x y) as [[px py]|]; apply _. Defined.

Definition offsets_ok : Prop :=
  Forall (λ x, Forall (offset_ok x) (variables cw)) (variables cw).

#[global] Instance offsets_ok_dec : Decision offsets_ok.
Proof. unfold offsets_ok. apply _. Defined.

(** The domain of a variable holds words of the variable's length only. *)
Definition domain_fits (st : State) (v : Var) : Prop :=
  match domain st v with
  | Some ws => Forall (node_ok v) ws
  | None => True
  end.

#[global] Instance domain_fits_dec st v : Decision (domain_fits st v).
Proof. unfold domain_fits. destruct (domain st v); apply _. Defined.

Definition node_consistent (st : State) : Prop :=
  Forall (domain_fits st) (variables cw).

#[global] Instance node_consistent_dec st : Decision (node_consistent st).
Proof. unfold node_consistent. apply _. Defined.

End Vocabulary.

(** * Example puzzles *)

(** A three-letter slot across the top row and a three-letter slot down the
    last column: they share the cell at offset 2 of the first and offset 0
    of the second. *)
Definition x0 : Var := mkVar 0 0 ACROSS 3.
Definition y0 : Var := mkVar 0 2 DOWN 3.

Definition corner_overlaps (a b : Var) : option (nat * nat) :=
  if decide (a = x0 ∧ b = y0) then Some (2, 0)
  else if decide (a = y0 ∧ b = x0) then Some (0, 2)
  else None.

Definition corner (vocabulary : list string) : Crossword :=
  mkCrossword [x0; y0] vocabulary corner_overlaps.

Definition cw_pets : Crossword := corner ["CAT"; "TOE"; "DOG"].
Definition cw_short : Crossword := corner ["AB"; "ABCD"].

Definition cw_mixed : Crossword := corner ["CAT"; "AB"; "TOE"; "ABCD"].
Definition cw_zoo : Crossword := corner ["CAT"; "TOE"; "DOG"; "GNU"].

(** Two three-letter rows that do not meet, and a single word. *)
Definition p0 : Var := mkVar 0 0 ACROSS 3.
Definition q0 : Var := mkVar 2 0 ACROSS 3.
Definition cw_rows : Crossword := mkCrossword [p0; q0] ["CAT"] (λ _ _, None).

(** Three three-letter rows [a1], [b1], [c1]; a two-letter column [d1]
    starting at the first cell of [a1]; and a four-letter column [e1] that
    starts at the last cell of [b1] and meets the last cell of [c1] two
    cells further down. *)
Definition a1 : Var := mkVar 5 0 ACROSS 3.
Definition b1 : Var := mkVar 0 0 ACROSS 3.
Definition c1 : Var := mkVar 2 0 ACROSS 3.
Definition d1 : Var := mkVar 5 0 DOWN 2.
Definition e1 : Var := mkVar 0 2 DOWN 4.

Definition tees_overlaps (u v : Var) : option (nat * nat) :=
  if decide (u = a1 ∧ v = d1) then Some (0, 0)
  else if decide (u = d1 ∧ v = a1) then Some (0, 0)
  else if decide (u = b1 ∧ v = e1) then Some (2, 0)
  else if decide (u = e1 ∧ v = b1) then Some (0, 2)
  else if decide (u = c1 ∧ v = e1) then Some (2, 2)
  else if decide (u = e1 ∧ v = c1) then Some (2, 2)
  else None.

Definition cw_tees : Crossword :=
  mkCrossword [a1; b1; c1; d1; e1] ["SIT"; "SUN"; "CAT"; "SO"; "TOTE"]
              tees_overlaps.

Definition tees_solution : Assignment :=
  {[ a1 := "SUN"; b1 := "SIT"; c1 := "CAT"; d1 := "SO"; e1 := "TOTE" ]}.

(** A grid without a slot. *)
Definition cw_blank : Crossword := mkCrossword [] ["CAT"] (λ _ _, None).

(** The store a run leaves behind, for stores that are too long to spell
    out. *)
Definition final_state {A} (r : res (A * State)) : State :=
  match r with
  | Ok (_, st) => st
  | _ => empty_state
  end.

(** The store after the propagation [solve] performs before it searches. *)
Definition propagated (cw : Crossword) (fuel : nat) : State :=
  final_state ((enforce_node_consistency cw;; ac3 cw fuel None) (init_state cw)).

Definition pets_revised : State :=
  final_state (revise cw_pets x0 y0 (init_state cw_pets)).

Definition pets_solution : Assignment := {[ x0 := "CAT"; y0 := "TOE" ]}.

(** * Further vocabulary

    Notions for the properties of the checks on assignments, of the
    footprint and the termination of the search, and of the letter
    grid. *)

(** The variables of the puzzle without a word in the assignment, in the
    order [select_unassigned_variable] walks them. *)
Definition unassigned (cw : Crossword) (a : Assignment) : list Var :=
  filter (λ var, a !! var = None) (variables cw).

(** [len(self.domains[var])], as a number; 0 when the variable has no
    domain. *)
Definition domain_size (st : State) (v : Var) : nat :=
  length (default [] (domain st v)).

(** The number of neighbours of a variable. *)
Definition degree (cw : Crossword) (v : Var) : nat :=
  length (neighbors cw v).

(** No container gained a word: every container of [st] is a container of
    [st'], and what it holds in [st'] is what is left of its words in
    [st], in their order. *)
Definition only_removed (st st' : State) : Prop :=
  ∀ l ws, heap st !! l = Some ws →
    ∃ ws', heap st' !! l = Some ws' ∧ ws' `sublist_of` ws.

(** The same seen through the dict: every domain of [st] is in [st'] what
    is left of it. *)
Definition domains_shrunk (st st' : State) : Prop :=
  ∀ v ws, domain st v = Some ws →
    ∃ ws', domain st' v = Some ws' ∧ ws' `sublist_of` ws.

(** The number of words in the domains of the puzzle's variables. *)
Definition total_size (cw : Crossword) (st : State) : nat :=
  sum_list (domain_size st <$> variables cw).

(** Every word of [x]'s domain has a word of [y]'s domain that agrees with
    it at their overlap. *)
Definition arc_consistent (cw : Crossword) (st : State) (x y : Var) : Prop :=
  match overlaps cw x y, domain st x, domain st y with
  | Some (px, py), Some xs, Some ys => Forall (supported px py ys) xs
  | _, _, _ => True
  end.

(** The arcs of the puzzle: two different variables whose slots cross. *)
Definition is_arc (cw : Crossword) (x y : Var) : Prop :=
  x ∈ variables cw ∧ y ∈ variables cw ∧ x ≠ y ∧ is_Some (overlaps cw x y).

(** Well-formed queue entries: two different variables of the puzzle. *)
Definition queue_ok (cw : Crossword) (arcs : list (Var * Var)) : Prop :=
  Forall (λ arc, arc.1 ∈ variables cw ∧ arc.2 ∈ variables cw ∧ arc.1 ≠ arc.2)
         arcs.

(** Rounds of the [while] loop of [ac3] that are enough on every store
    obtained from [st] by removing words, also after [consistent] has put
    one-word domains in place of some. *)
Definition ac3_budget (cw : Crossword) (st : State) : nat :=
  length (all_arcs cw)
  + (total_size cw st + length (variables cw)) * S (length (variables cw)).

(** ** The letter grid

    [letter_grid] builds a fresh 2D array and writes the words of the
    assignment into it.  The width and the height of the puzzle are fields
    of the [Crossword] object; here they are arguments.  The words are
    written in the order of [assignment.items()], which the list [items]
    stands for. *)

(** A cell holds a character, or [None]. *)
Abbreviation Grid := (list (list (option Ascii.ascii))).

(** [[[None for _ in range(width)] for _ in range(height)]] *)
Definition blank_grid (height width : nat) : Grid :=
  replicate height (replicate width None).

(** [letters[i][j]], when both indices are in range. *)
Definition cell (letters : Grid) (i j : nat) : option (option Ascii.ascii) :=
  letters !! i ≫= λ row, row !! j.

(** [letters[i][j] = c]; an index past the end raises [IndexError]. *)
Definition set_cell (i j : nat) (c : Ascii.ascii) (letters : Grid) : M Grid :=
  match letters !! i with
  | None => raise IndexError
  | Some row =>
      if decide (j < length row)
      then mret (<[i := <[j := Some c]> row]> letters)
      else raise IndexError
  end.

(** The row and the column of the [k]-th letter of a slot. *)
Definition cell_i (variable : Var) (k : nat) : nat :=
  var_i variable + (if decide (var_direction variable = DOWN) then k else 0).

Definition cell_j (variable : Var) (k : nat) : nat :=
  var_j variable + (if decide (var_direction variable = ACROSS) then k else 0).

(** The loop [for k in range(len(word))]. *)
Fixpoint write_word (variable : Var) (word : string) (ks : list nat)
    (letters : Grid) : M Grid :=
  match ks with
  | [] => mret letters
  | k :: ks' =>
      c ← char_at word k;
      letters' ← set_cell (cell_i variable k) (cell_j variable k) c letters;
      write_word variable word ks' letters'
  end.

(** The loop [for variable, word in assignment.items()]. *)
Fixpoint letter_loop (items : list (Var * string)) (letters : Grid)
    : M Grid :=
  match items with
  | [] => mret letters
  | (variable, word) :: rest =>
      letters' ← write_word variable word (seq 0 (String.length word)) letters;
      letter_loop rest letters'
  end.

Definition letter_grid (height width : nat) (items : list (Var * string))
    : M Grid :=
  letter_loop items (blank_grid height width).

(** A grid of [height] rows of [width] cells. *)
Definition grid_shape (height width : nat) (letters : Grid) : Prop :=
  length letters = height ∧ Forall (λ row, length row = width) letters.

(** The [k]-th letter of the slot lies inside the grid. *)
Definition inside (height width : nat) (variable : Var) (k : nat) : Prop :=
  cell_i variable k < height ∧ cell_j variable k < width.

(** Every letter of the word lies inside the grid. *)
Definition fits_grid (height width : nat) (item : Var * string) : Prop :=
  Forall (inside height width item.1) (seq 0 (String.length item.2)).

#[global] Instance inside_dec height width variable k :
  Decision (inside height width variable k).
Proof. unfold inside. apply _. Defined.

#[global] Instance fits_grid_dec height width item :
  Decision (fits_grid height width item).
Proof. unfold fits_grid. apply _. Defined.

(** The item has the letter [c] in the cell [(i, j)]. *)
Definition letter_in (item : Var * string) (i j : nat) (c : Ascii.ascii)
    : Prop :=
  ∃ k, String.get k item.2 = Some c
       ∧ cell_i item.1 k = i ∧ cell_j item.1 k = j.

(** No letter of the item lies in the cell [(i, j)]. *)
Definition misses (item : Var * string) (i j : nat) : Prop :=
  ∀ c, ¬ letter_in item i j c.

(** ** Checks on assignments, decided *)

#[global] Instance keys_ok_dec cw a : Decision (keys_ok cw a).
Proof.
  destruct (decide (map_Forall (λ v (_ : string), v ∈ variables cw) a))
    as [Hall|Hnot].
  - left. intros v [w Hw]. exact (Hall v w Hw).
  - right. intros Hkeys. apply Hnot. intros v w Hw. apply Hkeys. by exists w.
Defined.

#[global] Instance distinct_words_dec a : Decision (distinct_words a).
Proof.
  destruct (decide (map_Forall (λ v1 (w1 : string),
              map_Forall (λ v2 (w2 : string), w1 = w2 → v1 = v2) a) a))
    as [Hall|Hnot].
  - left. intros v1 v2 w H1 H2. exact (Hall v1 w H1 v2 w H2 eq_refl).
  - right. intros Hd. apply Hnot. intros v1 w1 H1 v2 w2 H2 Heq. subst.
    by eapply Hd.
Defined.

(** The words of [x] and [y], when both have one, agree at the overlap of
    the two slots, when they have one. *)
Definition agree_pair (cw : Crossword) (a : Assignment) (x y : Var) : Prop :=
  match overlaps cw x y, a !! x, a !! y with
  | Some (px, py), Some wx, Some wy => agree_at px py wx wy
  | _, _, _ => True
  end.

#[global] Instance agree_pair_dec cw a x y : Decision (agree_pair cw a x y).
Proof.
  unfold agree_pair.
  destruct (overlaps cw x y) as [[px py]|], (a !! x), (a !! y); apply _.
Defined.

#[global] Instance overlaps_agree_dec cw a : Decision (overlaps_agree cw a).
Proof.
  destruct (decide (Forall (λ x, Forall (λ y, x ≠ y → agree_pair cw a x y)
                                        (variables cw)) (variables cw)))
    as [Hall|Hnot].
  - left. intros x y px py wx wy Hx Hy Hne Hov Hwx Hwy.
    rewrite Forall_forall in Hall. specialize (Hall x Hx).
    rewrite Forall_forall in Hall. specialize (Hall y Hy Hne).
    unfold agree_pair in Hall. by rewrite Hov, Hwx, Hwy in Hall.
  - right. intros Hagree. apply Hnot.
    apply Forall_forall. intros x Hx. apply Forall_forall. intros y Hy Hne.
    unfold agree_pair.
    destruct (overlaps cw x y) as [[px py]|] eqn:Hov; [|done].
    destruct (a !! x) as [wx|] eqn:Hwx; [|done].
    destruct (a !! y) as [wy|] eqn:Hwy; [|done].
    exact (Hagree x y px py wx wy Hx Hy Hne Hov Hwx Hwy).
Defined.

(** Every word of the assignment has the length of its slot. *)
Definition words_fit (cw : Crossword) (a : Assignment) : Prop :=
  ∀ v w, v ∈ variables cw → a !! v = Some w → node_ok v w.

#[global] Instance words_fit_dec cw a : Decision (words_fit cw a).
Proof.
  assert (∀ v, Decision (from_option (node_ok v) True (a !! v))) as Hdec
    by (intros v; destruct (a !! v); apply _).
  destruct (decide (Forall (λ v, from_option (node_ok v) True (a !! v))
                           (variables cw))) as [Hall|Hnot].
  - left. intros v w Hv Hw. rewrite Forall_forall in Hall.
    specialize (Hall v Hv). by rewrite Hw in Hall.
  - right. intros Hfit. apply Hnot. apply Forall_forall. intros v Hv.
    destruct (a !! v) as [w|] eqn:Hw; simpl; [by apply Hfit|done].
Defined.

(** Every key of [self.domains] has a word in the assignment. *)
Definition covers_store (a : Assignment) (st : State) : Prop :=
  map_Forall (λ v (_ : loc), is_Some (a !! v)) (domains st).

#[global] Instance covers_store_dec a st : Decision (covers_store a st).
Proof. unfold covers_store. apply _. Defined.

(** ** Further examples *)

(** The second slot of the corner puzzle has its word, the first has
    none. *)
Definition pets_partial : Assignment := {[ y0 := "TOE" ]}.

(** The first slot has a word only. *)
Definition pets_first : Assignment := {[ x0 := "CAT" ]}.

(** A dict with an entry for a slot that the corner puzzle does not
    have. *)
Definition pets_stray : Assignment :=
  {[ x0 := "CAT"; y0 := "TOE"; q0 := "DOG" ]}.

(** The items of the solution of the corner puzzle, on a grid of three
    rows and three columns. *)
Definition pets_items : list (Var * string) := [(x0, "CAT"); (y0, "TOE")].

(** * Properties *)

Section Properties.

Context (cw : Crossword).

#[local] Abbreviation store_ok := (store_ok cw).
#[local] Abbreviation requeued := (requeued cw).
#[local] Abbreviation eliminated_in := (eliminated_in cw).
#[local] Abbreviation eliminated := (eliminated cw).
#[local] Abbreviation overlaps_agree := (overlaps_agree cw).
#[local] Abbreviation covers_all := (covers_all cw).
#[local] Abbreviation puzzle_ok := (puzzle_ok cw).
#[local] Abbreviation keys_ok := (keys_ok cw).
#[local] Abbreviation search_post := (search_post cw).
#[local] Abbreviation solution := (solution cw).
#[local] Abbreviation offset_ok := (offset_ok cw).
#[local] Abbreviation offsets_ok := (offsets_ok cw).
#[local] Abbreviation node_consistent := (node_consistent cw).

(** ** Reasoning about runs *)

Lemma bind_Ok {A B} (m : M A) (f : A → M B) st r :
  (m ≫= f) st = Ok r ↔ ∃ a st1, m st = Ok (a, st1) ∧ f a st1 = Ok r.
Proof.
  unfold mbind, M_bind, bind. split.
  - destruct (m st) as [[a st1]| |]; [eauto|done..].
  - intros (a & st1 & -> & Hf). done.
Qed.

Lemma bind_Ok_l {A B} (m : M A) (f : A → M B) st a st1 :
  m st = Ok (a, st1) → (m ≫= f) st = f a st1.
Proof. unfold mbind, M_bind, bind. by intros ->. Qed.

Lemma mret_Ok {A} (a : A) st r : (mret a : M A) st = Ok r ↔ r = (a, st).
Proof. unfold mret, M_ret, ret. split; [by intros [= <-]|by intros ->]. Qed.

Lemma domain_ref_Ok var st l st' :
  domain_ref var st = Ok (l, st') ↔ domains st !! var = Some l ∧ st' = st.
Proof.
  unfold domain_ref. destruct (domains st !! var);
    (split; [intros [= <- <-] || intros [=]|intros [[= <-] ->]]; done).
Qed.

Lemma read_Ok l st ws st' :
  read l st = Ok (ws, st') ↔ heap st !! l = Some ws ∧ st' = st.
Proof.
  unfold read. destruct (heap st !! l);
    (split; [intros [= <- <-] || intros [=]|intros [[= <-] ->]]; done).
Qed.

Lemma char_at_Ok w k st c st' :
  char_at w k st = Ok (c, st') ↔ String.get k w = Some c ∧ st' = st.
Proof.
  unfold char_at. destruct (String.get k w); unfold mret, M_ret, ret, raise;
    (split; [intros [= <- <-] || intros [=]|intros [[= <-] ->]]; done).
Qed.

Lemma get_domains_Ok st d st' :
  get_domains st = Ok (d, st') ↔ d = domains st ∧ st' = st.
Proof. unfold get_domains. split; [by intros [= <- <-]|by intros [-> ->]]. Qed.

Lemma copy_domains_Ok st d st' :
  copy_domains st = Ok (d, st') ↔ d = domains st ∧ st' = st.
Proof. unfold copy_domains. split; [by intros [= <- <-]|by intros [-> ->]]. Qed.

Lemma set_domains_Ok d st u st' :
  set_domains d st = Ok (u, st') ↔ st' = mkState (heap st) d.
Proof. unfold set_domains. destruct u. split; [by intros [= <-]|by intros ->]. Qed.

(** Splits a hypothesis stating that a run ended normally into the runs of
    its parts. *)
Ltac inv_run :=
  repeat match goal with
  | H : (_ ≫= _) _ = Ok _ |- _ =>
      let a := fresh "a" in let st := fresh "st" in let Ha := fresh "Hrun" in
      apply bind_Ok in H as (a & st & Ha & H)
  | H : @mret M _ _ _ _ = Ok _ |- _ => apply mret_Ok in H; simplify_eq
  | H : domain_ref _ _ = Ok _ |- _ =>
      apply domain_ref_Ok in H as [H ?]; subst
  | H : read _ _ = Ok _ |- _ => apply read_Ok in H as [H ?]; subst
  | H : char_at _ _ _ = Ok _ |- _ => apply char_at_Ok in H as [H ?]; subst
  | H : get_domains _ = Ok _ |- _ => apply get_domains_Ok in H as [? ?]; subst
  | H : copy_domains _ = Ok _ |- _ => apply copy_domains_Ok in H as [? ?]; subst
  | H : set_domains _ _ = Ok _ |- _ => apply set_domains_Ok in H; subst
  | H : raise _ _ = Ok _ |- _ => by inversion H
  | H : out_of_fuel _ = Ok _ |- _ => by inversion H
  | H : Raise _ = Ok _ |- _ => by inversion H
  | H : OutOfFuel = Ok _ |- _ => by inversion H
  end.

(** *** Removing from a container while walking a copy of it *)

Lemma list_remove_first_head {A} `{EqDecision A} (x : A) l :
  list_remove_first x (x :: l) = Some l.
Proof. simpl. by rewrite decide_True. Qed.

Lemma list_remove_first_app {A} `{EqDecision A} (x : A) pre l :
  x ∉ pre → list_remove_first x (pre ++ x :: l) = Some (pre ++ l).
Proof.
  induction pre as [|p pre IH]; intros Hnot; simpl.
  - by rewrite decide_True.
  - apply not_elem_of_cons in Hnot as [Hne Hnot].
    rewrite decide_False by done. by rewrite IH.
Qed.

Lemma container_remove_app l w pre rest st :
  heap st !! l = Some (pre ++ w :: rest) → w ∉ pre →
  container_remove l w st
  = Ok (tt, mkState (<[l := pre ++ rest]> (heap st)) (domains st)).
Proof.
  intros Hl Hnot. unfold container_remove.
  rewrite (bind_Ok_l _ _ _ (pre ++ w :: rest) st)
    by (unfold read; by rewrite Hl).
  by rewrite list_remove_first_app.
Qed.

Lemma lookup_insert_heap (h : list (list string)) l ws ws' :
  h !! l = Some ws → <[l := ws']> h !! l = Some ws'.
Proof. intros H. apply list_lookup_insert_eq. by eapply lookup_lt_Some. Qed.

Lemma state_insert_id st l ws :
  heap st !! l = Some ws → mkState (<[l := ws]> (heap st)) (domains st) = st.
Proof. intros H. rewrite list_insert_id by done. by destruct st. Qed.

(** ** Well-formed stores *)

Lemma store_ok_iff st :
  store_ok st ↔
    (∀ v l, domains st !! v = Some l → l < length (heap st))
    ∧ (∀ v1 v2 l,
         domains st !! v1 = Some l → domains st !! v2 = Some l → v1 = v2)
    ∧ (∀ v, v ∈ variables cw → is_Some (domains st !! v)).
Proof.
  unfold store_ok. rewrite Forall_forall. unfold map_Forall.
  split; intros (Halloc & Hinj & Hcov); (split_and!; [done| |done]).
  - intros v1 v2 l H1 H2.
    apply elem_of_map_to_list, list_elem_of_lookup in H1 as [i Hi].
    apply elem_of_map_to_list, list_elem_of_lookup in H2 as [j Hj].
    assert (i = j) as ->.
    { eapply NoDup_lookup; [exact Hinj| |];
        rewrite list_lookup_fmap; [by rewrite Hi|by rewrite Hj]. }
    congruence.
  - apply NoDup_fmap_2_strong; [|apply NoDup_map_to_list].
    intros [v1 l1] [v2 l2] H1 H2 Heq. simpl in Heq. subst.
    apply elem_of_map_to_list in H1, H2. f_equal. by eapply Hinj.
Qed.

(** ** Node consistency *)

Lemma node_inner_loop var l snapshot : ∀ pre st,
  domains st !! var = Some l →
  heap st !! l = Some (pre ++ snapshot) →
  Forall (node_ok var) pre →
  for_each snapshot (node_body var) st
  = Ok (tt, mkState (<[l := pre ++ filter (node_ok var) snapshot]> (heap st))
                    (domains st)).
Proof.
  induction snapshot as [|w snapshot IH]; intros pre st Hv Hl Hpre;
    cbn [for_each].
  - rewrite filter_nil, app_nil_r in *. by rewrite state_insert_id.
  - destruct (decide (String.length w ≠ var_length var)) as [Hbad|Hgood].
    + rewrite filter_cons_False by (unfold node_ok; done).
      erewrite bind_Ok_l; last first.
      { unfold node_body. rewrite decide_True by done.
        erewrite bind_Ok_l by (by apply domain_ref_Ok).
        apply container_remove_app; [done|].
        intros Hin. rewrite Forall_forall in Hpre. by apply Hpre in Hin. }
      rewrite (IH pre); simpl; [|done| |done].
      * by rewrite list_insert_insert_eq.
      * by eapply lookup_insert_heap.
    + apply dec_stable in Hgood.
      rewrite filter_cons_True by done.
      erewrite bind_Ok_l
        by (unfold node_body; rewrite decide_False by (by intros ?); by apply mret_Ok).
      rewrite (IH (pre ++ [w])).
      * by rewrite <- app_assoc.
      * done.
      * by rewrite <- app_assoc.
      * apply Forall_app. split; [done|]. by apply Forall_singleton.
Qed.

Lemma node_step_run var l ws st :
  domains st !! var = Some l → heap st !! l = Some ws →
  node_step var st
  = Ok (tt, mkState (<[l := filter (node_ok var) ws]> (heap st)) (domains st)).
Proof.
  intros Hv Hl. unfold node_step.
  erewrite bind_Ok_l by (by apply domain_ref_Ok).
  erewrite bind_Ok_l by (by apply read_Ok).
  by rewrite (node_inner_loop var l ws []).
Qed.

Lemma enforce_node_consistency_unfold :
  enforce_node_consistency cw = for_each (variables cw) node_step.
Proof. reflexivity. Qed.

Lemma filter_node_ok_idemp var (ws : list string) :
  filter (node_ok var) (filter (node_ok var) ws) = filter (node_ok var) ws.
Proof.
  induction ws as [|w ws IH]; [done|].
  destruct (decide (node_ok var w)).
  - rewrite !filter_cons_True by done. by rewrite IH.
  - by rewrite filter_cons_False by done.
Qed.

(** What the outer loop does to the heap, variable by variable. *)
Lemma node_outer_loop vs : ∀ st,
  (∀ v l, domains st !! v = Some l → l < length (heap st)) →
  (∀ v1 v2 l, domains st !! v1 = Some l → domains st !! v2 = Some l → v1 = v2) →
  (∀ v, v ∈ vs → is_Some (domains st !! v)) →
  ∃ st', for_each vs node_step st = Ok (tt, st')
    ∧ domains st' = domains st
    ∧ length (heap st') = length (heap st)
    ∧ (∀ v l, domains st !! v = Some l → v ∈ vs →
         heap st' !! l = filter (node_ok v) <$> heap st !! l)
    ∧ (∀ l, (∀ v, v ∈ vs → domains st !! v ≠ Some l) →
         heap st' !! l = heap st !! l).
Proof.
  induction vs as [|var vs IH]; intros st Halloc Hinj Hcov; cbn [for_each].
  - exists st. split_and!; try done. intros v l _ Hin. by apply elem_of_nil in Hin.
  - destruct (Hcov var) as [l0 Hl0]; [left|].
    destruct (lookup_lt_is_Some_2 (heap st) l0) as [ws0 Hws0]; [by eapply Halloc|].
    pose proof (node_step_run var l0 ws0 st Hl0 Hws0) as Hstep.
    set (st1 := mkState (<[l0 := filter (node_ok var) ws0]> (heap st)) (domains st)) in *.
    destruct (IH st1) as (st' & Hrun & Hdom & Hlen & Hin & Hout).
    { intros v l Hv. simpl. rewrite length_insert. by eapply Halloc. }
    { done. }
    { intros v Hv. apply Hcov. by right. }
    exists st'. split_and!.
    + by erewrite bind_Ok_l.
    + done.
    + by rewrite Hlen; simpl; rewrite length_insert.
    + intros v l Hv Hvin.
      destruct (decide (v ∈ vs)) as [Hvs|Hvs].
      * rewrite (Hin v l Hv Hvs). simpl.
        destruct (decide (l = l0)) as [->|Hne].
        -- assert (v = var) as -> by (by eapply Hinj).
           rewrite (lookup_insert_heap _ _ _ _ Hws0), Hws0. simpl.
           by rewrite filter_node_ok_idemp.
        -- by rewrite list_lookup_insert_ne.
      * apply elem_of_cons in Hvin as [->|?]; [|done].
        assert (l = l0) as -> by congruence.
        rewrite Hout; simpl.
        -- by rewrite (lookup_insert_heap _ _ _ _ Hws0), Hws0.
        -- intros v' Hv' Heq. assert (v' = var) as -> by (by eapply Hinj). done.
    + intros l Hl. rewrite Hout; simpl.
      * rewrite list_lookup_insert_ne; [done|].
        intros <-. by apply (Hl var); [left|].
      * intros v Hv. apply Hl. by right.
Qed.

(** [enforce_node_consistency] always returns on a well-formed store: the
    dict is left alone and the container of every variable is filtered by
    the variable's length. *)
Lemma enforce_node_consistency_run st :
  store_ok st →
  ∃ st', enforce_node_consistency cw st = Ok (tt, st')
    ∧ domains st' = domains st
    ∧ length (heap st') = length (heap st)
    ∧ (∀ v, v ∈ variables cw →
         domain st' v = filter (node_ok v) <$> domain st v)
    ∧ (∀ v, v ∉ variables cw → domain st' v = domain st v).
Proof.
  intros (Halloc & Hinj & Hcov)%store_ok_iff.
  destruct (node_outer_loop (variables cw) st Halloc Hinj Hcov)
    as (st' & Hrun & Hdom & Hlen & Hin & Hout).
  exists st'. split_and!; try done.
  - intros v Hv. unfold domain. rewrite Hdom.
    destruct (domains st !! v) as [l|] eqn:Hl; simpl; [|done].
    by apply Hin.
  - intros v Hv. unfold domain. rewrite Hdom.
    destruct (domains st !! v) as [l|] eqn:Hl; simpl; [|done].
    apply Hout. intros v' Hv' Heq.
    assert (v' = v) as -> by (by eapply Hinj). done.
Qed.

Lemma store_ok_same_shape st st' :
  store_ok st → domains st' = domains st →
  length (heap st) ≤ length (heap st') → store_ok st'.
Proof.
  rewrite !store_ok_iff. intros (Halloc & Hinj & Hcov) Hdom Hlen.
  rewrite Hdom. split_and!; try done.
  intros v l Hv. specialize (Halloc v l Hv). lia.
Qed.

(** ** Arc consistency: [revise] *)

Lemma filter_length_0 {A} (P : A → Prop) `{∀ x, Decision (P x)} (l : list A) :
  length (filter P l) = 0 ↔ ¬ Exists P l.
Proof.
  rewrite Exists_exists. split.
  - intros Hlen (x & Hx & HP). apply nil_length_inv in Hlen.
    by eapply filter_nil_not_elem_of.
  - intros Hno. destruct (filter P l) as [|x l'] eqn:Hf; [done|].
    exfalso. apply Hno. exists x.
    assert (x ∈ filter P l) as Hx by (rewrite Hf; left).
    apply list_elem_of_filter in Hx as [? ?]. done.
Qed.

Lemma y_possible_words_Ok xw px py ys : ∀ st r st',
  y_possible_words xw px py ys st = Ok (r, st') →
  st' = st ∧ r = filter (agree_at px py xw) ys.
Proof.
  induction ys as [|yw ys IH]; intros st r st' Hrun; cbn [y_possible_words] in Hrun.
  - by inv_run.
  - inv_run.
    match goal with H : y_possible_words _ _ _ _ _ = _ |- _ =>
      apply IH in H as [-> ->] end.
    split; [done|]. case_decide as Hc.
    + subst. rewrite filter_cons_True; [done|]. split; [by eexists|congruence].
    + rewrite filter_cons_False; [done|]. intros [_ Heq]. congruence.
Qed.

(** The loop of [revise] filters the container of [x] in place, provided
    the container of [y] is another object. *)
Lemma revise_loop_Ok x y px py lx ly ys xs : ∀ pre st revised b st',
  domains st !! x = Some lx → domains st !! y = Some ly → lx ≠ ly →
  heap st !! lx = Some (pre ++ xs) → heap st !! ly = Some ys →
  Forall (supported px py ys) pre →
  revise_loop x y px py xs revised st = Ok (b, st') →
  st' = mkState (<[lx := pre ++ filter (supported px py ys) xs]> (heap st))
                (domains st)
  ∧ (b = true ↔ revised = true ∨ Exists (λ w, ¬ supported px py ys w) xs).
Proof.
  induction xs as [|w xs IH]; intros pre st revised b st' Hx Hy Hne Hlx Hly Hpre Hrun;
    cbn [revise_loop] in Hrun.
  - inv_run. rewrite filter_nil, app_nil_r in *. split.
    + by rewrite state_insert_id.
    + rewrite Exists_nil. tauto.
  - inv_run.
    match goal with H : y_possible_words _ _ _ _ _ = _ |- _ =>
      apply y_possible_words_Ok in H as [-> ->] end.
    simplify_eq.
    case_decide as Hz.
    + apply filter_length_0 in Hz. inv_run. simplify_eq.
      match goal with H : container_remove _ _ _ = _ |- _ =>
        rewrite (container_remove_app lx w pre xs) in H; [|done|]; last first
      end.
      { intros Hin. rewrite Forall_forall in Hpre. by apply Hpre in Hin. }
      simplify_eq.
      eapply (IH pre) in Hrun as [-> Hb]; simpl; [| done | done | done | | | done ].
      * rewrite filter_cons_False by done. rewrite list_insert_insert_eq.
        split; [done|]. rewrite Hb, Exists_cons.
        split; [intros _; right; left; exact Hz|intros _; by left].
      * by eapply lookup_insert_heap.
      * by rewrite list_lookup_insert_ne.
    + assert (supported px py ys w) as Hsup.
      { destruct (decide (supported px py ys w)) as [|Hno]; [done|].
        by apply (filter_length_0 (agree_at px py w)) in Hno. }
      eapply (IH (pre ++ [w])) in Hrun as [-> Hb]; [| done | done | done | | done | ].
      * rewrite filter_cons_True by done. rewrite <- app_assoc. split; [done|].
        rewrite Hb, Exists_cons. tauto.
      * by rewrite <- app_assoc.
      * apply Forall_app. split; [done|]. by apply Forall_singleton.
Qed.

(** What a call of [revise] that returns has done. *)
Lemma revise_Ok x y lx ly xs ys st b st' :
  domains st !! x = Some lx → domains st !! y = Some ly → lx ≠ ly →
  heap st !! lx = Some xs → heap st !! ly = Some ys →
  revise cw x y st = Ok (b, st') →
  match overlaps cw x y with
  | None => st' = st ∧ b = false
  | Some (px, py) =>
      st' = mkState (<[lx := filter (supported px py ys) xs]> (heap st))
                    (domains st)
      ∧ (b = true ↔ Exists (λ w, ¬ supported px py ys w) xs)
  end.
Proof.
  intros Hx Hy Hne Hlx Hly Hrun. unfold revise in Hrun.
  destruct (overlaps cw x y) as [[px py]|].
  - inv_run. simplify_eq.
    eapply (revise_loop_Ok _ _ _ _ _ _ _ _ []) in Hrun as [-> Hb]; try done.
    split; [done|]. rewrite Hb. split; [intros [?|?]|]; by auto.
  - by inv_run.
Qed.

(** *** The footprint of [revise] *)

Lemma list_remove_first_sublist {A} `{EqDecision A} (w : A) ws ws' :
  list_remove_first w ws = Some ws' → ws' `sublist_of` ws.
Proof.
  revert ws'. induction ws as [|w0 ws IH]; intros ws' Hrm; simpl in Hrm; [done|].
  case_decide.
  - simplify_eq. by apply sublist_cons.
  - destruct (list_remove_first w ws) as [r|]; simplify_eq/=.
    by apply sublist_skip, IH.
Qed.

Lemma shrunk_at_refl l st : shrunk_at l st st.
Proof. split_and!; try done. intros ws Hws. by exists ws. Qed.

Lemma shrunk_at_trans l st1 st2 st3 :
  shrunk_at l st1 st2 → shrunk_at l st2 st3 → shrunk_at l st1 st3.
Proof.
  intros (Hd1 & Hl1 & Ho1 & Hs1) (Hd2 & Hl2 & Ho2 & Hs2). split_and!.
  - congruence.
  - congruence.
  - intros l' Hl'. rewrite Ho2, Ho1; done.
  - intros ws Hws. destruct (Hs1 ws Hws) as (ws1 & Hws1 & Hsub1).
    destruct (Hs2 ws1 Hws1) as (ws2 & Hws2 & Hsub2).
    exists ws2. split; [done|]. by etrans.
Qed.

Lemma container_remove_shrunk l w st st' :
  container_remove l w st = Ok (tt, st') → shrunk_at l st st'.
Proof.
  unfold container_remove. intros Hrun. inv_run.
  destruct (list_remove_first w a) as [ws'|] eqn:Hrm; [|by inv_run].
  unfold write in Hrun. simplify_eq. split_and!; simpl.
  - done.
  - by rewrite length_insert.
  - intros l' Hne. by rewrite list_lookup_insert_ne.
  - intros ws Hws. exists ws'. split; [by eapply lookup_insert_heap|].
    simplify_eq. by eapply list_remove_first_sublist.
Qed.

Lemma revise_loop_shrunk x y px py lx xs : ∀ st revised b st',
  domains st !! x = Some lx →
  revise_loop x y px py xs revised st = Ok (b, st') → shrunk_at lx st st'.
Proof.
  induction xs as [|w xs IH]; intros st revised b st' Hx Hrun;
    cbn [revise_loop] in Hrun.
  - inv_run. apply shrunk_at_refl.
  - inv_run.
    match goal with H : y_possible_words _ _ _ _ _ = _ |- _ =>
      apply y_possible_words_Ok in H as [-> _] end.
    case_decide.
    + inv_run. simplify_eq.
      match goal with H : container_remove _ _ _ = Ok (?u, _) |- _ =>
        destruct u; apply container_remove_shrunk in H as Hsh end.
      eapply shrunk_at_trans; [exact Hsh|].
      eapply IH; [|done]. destruct Hsh as (-> & _). done.
    + by eapply IH.
Qed.

Lemma revise_shrunk x y lx st b st' :
  domains st !! x = Some lx →
  revise cw x y st = Ok (b, st') → shrunk_at lx st st'.
Proof.
  intros Hx Hrun. unfold revise in Hrun.
  destruct (overlaps cw x y) as [[px py]|].
  - inv_run. by eapply revise_loop_shrunk.
  - inv_run. apply shrunk_at_refl.
Qed.

Lemma revise_no_overlap x y st :
  overlaps cw x y = None → revise cw x y st = Ok (false, st).
Proof. unfold revise. by intros ->. Qed.

Lemma filter_length_lt {A} (P : A → Prop) `{∀ x, Decision (P x)} (l : list A) :
  length (filter P l) < length l ↔ Exists (λ x, ¬ P x) l.
Proof.
  rewrite Exists_exists. split.
  - intros Hlt. induction l as [|x l IH]; [simpl in Hlt; lia|].
    destruct (decide (P x)).
    + rewrite filter_cons_True in Hlt by done. simpl in Hlt.
      destruct IH as (z & Hz & HP); [lia|]. exists z. split; [by right|done].
    + exists x. split; [by left|done].
  - intros (x & Hx & HP). by eapply length_filter_lt.
Qed.

Lemma dom_Some st v ws :
  domain st v = Some ws ↔ ∃ l, domains st !! v = Some l ∧ heap st !! l = Some ws.
Proof.
  unfold domain. destruct (domains st !! v) as [l|]; simpl.
  - split; [by exists l|]. by intros (l' & [= <-] & ?).
  - split; [done|]. by intros (l' & [=] & ?).
Qed.

(** ** Arc consistency: [ac3] *)

Lemma revise_loop_flag x y px py xs : ∀ st b st',
  revise_loop x y px py xs true st = Ok (b, st') → b = true.
Proof.
  induction xs as [|w xs IH]; intros st b st' Hrun; cbn [revise_loop] in Hrun.
  - by inv_run.
  - inv_run. case_decide; inv_run; by eapply IH.
Qed.

Lemma revise_loop_unrevised x y px py xs : ∀ st st',
  revise_loop x y px py xs false st = Ok (false, st') → st' = st.
Proof.
  induction xs as [|w xs IH]; intros st st' Hrun; cbn [revise_loop] in Hrun.
  - by inv_run.
  - inv_run.
    match goal with H : y_possible_words _ _ _ _ _ = _ |- _ =>
      apply y_possible_words_Ok in H as [-> _] end.
    case_decide.
    + inv_run. by apply revise_loop_flag in Hrun.
    + by eapply IH.
Qed.

(** A call of [revise] that revises nothing changes nothing. *)
Lemma revise_unrevised x y st st' :
  revise cw x y st = Ok (false, st') → st' = st.
Proof.
  unfold revise. destruct (overlaps cw x y) as [[px py]|]; intros Hrun; inv_run.
  - by eapply revise_loop_unrevised.
  - done.
Qed.

Lemma revise_shape x y st b st' :
  revise cw x y st = Ok (b, st') →
  domains st' = domains st ∧ length (heap st') = length (heap st).
Proof.
  intros Hrun. destruct (domains st !! x) as [lx|] eqn:Hx.
  - by destruct (revise_shrunk _ _ _ _ _ _ Hx Hrun) as (? & ? & _).
  - unfold revise in Hrun. destruct (overlaps cw x y) as [[px py]|]; inv_run.
    + congruence.
    + done.
Qed.

(** The three ways a round of the loop can end. *)
Lemma ac3_step_Ok x y rest st r st' :
  ac3_step cw ((x, y) :: rest) st = Ok (r, st') →
  ∃ revised, revise cw x y st = Ok (revised, st')
    ∧ (if revised : bool
       then ∃ ws, domain st' x = Some ws
              ∧ (if decide (length ws = 0) then r = Return false
                 else r = Continue (rest ++ requeued x))
       else r = Continue rest).
Proof.
  unfold ac3_step. rewrite list_remove_first_head. simpl. intros Hrun.
  inv_run. destruct a.
  - inv_run. exists true.
    match goal with H1 : domains _ !! x = Some ?l, H2 : heap _ !! ?l = Some ?ws |- _ =>
      assert (domain st0 x = Some ws) as Hdom by (unfold domain; by rewrite H1) end.
    case_decide as Hlen; inv_run; (split; [done|]); eexists; (split; [done|]);
      by rewrite ?decide_True, ?decide_False by done.
  - inv_run. by exists false.
Qed.

(** Induction over a run of the loop of [ac3] that returns. *)
Lemma ac3_loop_ind (P : list (Var * Var) → State → bool → State → Prop) :
  (∀ st, P [] st true st) →
  (∀ x y rest st b st',
     revise cw x y st = Ok (false, st) →
     P rest st b st' → P ((x, y) :: rest) st b st') →
  (∀ x y rest st st',
     revise cw x y st = Ok (true, st') → domain st' x = Some [] →
     P ((x, y) :: rest) st false st') →
  (∀ x y rest st st1 ws b st',
     revise cw x y st = Ok (true, st1) → domain st1 x = Some ws → ws ≠ [] →
     P (rest ++ requeued x) st1 b st' → P ((x, y) :: rest) st b st') →
  ∀ fuel arcs st b st',
    ac3_loop cw fuel arcs st = Ok (b, st') → P arcs st b st'.
Proof.
  intros Hnil Hkeep Hempty Hrevised.
  induction fuel as [|fuel IH]; intros arcs st b st' Hrun; cbn [ac3_loop] in Hrun.
  - by inv_run.
  - inv_run. destruct arcs as [|[x y] rest].
    + unfold ac3_step in *. by inv_run.
    + match goal with H : ac3_step _ _ _ = _ |- _ =>
        apply ac3_step_Ok in H as (revised & Hrev & Hr) end.
      destruct revised.
      * destruct Hr as (ws & Hws & Hr). case_decide as Hlen; subst.
        -- inv_run. apply nil_length_inv in Hlen. subst. by eapply Hempty.
        -- eapply Hrevised; [done..| |by eapply IH].
           intros ->. done.
      * subst. pose proof (revise_unrevised _ _ _ _ Hrev) as ->.
        eapply Hkeep; [done|]. by eapply IH.
Qed.

Lemma ac3_loop_shape fuel arcs st b st' :
  ac3_loop cw fuel arcs st = Ok (b, st') →
  domains st' = domains st ∧ length (heap st') = length (heap st).
Proof.
  revert fuel arcs st b st'.
  apply (ac3_loop_ind (λ _ st _ st',
    domains st' = domains st ∧ length (heap st') = length (heap st))).
  - done.
  - done.
  - intros. by eapply revise_shape.
  - intros x y rest st st1 ws b st' Hrev _ _ [-> ->]. by eapply revise_shape.
Qed.

(** *** Arcs between variables whose domain is pinned to one word *)

Lemma sublist_singleton_nonempty {A} (l : list A) x :
  l `sublist_of` [x] → l ≠ [] → l = [x].
Proof.
  intros Hsub Hne. destruct l as [|y l]; [done|].
  apply sublist_cons_l in Hsub as (k1 & k2 & Hk & Hsub).
  destruct k1 as [|z [|? ?]]; simplify_eq/=.
  apply sublist_nil_r in Hsub. by subst.
Qed.

Lemma pinned_revise a st x y st' ws :
  pinned a st →
  revise cw x y st = Ok (true, st') → domain st' x = Some ws → ws ≠ [] →
  pinned a st'.
Proof.
  intros Hpin Hrev Hdom Hne v w Hv.
  destruct (revise_shape _ _ _ _ _ Hrev) as [Hd _].
  apply dom_Some in Hdom as (lx & Hlx & Hws). rewrite Hd in Hlx.
  destruct (revise_shrunk _ _ _ _ _ _ Hlx Hrev) as (_ & _ & Hother & Hshrink).
  apply Hpin, dom_Some in Hv as (l & Hl & Hw).
  apply dom_Some. exists l. rewrite Hd. split; [done|].
  destruct (decide (l = lx)) as [->|Hll].
  - destruct (Hshrink [w] Hw) as (ws' & Hws' & Hsub).
    rewrite Hws'. f_equal. apply sublist_singleton_nonempty; [done|].
    congruence.
  - by rewrite Hother.
Qed.

Lemma pinned_arc_agree a st x y px py wx wy b st' :
  store_ok st → pinned a st → x ≠ y →
  overlaps cw x y = Some (px, py) → a !! x = Some wx → a !! y = Some wy →
  revise cw x y st = Ok (b, st') →
  (b = false ∨ ∃ ws, domain st' x = Some ws ∧ ws ≠ []) →
  agree_at px py wx wy.
Proof.
  intros Hok Hpin Hne Hov Hx Hy Hrev Hres.
  pose proof Hok as (Halloc & Hinj & Hcov)%store_ok_iff.
  apply Hpin, dom_Some in Hx as (lx & Hlx & Hwx).
  apply Hpin, dom_Some in Hy as (ly & Hly & Hwy).
  assert (lx ≠ ly) as Hll by (intros ->; apply Hne; by eapply Hinj).
  pose proof (revise_Ok x y lx ly [wx] [wy] st b st' Hlx Hly Hll Hwx Hwy Hrev)
    as Hspec.
  rewrite Hov in Hspec. destruct Hspec as [-> Hb].
  assert (supported px py [wy] wx) as Hsup.
  { destruct (decide (supported px py [wy] wx)) as [|Hno]; [done|]. exfalso.
    destruct Hres as [->|(ws & Hws & Hnil)].
    - assert (false = true) as Hft; [|done].
      apply Hb. apply Exists_cons. by left.
    - apply Hnil. apply dom_Some in Hws as (l & Hl & Hws). simpl in *.
      assert (l = lx) as -> by congruence.
      rewrite (lookup_insert_heap _ _ _ _ Hwx) in Hws.
      rewrite filter_cons_False, filter_nil in Hws by done. congruence. }
  unfold supported in Hsup. apply Exists_cons in Hsup as [?|Hnil]; [done|].
  by apply Exists_nil in Hnil.
Qed.

(** When [ac3] returns [True] on a pinned store, the words pinned at the two
    ends of every arc it was given agree at the overlap. *)
Lemma ac3_loop_agree a fuel arcs st st' :
  ac3_loop cw fuel arcs st = Ok (true, st') →
  store_ok st → pinned a st →
  ∀ x y px py wx wy,
    (x, y) ∈ arcs → x ≠ y → overlaps cw x y = Some (px, py) →
    a !! x = Some wx → a !! y = Some wy → agree_at px py wx wy.
Proof.
  cut (∀ b, ac3_loop cw fuel arcs st = Ok (b, st') → b = true →
         store_ok st → pinned a st →
         ∀ x y px py wx wy,
           (x, y) ∈ arcs → x ≠ y → overlaps cw x y = Some (px, py) →
           a !! x = Some wx → a !! y = Some wy → agree_at px py wx wy).
  { intros H Hrun. by apply (H true). }
  intros b. revert fuel arcs st b st'.
  apply (ac3_loop_ind (λ arcs st b st',
    b = true → store_ok st → pinned a st →
    ∀ x y px py wx wy,
      (x, y) ∈ arcs → x ≠ y → overlaps cw x y = Some (px, py) →
      a !! x = Some wx → a !! y = Some wy → agree_at px py wx wy)).
  - intros st _ _ _ x y px py wx wy Hin. by apply elem_of_nil in Hin.
  - intros x0 y0 rest st b st' Hrev IH Hb Hok Hpin x y px py wx wy Hin Hne Hov Hx Hy.
    apply elem_of_cons in Hin as [[= -> ->]|Hin].
    + eapply pinned_arc_agree; [done..|by left].
    + by eapply IH.
  - done.
  - intros x0 y0 rest st st1 ws b st' Hrev Hdom Hws IH Hb Hok Hpin
      x y px py wx wy Hin Hne Hov Hx Hy.
    apply elem_of_cons in Hin as [[= -> ->]|Hin].
    + eapply pinned_arc_agree; [done..|]. right. by exists ws.
    + eapply IH; try done.
      * destruct (revise_shape _ _ _ _ _ Hrev) as [Hd Hl].
        eapply store_ok_same_shape; [done|done|lia].
      * by eapply pinned_revise.
      * apply elem_of_app. by left.
Qed.

Lemma neighbors_variables x z : z ∈ neighbors cw x → z ∈ variables cw.
Proof. unfold neighbors. by intros [_ ?]%list_elem_of_filter. Qed.

Lemma requeued_variables x : Forall (λ arc, arc.1 ∈ variables cw) (requeued x).
Proof.
  unfold requeued. apply Forall_fmap, Forall_forall. intros z Hz. simpl.
  by eapply neighbors_variables.
Qed.

Lemma all_arcs_variables : Forall (λ arc, arc.1 ∈ variables cw) (all_arcs cw).
Proof.
  unfold all_arcs. rewrite Forall_forall. intros [x y] Hin.
  apply list_elem_of_In, in_flat_map in Hin as (v & Hv & Hin).
  apply in_map_iff in Hin as (n & [= <- <-] & _). simpl. by apply list_elem_of_In.
Qed.

(** ** Giving variables fresh containers *)

Lemma for_each_ext {A} (f g : A → M unit) l :
  (∀ x, f x = g x) → for_each l f = for_each l g.
Proof.
  intros Hfg. induction l as [|x l IH]; cbn [for_each]; [done|].
  by rewrite Hfg, IH.
Qed.

(** The loops of [__init__] and of [consistent] bind each variable to a new
    container; the containers that existed before are left alone. *)
Lemma fresh_loop {B} (key : B → Var) (content : B → list string) (bs : list B) :
  ∀ st,
  (∀ v l, domains st !! v = Some l → l < length (heap st)) →
  (∀ v1 v2 l, domains st !! v1 = Some l → domains st !! v2 = Some l → v1 = v2) →
  ∃ st',
    for_each bs (λ b, l ← alloc (content b); set_domain_ref (key b) l) st
    = Ok (tt, st')
    ∧ (∀ v l, domains st' !! v = Some l → l < length (heap st'))
    ∧ (∀ v1 v2 l,
         domains st' !! v1 = Some l → domains st' !! v2 = Some l → v1 = v2)
    ∧ length (heap st) ≤ length (heap st')
    ∧ (∀ l ws, heap st !! l = Some ws → heap st' !! l = Some ws)
    ∧ (∀ v, v ∉ key <$> bs → domains st' !! v = domains st !! v)
    ∧ (∀ v, v ∈ key <$> bs →
         ∃ b, b ∈ bs ∧ key b = v ∧ domain st' v = Some (content b)).
Proof.
  induction bs as [|b bs IH]; intros st Halloc Hinj; cbn [for_each].
  - exists st. split_and!; try done. intros v Hv. by apply elem_of_nil in Hv.
  - set (st1 := mkState (heap st ++ [content b])
                        (<[key b := length (heap st)]> (domains st))).
    destruct (IH st1) as (st' & Hrun & Halloc' & Hinj' & Hlen & Hkeep & Hout & Hin).
    { intros v l. simpl. rewrite length_app. simpl.
      destruct (decide (v = key b)) as [->|Hne].
      - rewrite lookup_insert_eq. intros [= <-]. lia.
      - rewrite lookup_insert_ne by done. intros Hv%Halloc. lia. }
    { intros v1 v2 l. simpl.
      destruct (decide (v1 = key b)) as [->|Hne1];
        destruct (decide (v2 = key b)) as [->|Hne2]; [done|..].
      - rewrite lookup_insert_eq, lookup_insert_ne by done.
        intros [= <-] Hv%Halloc. lia.
      - rewrite lookup_insert_eq, lookup_insert_ne by done.
        intros Hv%Halloc [= <-]. lia.
      - rewrite !lookup_insert_ne by done. apply Hinj. }
    exists st'. split_and!; try done.
    + simpl in Hlen. rewrite length_app in Hlen. simpl in Hlen. lia.
    + intros l ws Hl. apply Hkeep. simpl. by apply lookup_app_l_Some.
    + intros v Hv. rewrite fmap_cons in Hv.
      apply not_elem_of_cons in Hv as [Hne Hv].
      rewrite Hout by done. simpl. by rewrite lookup_insert_ne.
    + intros v Hv. rewrite fmap_cons in Hv.
      destruct (decide (v ∈ key <$> bs)) as [Hvin|Hvout].
      * destruct (Hin v Hvin) as (b' & Hb' & Hkey & Hdom).
        exists b'. split_and!; [by right|done|done].
      * apply elem_of_cons in Hv as [->|?]; [|done].
        exists b. split_and!; [by left|done|].
        apply dom_Some. exists (length (heap st)). split.
        -- rewrite Hout by done. simpl. by rewrite lookup_insert_eq.
        -- apply Hkeep. simpl. by rewrite lookup_app_r, Nat.sub_diag.
Qed.

Lemma init_domains_run :
  ∃ st, init_domains cw empty_state = Ok (tt, st)
    ∧ store_ok st
    ∧ ∀ v, v ∈ variables cw → domain st v = Some (words cw).
Proof.
  destruct (fresh_loop id (λ _, words cw) (variables cw) empty_state)
    as (st & Hrun & Halloc & Hinj & _ & _ & _ & Hin); [done..|].
  exists st. rewrite list_fmap_id in Hin. split_and!.
  - done.
  - apply store_ok_iff. split_and!; [done..|].
    intros v Hv. destruct (Hin v Hv) as (b & _ & _ & Hdom).
    apply dom_Some in Hdom as (l & Hl & _). by exists l.
  - intros v Hv. by destruct (Hin v Hv) as (b & _ & _ & Hdom).
Qed.

(** The loop of [consistent] pins every assigned variable to its word. *)
Lemma pin_loop (a : Assignment) st :
  store_ok st →
  ∃ st',
    for_each (map_to_list a)
      (λ '(var, w), l ← alloc [w]; set_domain_ref var l) st = Ok (tt, st')
    ∧ store_ok st' ∧ pinned a st'
    ∧ length (heap st) ≤ length (heap st').
Proof.
  intros (Halloc & Hinj & Hcov)%store_ok_iff.
  destruct (fresh_loop fst (λ p, [p.2]) (map_to_list a) st)
    as (st' & Hrun & Halloc' & Hinj' & Hlen & Hkeep & Hout & Hin); [done..|].
  exists st'. split_and!.
  - rewrite <- Hrun.
    rewrite (for_each_ext _ (λ b, l ← alloc [b.2]; set_domain_ref b.1 l)); [done|].
    by intros [var w].
  - apply store_ok_iff. split_and!; [done..|].
    intros v Hv. destruct (decide (v ∈ (map_to_list a).*1)) as [Hvin|Hvout].
    + destruct (Hin v Hvin) as (b & _ & _ & Hdom).
      apply dom_Some in Hdom as (l & Hl & _). by exists l.
    + rewrite Hout by done. by apply Hcov.
  - intros v w Hv.
    destruct (Hin v) as ([v' w'] & Hb & Hkey & Hdom).
    { apply list_elem_of_fmap. exists (v, w). split; [done|].
      by apply elem_of_map_to_list. }
    simpl in *. subst. apply elem_of_map_to_list in Hb.
    rewrite Hdom. congruence.
  - done.
Qed.

(** ** The consistency check *)

Lemma has_empty_loop_Ok vars : ∀ st b st',
  has_empty_loop vars st = Ok (b, st') →
  st' = st
  ∧ (b = false → ∀ v, v ∈ vars → ∃ ws, domain st v = Some ws ∧ ws ≠ []).
Proof.
  induction vars as [|var vars IH]; intros st b st' Hrun;
    cbn [has_empty_loop] in Hrun.
  - inv_run. split; [done|]. intros _ v Hv. by apply elem_of_nil in Hv.
  - inv_run. case_decide as Hlen.
    + by inv_run.
    + apply IH in Hrun as [-> Hrest]. split; [done|].
      intros Hb v [->|Hv]%elem_of_cons; [|by apply Hrest].
      eexists. split; [apply dom_Some; eauto|]. by intros ->.
Qed.

Lemma has_empty_domains_Ok st st' :
  has_empty_domains st = Ok (false, st') →
  st' = st ∧ ∀ v ws, domain st v = Some ws → ws ≠ [].
Proof.
  unfold has_empty_domains. intros Hrun. inv_run.
  apply has_empty_loop_Ok in Hrun as [-> Hall]. split; [done|].
  intros v ws Hv. pose proof Hv as (l & Hl & _)%dom_Some.
  destruct (Hall eq_refl v) as (ws' & Hws' & Hne).
  { apply list_elem_of_fmap. exists (v, l). split; [done|].
    by apply elem_of_map_to_list. }
  congruence.
Qed.

Lemma has_empty_domains_shape st b st' :
  has_empty_domains st = Ok (b, st') → st' = st.
Proof.
  unfold has_empty_domains. intros Hrun. inv_run.
  by apply has_empty_loop_Ok in Hrun as [-> _].
Qed.

Lemma count_value_two (a : Assignment) v1 v2 w :
  v1 ≠ v2 → a !! v1 = Some w → a !! v2 = Some w → 1 < count_value a w.
Proof.
  intros Hne H1 H2. unfold count_value.
  assert (length (filter (λ w', w' = w) (map_to_list a).*2)
          = length (filter (λ p, p.2 = w) (map_to_list a))) as ->.
  { generalize (map_to_list a). intros l.
    induction l as [|[v' w'] l IH]; [done|].
    rewrite fmap_cons, !filter_cons. simpl.
    case_decide; simpl; by rewrite IH. }
  assert ([(v1, w); (v2, w)] ⊆+ filter (λ p, p.2 = w) (map_to_list a)) as Hsub.
  { apply NoDup_submseteq.
    - apply NoDup_cons. split; [|apply NoDup_singleton].
      intros Hin%list_elem_of_singleton. congruence.
    - intros p Hp. apply list_elem_of_filter.
      apply elem_of_cons in Hp as [->|Hp%list_elem_of_singleton]; subst;
        (split; [done|]); by apply elem_of_map_to_list. }
  apply submseteq_length in Hsub. simpl in Hsub. lia.
Qed.

Lemma assignment_has_duplicates_false (a : Assignment) :
  assignment_has_duplicates a = false → distinct_words a.
Proof.
  unfold assignment_has_duplicates. intros Hno v1 v2 w H1 H2.
  destruct (decide (v1 = v2)) as [|Hne]; [done|]. exfalso.
  assert (existsb (λ '(_, w0), bool_decide (1 < count_value a w0))
            (map_to_list a) = true) as Hyes; [|congruence].
  apply existsb_exists. exists (v1, w). split.
  - by apply list_elem_of_In, elem_of_map_to_list.
  - apply bool_decide_eq_true. by eapply count_value_two.
Qed.

Lemma all_arcs_elem x y :
  (x, y) ∈ all_arcs cw ↔ x ∈ variables cw ∧ y ∈ neighbors cw x.
Proof.
  unfold all_arcs. rewrite list_elem_of_In, in_flat_map. split.
  - intros (v & Hv & Hin). apply in_map_iff in Hin as (n & [= <- <-] & Hn).
    by rewrite !list_elem_of_In.
  - intros [Hx Hy]. exists x. split; [by apply list_elem_of_In|].
    apply in_map_iff. exists y. split; [done|]. by apply list_elem_of_In.
Qed.

Lemma puzzle_ok_arc x y :
  puzzle_ok → x ∈ variables cw → y ∈ variables cw → x ≠ y →
  is_Some (overlaps cw x y) → (x, y) ∈ all_arcs cw.
Proof.
  intros [_ Hsym] Hx Hy Hne Hov. apply all_arcs_elem. split; [done|].
  unfold neighbors. apply list_elem_of_filter. split; [|done].
  split; [done|]. rewrite Forall_forall in Hsym.
  specialize (Hsym x Hx). rewrite Forall_forall in Hsym. by apply Hsym.
Qed.

(** What a call of [consistent] that returns has established: the dict is
    the one it started with, no container was freed, and [True] means that
    the assignment has pairwise distinct words that agree at every
    overlap. *)
Lemma consistent_Ok fuel a st b st' :
  store_ok st →
  consistent cw fuel a st = Ok (b, st') →
  domains st' = domains st
  ∧ length (heap st) ≤ length (heap st')
  ∧ (b = true → puzzle_ok → distinct_words a ∧ overlaps_agree a).
Proof.
  intros Hok. unfold consistent.
  destruct (assignment_has_duplicates a) eqn:Hdup.
  { intros Hrun. inv_run. done. }
  destruct (pin_loop a st Hok) as (sp & Hpin & Hok1 & Hpinned & Hlen1).
  destruct (enforce_node_consistency_run sp Hok1)
    as (sn & Hnode & Hd2 & Hlen2 & Hin2 & Hout2).
  erewrite bind_Ok_l by (by apply copy_domains_Ok).
  erewrite bind_Ok_l by exact Hpin.
  erewrite bind_Ok_l by exact Hnode.
  intros Hrun. inv_run.
  match goal with H : has_empty_domains _ = Ok (?e, _) |- _ =>
    destruct e; [apply has_empty_domains_shape in H as ->
                |apply has_empty_domains_Ok in H as [-> Hfull]] end.
  { unfold set_domains in *. inv_run. simplify_eq/=.
    split_and!; [done|lia|done]. }
  inv_run.
  match goal with H : ac3 _ _ _ _ = Ok (?ok, ?st3) |- _ =>
    simpl in H; pose proof (ac3_loop_shape _ _ _ _ _ H) as [Hd3 Hlen3];
    rename H into Hac3; destruct ok end; simpl in Hrun;
    unfold set_domains in *; inv_run; simplify_eq/=;
    (split_and!; [done|lia|try done]).
  intros _ Hpuzzle. split; [by apply assignment_has_duplicates_false|].
  assert (pinned a sn) as Hpinned2.
  { intros v w Hv. specialize (Hpinned v w Hv).
    destruct (decide (v ∈ variables cw)) as [Hvin|Hvout].
    - pose proof (Hin2 v Hvin) as Hdom. rewrite Hpinned in Hdom. simpl in Hdom.
      rewrite Hdom. f_equal.
      destruct (decide (node_ok v w)) as [Hn|Hn].
      + by rewrite filter_cons_True, filter_nil.
      + rewrite filter_cons_False, filter_nil in Hdom by done.
        by apply Hfull in Hdom.
    - rewrite Hout2 by done. done. }
  intros x y px py wx wy Hx Hy Hne Hov Hax Hay.
  eapply (ac3_loop_agree a fuel (all_arcs cw) sn); try done.
  - apply (store_ok_same_shape sp sn Hok1); [done|lia].
  - apply puzzle_ok_arc; [done..|]. by rewrite Hov.
Qed.

(** ** Ordering the values of a domain *)

Lemma count_conflicts_Ok word px py nws : ∀ c st c' st',
  count_conflicts word px py nws c st = Ok (c', st') →
  st' = st ∧ c' = c + length (filter (conflicts px py word) nws).
Proof.
  induction nws as [|nw nws IH]; intros c st c' st' Hrun;
    cbn [count_conflicts] in Hrun.
  - inv_run. rewrite filter_nil. simpl. split; [done|lia].
  - inv_run. apply IH in Hrun as [-> ->]. split; [done|].
    case_decide as Hc.
    + rewrite filter_cons_True by (unfold conflicts; congruence). simpl. lia.
    + subst.
      rewrite filter_cons_False; [done|]. unfold conflicts. intros Hn.
      apply Hn. congruence.
Qed.

Lemma count_neighbors_Ok var word ns : ∀ c st c' st',
  count_neighbors cw var word ns c st = Ok (c', st') →
  st' = st ∧ c' = c + sum_list (map (eliminated_in st var word) ns).
Proof.
  induction ns as [|n ns IH]; intros c st c' st' Hrun;
    cbn [count_neighbors] in Hrun.
  - inv_run. simpl. split; [done|lia].
  - cbn [map sum_list]. unfold eliminated_in at 1.
    destruct (overlaps cw var n) as [[px py]|]; [|by inv_run].
    inv_run.
    match goal with H : count_conflicts _ _ _ _ _ _ = _ |- _ =>
      apply count_conflicts_Ok in H as [-> ->] end.
    apply IH in Hrun as [-> ->]. split; [done|].
    unfold domain.
    match goal with H1 : domains _ !! n = Some _, H2 : heap _ !! _ = Some _ |- _ =>
      rewrite H1; simpl; rewrite H2 end.
    lia.
Qed.

Lemma score_words_Ok var a ws : ∀ st r st',
  score_words cw var (filter (λ n, a !! n = None) (neighbors cw var)) ws st
  = Ok (r, st') →
  st' = st ∧ r = map (λ w, (w, eliminated st var a w)) ws.
Proof.
  induction ws as [|w ws IH]; intros st r st' Hrun; cbn [score_words] in Hrun.
  - by inv_run.
  - inv_run.
    match goal with H : count_neighbors _ _ _ _ _ _ = _ |- _ =>
      apply count_neighbors_Ok in H as [-> ->] end.
    match goal with H : score_words _ _ _ _ _ = _ |- _ =>
      apply IH in H as [-> ->] end.
    done.
Qed.

(** *** The stable sort *)

Lemma insert_by_key_perm {A} (key : A → nat) x l :
  insert_by_key key x l ≡ₚ x :: l.
Proof.
  induction l as [|y l IH]; simpl; [done|].
  case_decide; [done|]. rewrite IH. apply Permutation_swap.
Qed.

Lemma sorted_by_key_perm {A} (key : A → nat) l : sorted_by_key key l ≡ₚ l.
Proof.
  induction l as [|x l IH]; simpl; [done|].
  by rewrite insert_by_key_perm, IH.
Qed.

Lemma insert_by_key_sorted {A} (key : A → nat) x l :
  StronglySorted (λ a b, key a ≤ key b) l →
  StronglySorted (λ a b, key a ≤ key b) (insert_by_key key x l).
Proof.
  induction 1 as [|y l Hsorted IH Hall]; simpl.
  - by repeat constructor.
  - case_decide as Hle.
    + constructor; [by constructor|]. constructor; [done|].
      eapply Forall_impl; [exact Hall|]. simpl. intros; lia.
    + constructor; [done|]. rewrite insert_by_key_perm.
      constructor; [lia|done].
Qed.

Lemma sorted_by_key_sorted {A} (key : A → nat) l :
  StronglySorted (λ a b, key a ≤ key b) (sorted_by_key key l).
Proof.
  induction l as [|x l IH]; simpl; [constructor|].
  by apply insert_by_key_sorted.
Qed.

Lemma insert_by_key_stable {A} (key : A → nat) (k : nat) x l :
  filter (λ a, key a = k) (insert_by_key key x l)
  = filter (λ a, key a = k) (x :: l).
Proof.
  induction l as [|y l IH]; simpl; [done|].
  case_decide as Hle; [done|].
  rewrite (filter_cons _ y), IH, !(filter_cons _ x), (filter_cons _ y).
  repeat case_decide; try done; lia.
Qed.

Lemma sorted_by_key_stable {A} (key : A → nat) (k : nat) l :
  filter (λ a, key a = k) (sorted_by_key key l) = filter (λ a, key a = k) l.
Proof.
  induction l as [|x l IH]; simpl; [done|].
  by rewrite insert_by_key_stable, !filter_cons, IH.
Qed.

Lemma insert_by_key_scored {A} (f : A → nat) x l :
  insert_by_key snd (x, f x) (map (λ a, (a, f a)) l)
  = map (λ a, (a, f a)) (insert_by_key f x l).
Proof.
  induction l as [|y l IH]; simpl; [done|].
  case_decide; [done|]. by rewrite IH.
Qed.

Lemma sorted_by_key_scored {A} (f : A → nat) (l : list A) :
  (sorted_by_key snd (map (λ a, (a, f a)) l)).*1 = sorted_by_key f l.
Proof.
  assert (sorted_by_key snd (map (λ a, (a, f a)) l)
          = map (λ a, (a, f a)) (sorted_by_key f l)) as ->.
  { induction l as [|x l IH]; simpl; [done|].
    by rewrite IH, insert_by_key_scored. }
  rewrite <- list_fmap_compose. apply list_fmap_id.
Qed.

Lemma order_domain_values_Ok var assignment st result st' :
  order_domain_values cw var assignment st = Ok (result, st') →
  st' = st
  ∧ ∃ domain_words, domain st var = Some domain_words
      ∧ result = sorted_by_key (eliminated st var assignment) domain_words.
Proof.
  unfold order_domain_values. intros Hrun. inv_run.
  match goal with H : score_words _ _ _ _ _ = _ |- _ =>
    apply score_words_Ok in H as [-> ->] end.
  split; [done|]. eexists. split.
  { apply dom_Some. eauto. }
  by rewrite sorted_by_key_scored.
Qed.

(** ** Choosing the next variable *)

Lemma domain_len_Ok var st n st' :
  domain_len var st = Ok (n, st') →
  st' = st ∧ ∃ ws, domain st var = Some ws ∧ n = length ws.
Proof.
  unfold domain_len. intros Hrun. inv_run. split; [done|].
  eexists. split; [apply dom_Some; eauto|done].
Qed.

Lemma smallest_domain_loop_Ok vs : ∀ smallest vars st r st',
  smallest_domain_loop vs smallest vars st = Ok (r, st') →
  st' = st ∧ ∀ v, v ∈ r → v ∈ vars ∨ v ∈ vs.
Proof.
  induction vs as [|var vs IH]; intros smallest vars st r st' Hrun;
    cbn [smallest_domain_loop] in Hrun.
  - inv_run. split; [done|]. by left.
  - inv_run.
    match goal with H : domain_len _ _ = _ |- _ =>
      apply domain_len_Ok in H as [-> _] end.
    destruct smallest as [smallest|]; repeat case_decide;
      apply IH in Hrun as [-> Hsub]; (split; [done|]); intros v Hv;
      destruct (Hsub v Hv) as [Hin|Hin]; rewrite ?elem_of_cons;
      try (apply elem_of_app in Hin as [?|?%list_elem_of_singleton]);
      try (apply list_elem_of_singleton in Hin); auto.
Qed.

Lemma highest_degree_loop_elem vs : ∀ h v,
  highest_degree_loop cw vs h = Some v → h = Some v ∨ v ∈ vs.
Proof.
  induction vs as [|var vs IH]; intros h v Hh; simpl in Hh; [by left|].
  destruct h as [h|]; [case_decide|];
    apply IH in Hh as [[= ->]|?]; rewrite elem_of_cons; auto.
Qed.

Lemma select_unassigned_variable_Ok a st r st' :
  select_unassigned_variable cw a st = Ok (r, st') →
  st' = st ∧ ∀ v, r = Some v → v ∈ variables cw ∧ a !! v = None.
Proof.
  unfold select_unassigned_variable. destruct (assignment_complete cw a).
  { intros Hrun; inv_run; done. }
  intros Hrun. inv_run.
  match goal with H : smallest_domain_loop _ _ _ _ = Ok (?vars, _) |- _ =>
    apply smallest_domain_loop_Ok in H as [-> Hsub]; rename vars into found end.
  assert (∀ v, v ∈ found → v ∈ variables cw ∧ a !! v = None) as Hfound.
  { intros v Hv. destruct (Hsub v Hv) as [Hin|Hin]; [by apply elem_of_nil in Hin|].
    by apply list_elem_of_filter in Hin as [? ?]. }
  assert (∀ v, highest_degree_loop cw found None = Some v →
               v ∈ variables cw ∧ a !! v = None) as Hhigh.
  { intros v [?|Hv]%highest_degree_loop_elem; [done|]. by apply Hfound. }
  destruct found as [|v1 [|v2 found]]; inv_run; (split; [done|]).
  - exact Hhigh.
  - intros v [= <-]. apply Hfound. by left.
  - exact Hhigh.
Qed.

(** ** The search *)

Lemma keys_ok_insert a var w :
  keys_ok a → var ∈ variables cw → keys_ok (<[var := w]> a).
Proof.
  intros Hk Hvar v. destruct (decide (v = var)) as [->|Hne]; [done|].
  rewrite lookup_insert_ne by done. apply Hk.
Qed.

Lemma enforce_node_consistency_shape st st' :
  store_ok st → enforce_node_consistency cw st = Ok (tt, st') →
  domains st' = domains st ∧ length (heap st') = length (heap st).
Proof.
  intros Hok Hrun.
  destruct (enforce_node_consistency_run st Hok) as (sn & Hnode & Hd & Hl & _).
  assert (sn = st') as <- by congruence. done.
Qed.

Lemma backtrack_loop_Ok fuel recurse var :
  puzzle_ok → var ∈ variables cw →
  (∀ a st r st',
     store_ok st → keys_ok a →
     (assignment_complete cw a = true → distinct_words a ∧ overlaps_agree a) →
     recurse a st = Ok (r, st') → search_post st r st') →
  ∀ ws a st r st',
    store_ok st → keys_ok a →
    backtrack_loop cw fuel recurse var ws a st = Ok (r, st') →
    search_post st r st'.
Proof.
  intros Hpuzzle Hvar Hrec.
  induction ws as [|w ws IH]; intros a st r st' Hok Hkeys Hrun;
    cbn [backtrack_loop] in Hrun.
  - inv_run. by split_and!.
  - cbv zeta in Hrun. inv_run.
    match goal with H : consistent _ _ _ _ = Ok (?ok, ?sc) |- _ =>
      destruct (consistent_Ok _ _ _ _ _ Hok H) as (Hdc & Hlc & Hvalid);
      assert (store_ok sc) as Hokc
        by (by apply (store_ok_same_shape st));
      destruct ok end.
    + inv_run.
      match goal with H : enforce_node_consistency _ _ = Ok (?u, _) |- _ =>
        destruct u;
        pose proof (enforce_node_consistency_shape _ _ Hokc H) as [Hdn Hln] end.
      match goal with H : ac3 _ _ _ _ = Ok _ |- _ =>
        unfold ac3 in H;
        pose proof (ac3_loop_shape _ _ _ _ _ H) as [Hda Hla] end.
      match goal with H : recurse _ _ = Ok (?res, ?sr) |- _ =>
        apply Hrec in H;
          [destruct H as (Hlr & Hkr & Hfound); destruct res as [found a'']|..]
      end.
      * simpl in *. destruct found.
        -- inv_run. split_and!; simpl; [lia|done|done].
        -- inv_run.
           match goal with H : backtrack_loop _ _ _ _ _ _ ?s = Ok _ |- _ =>
             assert (store_ok s) as Hoks
               by (eapply store_ok_same_shape; [exact Hokc|done|simpl; lia]);
             destruct (IH _ _ _ _ Hoks Hkr H) as (Hl' & Hk' & Hf') end.
           split_and!; [simpl in *; lia|done|done].
      * eapply store_ok_same_shape; [exact Hokc|congruence|lia].
      * by apply keys_ok_insert.
      * intros _. by apply Hvalid.
    + destruct (IH _ _ _ _ Hokc (keys_ok_insert _ _ w Hkeys Hvar) Hrun)
        as (Hl' & Hk' & Hf').
      split_and!; [lia|done|done].
Qed.

(** What a call of [backtrack] that returns guarantees. *)
Lemma backtrack_Ok fuel : ∀ a st r st',
  puzzle_ok → store_ok st → keys_ok a →
  (assignment_complete cw a = true → distinct_words a ∧ overlaps_agree a) →
  backtrack cw fuel a st = Ok (r, st') → search_post st r st'.
Proof.
  induction fuel as [|fuel IH]; intros a st r st' Hpuzzle Hok Hkeys Hsound Hrun;
    cbn [backtrack] in Hrun.
  - by inv_run.
  - destruct (assignment_complete cw a) eqn:Hcomplete.
    + inv_run. split_and!; simpl; [done|done|]. intros _. split; [done|].
      by apply Hsound.
    + inv_run.
      match goal with H : select_unassigned_variable _ _ _ = Ok (?sel, _) |- _ =>
        apply select_unassigned_variable_Ok in H as [-> Hsel];
        destruct sel as [var|]; [|by inv_run] end.
      inv_run.
      match goal with H : order_domain_values _ _ _ _ = _ |- _ =>
        apply order_domain_values_Ok in H as [-> _] end.
      destruct (Hsel var eq_refl) as [Hvar _].
      eapply backtrack_loop_Ok; [done|done| |done|done|done].
      intros a1 st1 r1 st1' Hok1 Hk1 Hs1 Hrun1. by eapply IH.
Qed.

Lemma complete_covers_all (a : Assignment) :
  NoDup (variables cw) → keys_ok a →
  assignment_complete cw a = true → covers_all a.
Proof.
  intros Hnd Hkeys Hsize v Hv.
  unfold assignment_complete in Hsize. apply bool_decide_eq_true in Hsize.
  apply elem_of_dom.
  assert (dom a = list_to_set (variables cw)) as ->;
    [|by apply elem_of_list_to_set].
  apply set_subseteq_size_eq.
  - intros k Hk%elem_of_dom. apply elem_of_list_to_set. by apply Hkeys.
  - rewrite size_dom, Hsize, size_list_to_set; done.
Qed.

Lemma init_state_ok :
  store_ok (init_state cw)
  ∧ ∀ v, v ∈ variables cw → domain (init_state cw) v = Some (words cw).
Proof.
  destruct init_domains_run as (st & Hrun & Hok & Hdom).
  unfold init_state. by rewrite Hrun.
Qed.

Lemma backtrack_solution fuel a st a' st' :
  puzzle_ok → store_ok st → keys_ok a →
  (assignment_complete cw a = true → distinct_words a ∧ overlaps_agree a) →
  backtrack cw fuel a st = Ok ((true, a'), st') → solution a'.
Proof.
  intros Hpuzzle Hok Hkeys Hsound Hrun.
  destruct (backtrack_Ok _ _ _ _ _ Hpuzzle Hok Hkeys Hsound Hrun)
    as (_ & Hk & Hfound).
  destruct (Hfound eq_refl) as (Hcomplete & Hdistinct & Hagree).
  split_and!; [|done..]. apply complete_covers_all; [by destruct Hpuzzle|done..].
Qed.

(** ** Runs that cannot raise *)

Lemma get_is_Some w : ∀ k, k < String.length w → is_Some (String.get k w).
Proof.
  induction w as [|c w IH]; intros k Hk; simpl in *; [lia|].
  destruct k as [|k]; [by eexists|]. apply IH. lia.
Qed.

Lemma in_range_words st x y px py ws :
  offsets_ok → node_consistent st →
  x ∈ variables cw → y ∈ variables cw →
  overlaps cw x y = Some (px, py) →
  (domain st x = Some ws → Forall (λ w, is_Some (String.get px w)) ws)
  ∧ (domain st y = Some ws → Forall (λ w, is_Some (String.get py w)) ws).
Proof.
  intros Hoff Hnode Hx Hy Hov.
  unfold offsets_ok in Hoff. rewrite Forall_forall in Hoff.
  specialize (Hoff x Hx). rewrite Forall_forall in Hoff.
  specialize (Hoff y Hy). unfold offset_ok in Hoff. rewrite Hov in Hoff.
  destruct Hoff as [Hpx Hpy].
  unfold node_consistent in Hnode. rewrite Forall_forall in Hnode.
  split; intros Hdom.
  - specialize (Hnode x Hx). unfold domain_fits in Hnode. rewrite Hdom in Hnode.
    eapply Forall_impl; [exact Hnode|]. intros w Hw. apply get_is_Some.
    unfold node_ok in Hw. lia.
  - specialize (Hnode y Hy). unfold domain_fits in Hnode. rewrite Hdom in Hnode.
    eapply Forall_impl; [exact Hnode|]. intros w Hw. apply get_is_Some.
    unfold node_ok in Hw. lia.
Qed.

Lemma y_possible_words_run xw px py ys st :
  is_Some (String.get px xw) →
  Forall (λ w, is_Some (String.get py w)) ys →
  y_possible_words xw px py ys st = Ok (filter (agree_at px py xw) ys, st).
Proof.
  intros [cx Hcx] Hys. induction Hys as [|yw ys [cy Hcy] Hys IH];
    cbn [y_possible_words]; [done|].
  erewrite bind_Ok_l by (by apply char_at_Ok).
  erewrite bind_Ok_l by (by apply char_at_Ok).
  erewrite bind_Ok_l by exact IH.
  unfold mret, M_ret, ret. do 2 f_equal. case_decide as Hc.
  - subst. rewrite filter_cons_True; [done|]. split; [by eexists|congruence].
  - rewrite filter_cons_False; [done|]. intros [_ Heq]. congruence.
Qed.

Lemma revise_loop_run x y px py lx ly ys xs : ∀ pre st revised,
  domains st !! x = Some lx → domains st !! y = Some ly → lx ≠ ly →
  heap st !! lx = Some (pre ++ xs) → heap st !! ly = Some ys →
  Forall (supported px py ys) pre →
  Forall (λ w, is_Some (String.get px w)) xs →
  Forall (λ w, is_Some (String.get py w)) ys →
  ∃ b st', revise_loop x y px py xs revised st = Ok (b, st').
Proof.
  induction xs as [|w xs IH]; intros pre st revised Hx Hy Hne Hlx Hly Hpre Hxs Hys;
    cbn [revise_loop].
  - by eexists _, _.
  - apply Forall_cons_1 in Hxs as [Hw Hxs].
    erewrite bind_Ok_l by (by apply domain_ref_Ok).
    erewrite bind_Ok_l by (by apply read_Ok).
    erewrite bind_Ok_l by (by apply y_possible_words_run).
    case_decide as Hz.
    + apply filter_length_0 in Hz.
      erewrite bind_Ok_l by (by apply domain_ref_Ok).
      erewrite bind_Ok_l; last first.
      { apply container_remove_app; [done|].
        intros Hin. rewrite Forall_forall in Hpre. by apply Hpre in Hin. }
      apply (IH pre); simpl; try done.
      * by eapply lookup_insert_heap.
      * by rewrite list_lookup_insert_ne.
    + apply (IH (pre ++ [w])); try done.
      * by rewrite <- app_assoc.
      * apply Forall_app. split; [done|]. apply Forall_singleton.
        destruct (decide (supported px py ys w)) as [|Hno]; [done|].
        by apply (filter_length_0 (agree_at px py w)) in Hno.
Qed.

(** On a node-consistent store of a puzzle whose offsets are in range,
    [revise] returns. *)
Lemma revise_run st x y :
  store_ok st → offsets_ok → node_consistent st →
  x ∈ variables cw → y ∈ variables cw → x ≠ y →
  ∃ b st', revise cw x y st = Ok (b, st').
Proof.
  intros Hok Hoff Hnode Hxin Hyin Hne.
  pose proof Hok as (Halloc & Hinj & Hcov)%store_ok_iff.
  destruct (Hcov x Hxin) as [lx Hx]. destruct (Hcov y Hyin) as [ly Hy].
  destruct (lookup_lt_is_Some_2 (heap st) lx) as [xs Hxs]; [by eapply Halloc|].
  destruct (lookup_lt_is_Some_2 (heap st) ly) as [ys Hys]; [by eapply Halloc|].
  assert (lx ≠ ly) as Hll by (intros ->; apply Hne; by eapply Hinj).
  unfold revise. destruct (overlaps cw x y) as [[px py]|] eqn:Hov;
    [|by eexists _, _].
  erewrite bind_Ok_l by (by apply domain_ref_Ok).
  erewrite bind_Ok_l by (by apply read_Ok).
  apply (revise_loop_run x y px py lx ly ys xs []); try done.
  - apply (in_range_words st x y px py xs); try done. apply dom_Some. eauto.
  - apply (in_range_words st x y px py ys); try done. apply dom_Some. eauto.
Qed.

Lemma count_conflicts_run word px py nws st : ∀ c,
  is_Some (String.get px word) →
  Forall (λ w, is_Some (String.get py w)) nws →
  ∃ c', count_conflicts word px py nws c st = Ok (c', st).
Proof.
  intros c [c1 Hc1] Hnws. revert c.
  induction Hnws as [|nw nws [c2 Hc2] Hnws IH]; intros c; cbn [count_conflicts].
  - by eexists.
  - erewrite bind_Ok_l by (by apply char_at_Ok).
    erewrite bind_Ok_l by (by apply char_at_Ok).
    apply IH.
Qed.

Lemma count_neighbors_run var word ns st : ∀ c,
  (∀ n, n ∈ ns → ∃ px py nws,
      overlaps cw var n = Some (px, py) ∧ domain st n = Some nws
      ∧ is_Some (String.get px word)
      ∧ Forall (λ w, is_Some (String.get py w)) nws) →
  ∃ c', count_neighbors cw var word ns c st = Ok (c', st).
Proof.
  induction ns as [|n ns IH]; intros c Hns; cbn [count_neighbors].
  - by eexists.
  - destruct (Hns n) as (px & py & nws & -> & Hdom & Hword & Hnws); [by left|].
    apply dom_Some in Hdom as (l & Hl & Hws).
    erewrite bind_Ok_l by (by apply domain_ref_Ok).
    erewrite bind_Ok_l by (by apply read_Ok).
    destruct (count_conflicts_run word px py nws st c Hword Hnws) as [c' Hc'].
    erewrite bind_Ok_l by exact Hc'.
    apply IH. intros n' Hn'. apply Hns. by right.
Qed.

Lemma score_words_run var ns st ws :
  (∀ word n, word ∈ ws → n ∈ ns → ∃ px py nws,
      overlaps cw var n = Some (px, py) ∧ domain st n = Some nws
      ∧ is_Some (String.get px word)
      ∧ Forall (λ w, is_Some (String.get py w)) nws) →
  ∃ r, score_words cw var ns ws st = Ok (r, st).
Proof.
  induction ws as [|word ws IH]; intros Hws; cbn [score_words].
  - by eexists.
  - destruct (count_neighbors_run var word ns st 0) as [c Hc].
    { intros n Hn. apply Hws; [by left|done]. }
    erewrite bind_Ok_l by exact Hc.
    destruct IH as [r Hr].
    { intros w n Hw Hn. apply Hws; [by right|done]. }
    erewrite bind_Ok_l by exact Hr. by eexists.
Qed.

(** On a node-consistent store of a well-formed puzzle whose offsets are in
    range, [order_domain_values] returns. *)
Lemma order_domain_values_run var a st :
  puzzle_ok → offsets_ok → store_ok st → node_consistent st →
  var ∈ variables cw →
  ∃ r, order_domain_values cw var a st = Ok (r, st).
Proof.
  intros [_ Hsym] Hoff Hok Hnode Hvar.
  pose proof Hok as (Halloc & Hinj & Hcov)%store_ok_iff.
  destruct (Hcov var Hvar) as [l Hl].
  destruct (lookup_lt_is_Some_2 (heap st) l) as [ws Hws]; [by eapply Halloc|].
  unfold order_domain_values.
  erewrite bind_Ok_l by (by apply domain_ref_Ok).
  erewrite bind_Ok_l by (by apply read_Ok).
  destruct (score_words_run var
              (filter (λ n, a !! n = None) (neighbors cw var)) st ws)
    as [r Hr]; [|erewrite bind_Ok_l by exact Hr; by eexists].
  intros word n Hword [_ Hn]%list_elem_of_filter.
  pose proof (neighbors_variables _ _ Hn) as Hnin.
  unfold neighbors in Hn. apply list_elem_of_filter, proj1 in Hn as [Hne Hov].
  rewrite Forall_forall in Hsym. specialize (Hsym n Hnin).
  rewrite Forall_forall in Hsym. apply Hsym in Hov as [[px py] Hov]; [|done].
  destruct (Hcov n Hnin) as [ln Hln].
  destruct (lookup_lt_is_Some_2 (heap st) ln) as [nws Hnws]; [by eapply Halloc|].
  exists px, py, nws. split_and!; [done|apply dom_Some; eauto|..].
  - assert (Forall (λ w, is_Some (String.get px w)) ws) as Hall.
    { apply (in_range_words st var n px py ws); try done. apply dom_Some. eauto. }
    rewrite Forall_forall in Hall. by apply Hall.
  - apply (in_range_words st var n px py nws); try done. apply dom_Some. eauto.
Qed.

(** ** A vocabulary without a word of the right length *)

Lemma domain_len_run var st ws :
  domain st var = Some ws → domain_len var st = Ok (length ws, st).
Proof.
  intros (l & Hl & Hws)%dom_Some. unfold domain_len.
  erewrite bind_Ok_l by (by apply domain_ref_Ok).
  by erewrite bind_Ok_l by (by apply read_Ok).
Qed.

Lemma smallest_domain_loop_run vs : ∀ smallest vars st,
  (∀ v, v ∈ vs → is_Some (domain st v)) →
  (is_Some smallest → vars ≠ []) →
  ∃ r, smallest_domain_loop vs smallest vars st = Ok (r, st)
    ∧ (vs ≠ [] ∨ vars ≠ [] → r ≠ []).
Proof.
  induction vs as [|var vs IH]; intros smallest vars st Hdom Hinv;
    cbn [smallest_domain_loop].
  - exists vars. split; [done|]. by intros [?|?].
  - destruct (Hdom var) as [ws Hws]; [by left|].
    erewrite bind_Ok_l by (by apply domain_len_run).
    assert (∀ v, v ∈ vs → is_Some (domain st v)) as Hdom'
      by (intros v Hv; apply Hdom; by right).
    assert (∀ (l : list Var), l ++ [var] ≠ []) as Hsnoc by (by intros []).
    destruct smallest as [smallest|]; repeat case_decide;
      match goal with |- ∃ r, smallest_domain_loop vs ?s ?l st = _ ∧ _ =>
        destruct (IH s l st Hdom') as (r & Hr & Hne); [auto|];
        exists r; split; [done|]; intros _; apply Hne; right; auto
      end.
Qed.

Lemma highest_degree_loop_Some vs h :
  is_Some (highest_degree_loop cw vs (Some h)).
Proof.
  revert h. induction vs as [|var vs IH]; intros h; simpl; [done|].
  case_decide; apply IH.
Qed.

(** On a store where every variable has a domain, an incomplete assignment
    always gets a variable to work on. *)
Lemma select_unassigned_variable_run a st :
  assignment_complete cw a = false →
  (∀ v, v ∈ variables cw → is_Some (domain st v)) →
  filter (λ var, a !! var = None) (variables cw) ≠ [] →
  ∃ v, select_unassigned_variable cw a st = Ok (Some v, st).
Proof.
  intros Hincomplete Hdom Hfree. unfold select_unassigned_variable.
  rewrite Hincomplete.
  destruct (smallest_domain_loop_run
              (filter (λ var, a !! var = None) (variables cw)) None [] st)
    as (r & Hr & Hne).
  { intros v [_ Hv]%list_elem_of_filter. by apply Hdom. }
  { by intros [? [=]]. }
  erewrite bind_Ok_l by exact Hr.
  destruct r as [|v1 [|v2 r]].
  - exfalso. apply Hne; [by left|done].
  - by exists v1.
  - destruct (highest_degree_loop_Some (v2 :: r) v1) as [v Hv].
    exists v. change (highest_degree_loop cw (v1 :: v2 :: r) None)
      with (highest_degree_loop cw (v2 :: r) (Some v1)).
    by rewrite Hv.
Qed.

Lemma revise_empty_domain x y st :
  domain st x = Some [] → revise cw x y st = Ok (false, st).
Proof.
  intros (l & Hl & Hws)%dom_Some. unfold revise.
  destruct (overlaps cw x y) as [[px py]|]; [|done].
  erewrite bind_Ok_l by (by apply domain_ref_Ok).
  by erewrite bind_Ok_l by (by apply read_Ok).
Qed.

(** With nothing to revise, [ac3] empties its queue and returns [True]. *)
Lemma ac3_loop_empty_domains arcs : ∀ fuel st,
  Forall (λ arc, domain st arc.1 = Some []) arcs →
  length arcs < fuel →
  ac3_loop cw fuel arcs st = Ok (true, st).
Proof.
  induction arcs as [|[x y] arcs IH]; intros fuel st Hall Hfuel;
    (destruct fuel as [|fuel]; [simpl in Hfuel; lia|]); cbn [ac3_loop].
  - done.
  - apply Forall_cons_1 in Hall as [Hx Hall]. simpl in Hx, Hfuel.
    erewrite bind_Ok_l; last first.
    { unfold ac3_step. rewrite list_remove_first_head. simpl.
      erewrite bind_Ok_l by (by apply revise_empty_domain). done. }
    apply IH; [done|lia].
Qed.

Lemma order_domain_values_empty var a st :
  domain st var = Some [] → order_domain_values cw var a st = Ok ([], st).
Proof.
  intros (l & Hl & Hws)%dom_Some. unfold order_domain_values.
  erewrite bind_Ok_l by (by apply domain_ref_Ok).
  by erewrite bind_Ok_l by (by apply read_Ok).
Qed.

Lemma filter_none {A} (P : A → Prop) `{∀ x, Decision (P x)} (l : list A) :
  Forall (λ x, ¬ P x) l → filter P l = [].
Proof.
  induction 1 as [|x l Hx Hl IH]; [done|]. by rewrite filter_cons_False.
Qed.

(** ** The properties of the specification *)

(** C1. In a well-formed puzzle every assignment the search returns solves
    the puzzle: it has a word for every variable, no word twice, and the
    words of every two overlapping variables agree at the recorded
    offsets.  This holds for [solve] on a creator that has just been built,
    and for [backtrack] started on any dict over the variables of the
    puzzle that is not already complete and inconsistent. *)
Theorem search_returns_solution :
  puzzle_ok →
  (∀ fuel a st',
     solve cw fuel (init_state cw) = Ok (Some a, st') → solution a)
  ∧ (∀ fuel a0 st a st',
       store_ok st → keys_ok a0 →
       (assignment_complete cw a0 = true →
          distinct_words a0 ∧ overlaps_agree a0) →
       backtrack cw fuel a0 st = Ok ((true, a), st') → solution a).
Proof.
  intros Hpuzzle. split.
  - intros fuel a st'. unfold solve. intros Hrun. inv_run.
    destruct init_state_ok as [Hok _].
    match goal with H : enforce_node_consistency _ _ = Ok (?u, _) |- _ =>
      destruct u;
      pose proof (enforce_node_consistency_shape _ _ Hok H) as [Hdn Hln] end.
    match goal with H : ac3 _ _ _ _ = Ok _ |- _ =>
      unfold ac3 in H;
      pose proof (ac3_loop_shape _ _ _ _ _ H) as [Hda Hla] end.
    match goal with H : backtrack _ _ _ _ = Ok (?r, _) |- _ =>
      destruct r as [[|] a']; inv_run;
      apply (backtrack_solution _ _ _ _ _ Hpuzzle) in H; [done|..] end.
    + eapply store_ok_same_shape; [exact Hok|congruence|lia].
    + intros v [w Hw]. by rewrite lookup_empty in Hw.
    + intros _. split.
      * intros v1 v2 w Hw. by rewrite lookup_empty in Hw.
      * intros x y px py wx wy _ _ _ _ Hw. by rewrite lookup_empty in Hw.
  - intros fuel a0 st a st'. by apply backtrack_solution.
Qed.

(** C4, as the code has it. When the arc (x, y) at the head of the queue is
    revised and the domain of [x] is left nonempty, the round ends with the
    rest of the queue followed by the arc (z, x) of every neighbour z of
    [x], and [ac3] goes on with that queue; the arc (y, x) is among the new
    arcs whenever [y] is a neighbour of [x]. *)
Theorem ac3_step_requeues x y rest st st' ws :
  revise cw x y st = Ok (true, st') → domain st' x = Some ws → ws ≠ [] →
  ac3_step cw ((x, y) :: rest) st
  = Ok (Continue (rest ++ map (λ z, (z, x)) (neighbors cw x)), st')
  ∧ (∀ fuel, ac3_loop cw (S fuel) ((x, y) :: rest) st
             = ac3_loop cw fuel
                 (rest ++ map (λ z, (z, x)) (neighbors cw x)) st')
  ∧ (y ∈ neighbors cw x → (y, x) ∈ map (λ z, (z, x)) (neighbors cw x)).
Proof.
  intros Hrev Hdom Hne.
  assert (ac3_step cw ((x, y) :: rest) st
          = Ok (Continue (rest ++ map (λ z, (z, x)) (neighbors cw x)), st'))
    as Hstep.
  { unfold ac3_step. rewrite list_remove_first_head. simpl.
    erewrite bind_Ok_l by done. unfold domain in Hdom.
    destruct (domains st' !! x) as [l|] eqn:Hl; simplify_eq/=.
    erewrite bind_Ok_l by (by apply domain_ref_Ok).
    erewrite bind_Ok_l by (by apply read_Ok).
    rewrite decide_False; [done|]. by destruct ws. }
  split_and!.
  - exact Hstep.
  - intros fuel. cbn [ac3_loop]. by erewrite bind_Ok_l by exact Hstep.
  - intros Hy. by apply (list_elem_of_fmap_2 (λ z, (z, x))).
Qed.

(** What [ac3] does guarantee about empty domains, on any store and any
    queue.  A run that returns [False] leaves some domain empty.  A run
    that returns [True] empties no domain: every domain that had a word
    when [ac3] was called has one when it returns.  A domain that was
    empty already is not noticed. *)
Lemma ac3_keeps_nonempty fuel arcs st b st' :
  ac3 cw fuel arcs st = Ok (b, st') →
  (b = false → ∃ x, domain st' x = Some [])
  ∧ (b = true →
       ∀ v ws, domain st v = Some ws → ws ≠ [] →
         ∃ ws', domain st' v = Some ws' ∧ ws' ≠ []).
Proof.
  intros Hrun.
  assert (∃ queue, ac3_loop cw fuel queue st = Ok (b, st')) as [queue Hloop].
  { destruct arcs as [queue|]; simpl in Hrun; eauto. }
  clear Hrun. revert fuel queue st b st' Hloop.
  apply (ac3_loop_ind (λ _ st b st',
    (b = false → ∃ x, domain st' x = Some [])
    ∧ (b = true →
         ∀ v ws, domain st v = Some ws → ws ≠ [] →
           ∃ ws', domain st' v = Some ws' ∧ ws' ≠ []))).
  - intros st. split; [done|]. intros _ v ws Hv Hne. by exists ws.
  - intros x y rest st b st' _ IH. exact IH.
  - intros x y rest st st' Hrev Hdom. split; [|done]. intros _. by exists x.
  - intros x y rest st st1 wsx b st' Hrev Hdom Hne [IHf IHt].
    split; [done|]. intros Hb v ws Hv Hws.
    assert (∃ ws1, domain st1 v = Some ws1 ∧ ws1 ≠ []) as (ws1 & Hv1 & Hws1).
    { destruct (revise_shape _ _ _ _ _ Hrev) as [Hd _].
      apply dom_Some in Hdom as (lx & Hlx & Hwsx). rewrite Hd in Hlx.
      apply dom_Some in Hv as (lv & Hlv & Hv).
      destruct (revise_shrunk _ _ _ _ _ _ Hlx Hrev) as (_ & _ & Hother & _).
      destruct (decide (lv = lx)) as [->|Hll].
      - exists wsx. split; [|done]. apply dom_Some. exists lx. by rewrite Hd.
      - exists ws. split; [|done]. apply dom_Some. exists lv.
        rewrite Hd, Hother by done. done. }
    by eapply IHt.
Qed.

(** C6. For two distinct variables of the puzzle on a well-formed store:
    on a node-consistent store of a puzzle whose offsets are in range the
    call returns.  Whenever it returns: without an overlap it returns
    [False] and changes nothing; with an overlap (px, py) it has left in
    the domain of [x] exactly the words for which some word of the domain
    of [y] agrees at the offsets, the domain of [y] is as it was, and the
    result is [True] exactly when the domain of [x] has lost a word. *)
Theorem revise_spec st x y :
  store_ok st → x ∈ variables cw → y ∈ variables cw → x ≠ y →
  (offsets_ok → node_consistent st →
     ∃ b st', revise cw x y st = Ok (b, st'))
  ∧ ∀ b st', revise cw x y st = Ok (b, st') →
      match overlaps cw x y with
      | None => b = false ∧ st' = st
      | Some (px, py) =>
          ∃ xs ys, domain st x = Some xs ∧ domain st y = Some ys
            ∧ domain st' y = Some ys
            ∧ domain st' x = Some (filter (supported px py ys) xs)
            ∧ (b = true ↔
                 length (filter (supported px py ys) xs) < length xs)
      end.
Proof.
  intros Hok Hxin Hyin Hne. split.
  { intros Hoff Hnode. by apply revise_run. }
  intros b st' Hrun.
  pose proof Hok as (Halloc & Hinj & Hcov)%store_ok_iff.
  destruct (Hcov x Hxin) as [lx Hx]. destruct (Hcov y Hyin) as [ly Hy].
  destruct (lookup_lt_is_Some_2 (heap st) lx) as [xs Hxs]; [by eapply Halloc|].
  destruct (lookup_lt_is_Some_2 (heap st) ly) as [ys Hys]; [by eapply Halloc|].
  assert (lx ≠ ly) as Hll by (intros ->; apply Hne; by eapply Hinj).
  pose proof (revise_Ok x y lx ly xs ys st b st' Hx Hy Hll Hxs Hys Hrun) as Hspec.
  destruct (overlaps cw x y) as [[px py]|].
  - destruct Hspec as [-> Hb]. exists xs, ys. unfold domain. simpl.
    rewrite Hx, Hy. simpl. split_and!; try done.
    + by rewrite list_lookup_insert_ne.
    + by eapply lookup_insert_heap.
    + by rewrite filter_length_lt.
  - destruct Hspec as [-> ->]. done.
Qed.

(** C7. On a well-formed store [enforce_node_consistency] returns; afterwards
    every word left in the domain of a variable of the puzzle has exactly
    the variable's length, and every word of that length which was in the
    domain is still there: the domain is the old one filtered by length,
    order and multiplicity kept. *)
Theorem enforce_node_consistency_spec st :
  store_ok st →
  ∃ st', enforce_node_consistency cw st = Ok (tt, st')
    ∧ ∀ var, var ∈ variables cw →
        ∃ old new, domain st var = Some old ∧ domain st' var = Some new
          ∧ new = filter (λ w, String.length w = var_length var) old
          ∧ (∀ w, w ∈ new → String.length w = var_length var)
          ∧ (∀ w, w ∈ old → String.length w = var_length var → w ∈ new).
Proof.
  intros Hok.
  destruct (enforce_node_consistency_run st Hok)
    as (st' & Hrun & Hdom & Hlen & Hin & Hout).
  exists st'. split; [done|]. intros var Hvar.
  apply store_ok_iff in Hok as (Halloc & Hinj & Hcov).
  destruct (Hcov var Hvar) as [l Hl].
  destruct (lookup_lt_is_Some_2 (heap st) l) as [old Hold]; [by eapply Halloc|].
  assert (domain st var = Some old) as Hdomv by (unfold domain; by rewrite Hl).
  exists old, (filter (node_ok var) old). split_and!.
  - done.
  - by rewrite (Hin var Hvar), Hdomv.
  - done.
  - intros w Hw. by apply list_elem_of_filter in Hw as [? _].
  - intros w Hw Hlenw. by apply list_elem_of_filter.
Qed.

(** C8. On a node-consistent, well-formed store of a well-formed puzzle
    whose offsets are in range, [order_domain_values] returns for every
    variable of the puzzle.  Whenever it returns, it has left the store
    alone and the result holds the words of the domain of [var], each as
    often as the domain has it, in ascending order of the number of words
    they rule out among the neighbours without a word; words that rule out
    the same number keep the order they have in the domain. *)
Theorem order_domain_values_spec var assignment st :
  (puzzle_ok → offsets_ok → store_ok st → node_consistent st →
   var ∈ variables cw →
   ∃ result, order_domain_values cw var assignment st = Ok (result, st))
  ∧ ∀ result st',
      order_domain_values cw var assignment st = Ok (result, st') →
      st' = st
      ∧ ∃ domain_words, domain st var = Some domain_words
          ∧ result ≡ₚ domain_words
          ∧ StronglySorted
              (λ w1 w2, eliminated st var assignment w1
                        ≤ eliminated st var assignment w2) result
          ∧ ∀ k, filter (λ w, eliminated st var assignment w = k) result
                 = filter (λ w, eliminated st var assignment w = k)
                          domain_words.
Proof.
  split.
  { intros. by apply order_domain_values_run. }
  intros result st' (-> & ws & Hws & ->)%order_domain_values_Ok.
  split; [done|]. exists ws. split_and!.
  - done.
  - apply sorted_by_key_perm.
  - apply sorted_by_key_sorted.
  - intros k. apply sorted_by_key_stable.
Qed.

(** C9, as the code has it. In a puzzle with at least one variable whose
    vocabulary has no word of the length of any variable, node consistency
    empties the domain of every variable, and [solve], given fuel for one
    round per arc, returns [None]. *)
Theorem solve_no_fitting_word fuel :
  variables cw ≠ [] →
  (∀ v w, v ∈ variables cw → w ∈ words cw → String.length w ≠ var_length v) →
  length (all_arcs cw) < fuel →
  ∃ st, enforce_node_consistency cw (init_state cw) = Ok (tt, st)
    ∧ (∀ v, v ∈ variables cw → domain st v = Some [])
    ∧ solve cw fuel (init_state cw) = Ok (None, st).
Proof.
  intros Hvars Hwords Hfuel.
  destruct init_state_ok as [Hok Hinit].
  destruct (enforce_node_consistency_run _ Hok) as (st & Hnode & _ & _ & Hin & _).
  assert (∀ v, v ∈ variables cw → domain st v = Some []) as Hempty.
  { intros v Hv. rewrite (Hin v Hv), (Hinit v Hv). simpl. f_equal.
    apply filter_none, Forall_forall. intros w Hw. by apply Hwords. }
  exists st. split_and!; [done..|]. unfold solve.
  erewrite bind_Ok_l by exact Hnode.
  erewrite bind_Ok_l; last first.
  { apply ac3_loop_empty_domains; [|done].
    eapply Forall_impl; [apply all_arcs_variables|]. intros arc. apply Hempty. }
  destruct fuel as [|fuel]; [lia|]. cbn [backtrack].
  assert (assignment_complete cw ∅ = false) as Hincomplete.
  { unfold assignment_complete. apply bool_decide_eq_false.
    rewrite map_size_empty. by destruct (variables cw). }
  rewrite Hincomplete.
  destruct (select_unassigned_variable_run ∅ st Hincomplete) as [v Hsel].
  { intros v Hv. rewrite (Hempty v Hv). by eexists. }
  { destruct (variables cw) as [|v vs]; [done|].
    by rewrite filter_cons_True by apply lookup_empty. }
  pose proof Hsel as [_ Hv]%select_unassigned_variable_Ok.
  destruct (Hv v eq_refl) as [Hvin _].
  erewrite bind_Ok_l; last first.
  { erewrite bind_Ok_l by exact Hsel. cbv beta iota.
    erewrite bind_Ok_l by (apply order_domain_values_empty; by apply Hempty).
    done. }
  done.
Qed.

(** C10. A call of [revise] that returns leaves the dict alone and leaves
    the domain of every variable other than [x] as it was; the domain of
    [x] can only have lost words. *)
Theorem revise_frame st x y b st' :
  store_ok st →
  revise cw x y st = Ok (b, st') →
  domains st' = domains st
  ∧ (∀ z, z ≠ x → domain st' z = domain st z)
  ∧ (∀ xs, domain st x = Some xs →
       ∃ xs', domain st' x = Some xs' ∧ xs' `sublist_of` xs).
Proof.
  intros (Halloc & Hinj & Hcov)%store_ok_iff Hrun.
  destruct (domains st !! x) as [lx|] eqn:Hx.
  - destruct (revise_shrunk _ _ _ _ _ _ Hx Hrun) as (Hd & Hlen & Hother & Hsub).
    split_and!; [done| |].
    + intros z Hz. unfold domain. rewrite Hd.
      destruct (domains st !! z) as [lz|] eqn:Hlz; simpl; [|done].
      apply Hother. intros ->. apply Hz. by eapply Hinj.
    + intros xs. unfold domain. rewrite Hd, Hx. simpl. apply Hsub.
  - assert (st' = st) as ->.
    { unfold revise in Hrun. destruct (overlaps cw x y) as [[px py]|]; inv_run.
      - congruence.
      - done. }
    split_and!; try done. intros xs Hxs. by exists xs.
Qed.

End Properties.

(** * The examples *)

(** C4, counterexample. From the initial store of [cw_pets] the first round
    of [ac3] revises (x0, y0), keeps "CAT" in the domain of [x0], and
    queues (y0, x0) once more, although [y0] is the very neighbour the arc
    was revised against: leaving [y0] out would queue nothing. *)
Lemma ac3_requeues_reverse_arc :
  ∃ st' queue,
    revise cw_pets x0 y0 (init_state cw_pets) = Ok (true, st')
    ∧ domain st' x0 = Some ["CAT"]
    ∧ ac3_step cw_pets [(x0, y0); (y0, x0)] (init_state cw_pets)
      = Ok (Continue queue, st')
    ∧ queue = [(y0, x0)] ++ [(y0, x0)]
    ∧ queue ≠ [(y0, x0)]
              ++ map (λ z, (z, x0))
                     (filter (λ z, z ≠ y0) (neighbors cw_pets x0)).
Proof.
  eexists _, _. split_and!; [vm_compute; reflexivity..|].
  vm_compute. discriminate.
Qed.

(** C5, the defect. With a vocabulary of words of the wrong lengths, node
    consistency empties both domains.  The call of [ac3] that [solve] makes
    next revises nothing and returns [True], although its docstring says
    that it returns [False] if one or more domains end up empty. *)
Lemma ac3_true_with_empty_domain :
  ∃ st st',
    enforce_node_consistency cw_short (init_state cw_short) = Ok (tt, st)
    ∧ ac3 cw_short 3 None st = Ok (true, st')
    ∧ domain st' x0 = Some []
    ∧ domain st' y0 = Some [].
Proof. eexists _, _. split_and!; vm_compute; reflexivity. Qed.

(** C2, the defect. After the propagation of [solve] on [cw_zoo] the domain
    of [y0] holds "TOE" and "GNU".  The call [consistent({x0: "CAT"})] that
    [backtrack] makes first returns [True] and hands back the old dict, but
    the container of [y0] is shared with it and has lost "GNU". *)
Lemma consistent_leaks_pruning :
  domain (propagated cw_zoo 10) y0 = Some ["TOE"; "GNU"]
  ∧ ∃ st', consistent cw_zoo 10 {[ x0 := "CAT" ]} (propagated cw_zoo 10)
           = Ok (true, st')
      ∧ domains st' = domains (propagated cw_zoo 10)
      ∧ domain st' y0 = Some ["TOE"].
Proof. split; [|eexists; split_and!]; vm_compute; reflexivity. Qed.

(** C3, the defect. In [cw_rows] the search picks [p0], tries "CAT", and
    fails one level down, where "CAT" is the only candidate for [q0] and is
    taken.  Both calls return [None], and the dict they were given still
    holds the words they tried. *)
Lemma backtrack_failure_leaves_entries :
  select_unassigned_variable cw_rows ∅ (propagated cw_rows 10)
  = Ok (Some p0, propagated cw_rows 10)
  ∧ ∃ a' st', backtrack cw_rows 10 ∅ (propagated cw_rows 10)
              = Ok ((false, a'), st')
      ∧ a' !! p0 = Some "CAT" ∧ a' !! q0 = Some "CAT".
Proof. split; [|eexists _, _; split_and!]; vm_compute; reflexivity. Qed.

(** The harm of the shared dict.  [cw_tees] has a solution, yet [solve]
    returns [None]: once the branch [a1] = "SIT" has failed, the words tried
    for [b1] and [c1] (both "CAT") are still in the dict, and the check of
    [a1] = "SUN" fails on them. *)
Lemma search_misses_solution :
  solution cw_tees tees_solution
  ∧ ∃ st', solve cw_tees 20 (init_state cw_tees) = Ok (None, st').
Proof.
  split; [|eexists; vm_compute; reflexivity].
  assert (puzzle_ok cw_tees) as Hpuzzle by compute_done.
  assert (store_ok cw_tees (init_state cw_tees)) as Hok by compute_done.
  split.
  - unfold covers_all. apply Forall_forall. compute_done.
  - eapply (consistent_Ok cw_tees 20 tees_solution); [exact Hok| |done|done].
    vm_compute. reflexivity.
Qed.

(** C9, counterexample. A grid without a slot satisfies the condition on
    the vocabulary, and [solve] returns the empty assignment, not [None]. *)
Lemma solve_blank_puzzle :
  (∀ v w, v ∈ variables cw_blank → w ∈ words cw_blank →
          String.length w ≠ var_length v)
  ∧ ∃ st', solve cw_blank 1 (init_state cw_blank) = Ok (Some ∅, st').
Proof.
  split.
  - intros v w Hv. by apply elem_of_nil in Hv.
  - eexists. vm_compute. reflexivity.
Qed.

(** ** The theorems at work on the examples *)

(** C1 on [cw_pets]: the assignment [solve] returns solves the puzzle. *)
Lemma search_returns_solution_witness :
  puzzle_ok cw_pets ∧ solution cw_pets pets_solution.
Proof.
  assert (puzzle_ok cw_pets) as Hpuzzle by compute_done.
  split; [exact Hpuzzle|].
  apply (proj1 (search_returns_solution cw_pets Hpuzzle) 10 pets_solution
           (final_state (solve cw_pets 10 (init_state cw_pets)))).
  vm_compute. reflexivity.
Defined.

(** C7 on [cw_mixed], whose vocabulary has words of three lengths. *)
Lemma enforce_node_consistency_spec_witness :
  store_ok cw_mixed (init_state cw_mixed)
  ∧ ∃ st', enforce_node_consistency cw_mixed (init_state cw_mixed) = Ok (tt, st')
      ∧ ∀ var, var ∈ variables cw_mixed →
          ∃ old new, domain (init_state cw_mixed) var = Some old
            ∧ domain st' var = Some new
            ∧ new = filter (λ w, String.length w = var_length var) old
            ∧ (∀ w, w ∈ new → String.length w = var_length var)
            ∧ (∀ w, w ∈ old → String.length w = var_length var → w ∈ new).
Proof.
  assert (store_ok cw_mixed (init_state cw_mixed)) as Hok by compute_done.
  split; [exact Hok|]. exact (enforce_node_consistency_spec cw_mixed _ Hok).
Defined.

(** C4 on the first round of [ac3] in [cw_pets]. *)
Lemma ac3_step_requeues_witness :
  ac3_step cw_pets [(x0, y0); (y0, x0)] (init_state cw_pets)
  = Ok (Continue ([(y0, x0)] ++ map (λ z, (z, x0)) (neighbors cw_pets x0)),
        pets_revised)
  ∧ (∀ fuel, ac3_loop cw_pets (S fuel) [(x0, y0); (y0, x0)] (init_state cw_pets)
             = ac3_loop cw_pets fuel
                 ([(y0, x0)] ++ map (λ z, (z, x0)) (neighbors cw_pets x0))
                 pets_revised)
  ∧ (y0 ∈ neighbors cw_pets x0 →
       (y0, x0) ∈ map (λ z, (z, x0)) (neighbors cw_pets x0)).
Proof.
  assert (revise cw_pets x0 y0 (init_state cw_pets) = Ok (true, pets_revised))
    as Hrev by (vm_compute; reflexivity).
  assert (domain pets_revised x0 = Some ["CAT"]) as Hdom
    by (vm_compute; reflexivity).
  apply (ac3_step_requeues cw_pets x0 y0 [(y0, x0)] _ _ ["CAT"] Hrev Hdom).
  discriminate.
Defined.

(** C6 on the arc (x0, y0) of [cw_pets], which loses "TOE" and "DOG". *)
Lemma revise_spec_witness :
  (∃ b st', revise cw_pets x0 y0 (init_state cw_pets) = Ok (b, st'))
  ∧ match overlaps cw_pets x0 y0 with
    | None => true = false ∧ pets_revised = init_state cw_pets
    | Some (px, py) =>
        ∃ xs ys, domain (init_state cw_pets) x0 = Some xs
          ∧ domain (init_state cw_pets) y0 = Some ys
          ∧ domain pets_revised y0 = Some ys
          ∧ domain pets_revised x0 = Some (filter (supported px py ys) xs)
          ∧ (true = true ↔ length (filter (supported px py ys) xs) < length xs)
    end.
Proof.
  assert (store_ok cw_pets (init_state cw_pets)) as Hok by compute_done.
  assert (x0 ∈ variables cw_pets) as Hx by compute_done.
  assert (y0 ∈ variables cw_pets) as Hy by compute_done.
  assert (x0 ≠ y0) as Hne by compute_done.
  destruct (revise_spec cw_pets (init_state cw_pets) x0 y0 Hok Hx Hy Hne)
    as [Hreturns Hright].
  split.
  - apply Hreturns; compute_done.
  - apply (Hright true pets_revised). vm_compute. reflexivity.
Defined.

(** C10 on the same call of [revise]. *)
Lemma revise_frame_witness :
  store_ok cw_pets (init_state cw_pets)
  ∧ domains pets_revised = domains (init_state cw_pets)
  ∧ (∀ z, z ≠ x0 → domain pets_revised z = domain (init_state cw_pets) z)
  ∧ (∀ xs, domain (init_state cw_pets) x0 = Some xs →
       ∃ xs', domain pets_revised x0 = Some xs' ∧ xs' `sublist_of` xs).
Proof.
  assert (store_ok cw_pets (init_state cw_pets)) as Hok by compute_done.
  split; [exact Hok|].
  apply (revise_frame cw_pets (init_state cw_pets) x0 y0 true pets_revised Hok).
  vm_compute. reflexivity.
Defined.

(** C8 on [cw_zoo]: "CAT" and "DOG" rule out three words each, "TOE" and
    "GNU" four, and both pairs keep their order. *)
Lemma order_domain_values_spec_witness :
  (∃ result, order_domain_values cw_zoo x0 ∅ (init_state cw_zoo)
             = Ok (result, init_state cw_zoo))
  ∧ ∃ domain_words, domain (init_state cw_zoo) x0 = Some domain_words
      ∧ ["CAT"; "DOG"; "TOE"; "GNU"] ≡ₚ domain_words
      ∧ StronglySorted
          (λ w1 w2, eliminated cw_zoo (init_state cw_zoo) x0 ∅ w1
                    ≤ eliminated cw_zoo (init_state cw_zoo) x0 ∅ w2)
          ["CAT"; "DOG"; "TOE"; "GNU"]
      ∧ ∀ k, filter (λ w, eliminated cw_zoo (init_state cw_zoo) x0 ∅ w = k)
                    ["CAT"; "DOG"; "TOE"; "GNU"]
             = filter (λ w, eliminated cw_zoo (init_state cw_zoo) x0 ∅ w = k)
                      domain_words.
Proof.
  destruct (order_domain_values_spec cw_zoo x0 ∅ (init_state cw_zoo))
    as [Hreturns Hright].
  split.
  - apply Hreturns; compute_done.
  - apply (Hright ["CAT"; "DOG"; "TOE"; "GNU"] (init_state cw_zoo)).
    vm_compute. reflexivity.
Defined.

(** C9 on [cw_short], whose words have two and four letters. *)
Lemma solve_no_fitting_word_witness :
  variables cw_short ≠ []
  ∧ ∃ st, enforce_node_consistency cw_short (init_state cw_short) = Ok (tt, st)
      ∧ (∀ v, v ∈ variables cw_short → domain st v = Some [])
      ∧ solve cw_short 3 (init_state cw_short) = Ok (None, st).
Proof.
  split; [discriminate|].
  apply (solve_no_fitting_word cw_short 3).
  - discriminate.
  - intros v w Hv Hw. revert w Hw. apply Forall_forall.
    revert v Hv. apply Forall_forall. compute_done.
  - vm_compute. lia.
Defined.

(** * Further properties

    Properties of the code beyond the specification: the checks on
    assignments, the variable and value heuristics, what the pruning
    and the search leave behind, their termination, and the letter
    grid. *)

Section Further.
Context (cw : Crossword).

(** Inversion of a run that returned. *)
Ltac inv_ok :=
  repeat match goal with
  | H : (_ ≫= _) _ = Ok _ |- _ =>
      let a := fresh "a" in let st := fresh "st" in let Ha := fresh "Hrun" in
      apply bind_Ok in H as (a & st & Ha & H)
  | H : @mret M _ _ _ _ = Ok _ |- _ => apply mret_Ok in H; simplify_eq
  | H : domain_ref _ _ = Ok _ |- _ =>
      apply domain_ref_Ok in H as [H ?]; subst
  | H : read _ _ = Ok _ |- _ => apply read_Ok in H as [H ?]; subst
  | H : char_at _ _ _ = Ok _ |- _ => apply char_at_Ok in H as [H ?]; subst
  | H : get_domains _ = Ok _ |- _ => apply get_domains_Ok in H as [? ?]; subst
  | H : copy_domains _ = Ok _ |- _ => apply copy_domains_Ok in H as [? ?]; subst
  | H : set_domains _ _ = Ok _ |- _ => apply set_domains_Ok in H; subst
  | H : raise _ _ = Ok _ |- _ => by inversion H
  | H : out_of_fuel _ = Ok _ |- _ => by inversion H
  | H : Raise _ = Ok _ |- _ => by inversion H
  | H : OutOfFuel = Ok _ |- _ => by inversion H
  end.

(** ** Runs that raise, and characters of a word *)

Lemma bind_Raise {A B} (m : M A) (f : A → M B) st e :
  m st = Raise e → (m ≫= f) st = Raise e.
Proof. unfold mbind, M_bind, bind. by intros ->. Qed.

Lemma get_lt w k : is_Some (String.get k w) ↔ k < String.length w.
Proof.
  revert k. induction w as [|a w IH]; intros k; simpl.
  - split; [by intros [??]|lia].
  - destruct k as [|k]; simpl.
    + split; [lia|by eauto].
    + rewrite IH. lia.
Qed.

(** ** Duplicate words *)

Lemma count_value_filter (a : Assignment) w :
  count_value a w = length (filter (λ p, p.2 = w) (map_to_list a)).
Proof.
  unfold count_value. generalize (map_to_list a). intros l.
  induction l as [|[v' w'] l IH]; [done|].
  rewrite fmap_cons, !filter_cons. simpl.
  case_decide; simpl; by rewrite IH.
Qed.

(** X1. [assignment_has_duplicates] returns [True] exactly when two
    different variables of the dict have the same word. *)
Theorem assignment_has_duplicates_iff (a : Assignment) :
  assignment_has_duplicates a = true
  ↔ ∃ v1 v2 w, v1 ≠ v2 ∧ a !! v1 = Some w ∧ a !! v2 = Some w.
Proof.
  split.
  - unfold assignment_has_duplicates. intros Hex.
    apply existsb_exists in Hex as ([v w] & _ & Hcount).
    apply bool_decide_eq_true in Hcount. rewrite count_value_filter in Hcount.
    assert (NoDup (filter (λ p : Var * string, p.2 = w) (map_to_list a))) as Hnd
      by apply NoDup_filter, NoDup_map_to_list.
    destruct (filter (λ p : Var * string, p.2 = w) (map_to_list a))
      as [|[v1 w1] [|[v2 w2] l]] eqn:Hf; simpl in Hcount; [lia..|].
    assert ((v1, w1) ∈ filter (λ p : Var * string, p.2 = w) (map_to_list a)) as H1
      by (rewrite Hf; left).
    assert ((v2, w2) ∈ filter (λ p : Var * string, p.2 = w) (map_to_list a)) as H2
      by (rewrite Hf; right; left).
    apply list_elem_of_filter in H1 as [E1 H1], H2 as [E2 H2]. simpl in *. subst.
    apply elem_of_map_to_list in H1, H2.
    exists v1, v2, w. split_and!; [|done..].
    intros ->. apply NoDup_cons in Hnd as [Hnot _]. apply Hnot. left.
  - intros (v1 & v2 & w & Hne & H1 & H2).
    destruct (assignment_has_duplicates a) eqn:Hd; [done|].
    apply assignment_has_duplicates_false in Hd. exfalso. apply Hne. by eapply Hd.
Qed.

(** ** Empty domains *)

Lemma has_empty_loop_true vars : ∀ st st',
  has_empty_loop vars st = Ok (true, st') →
  ∃ v, v ∈ vars ∧ domain st v = Some [].
Proof.
  induction vars as [|var vars IH]; intros st st' Hrun;
    cbn [has_empty_loop] in Hrun.
  - inv_ok; done.
  - inv_ok. case_decide as Hlen.
    + inv_ok. exists var. split; [by left|]. apply dom_Some.
      apply nil_length_inv in Hlen. subst. eauto.
    + destruct (IH _ _ Hrun) as (v & Hv & Hdom). exists v.
      split; [by right|done].
Qed.

Lemma has_empty_loop_run vars st :
  (∀ v, v ∈ vars → is_Some (domain st v)) →
  ∃ b, has_empty_loop vars st = Ok (b, st).
Proof.
  induction vars as [|var vars IH]; intros Hdom; cbn [has_empty_loop].
  - by eexists.
  - destruct (Hdom var) as [ws (l & Hl & Hws)%dom_Some]; [by left|].
    erewrite bind_Ok_l by (by apply domain_ref_Ok).
    erewrite bind_Ok_l by (by apply read_Ok).
    case_decide; [by eexists|]. apply IH. intros v Hv. apply Hdom. by right.
Qed.

(** X2. On a well-formed store [has_empty_domains] returns and leaves the
    store as it is; it answers [True] exactly when some variable has an
    empty domain. *)
Theorem has_empty_domains_spec st :
  store_ok cw st →
  ∃ b, has_empty_domains st = Ok (b, st)
    ∧ (b = true ↔ ∃ v, domain st v = Some []).
Proof.
  intros (Halloc & _ & _)%store_ok_iff.
  destruct (has_empty_loop_run (map_to_list (domains st)).*1 st) as [b Hb].
  { intros v ([v' l] & -> & Hin%elem_of_map_to_list)%list_elem_of_fmap. simpl.
    destruct (lookup_lt_is_Some_2 (heap st) l) as [ws Hws]; [by eapply Halloc|].
    exists ws. apply dom_Some. eauto. }
  exists b. split.
  - unfold has_empty_domains. by erewrite bind_Ok_l by (by apply get_domains_Ok).
  - split.
    + intros ->. destruct (has_empty_loop_true _ _ _ Hb) as (v & _ & Hv).
      by exists v.
    + intros (v & Hv). destruct b; [done|]. exfalso.
      pose proof Hv as (l & Hl & _)%dom_Some.
      destruct (has_empty_loop_Ok _ _ _ _ Hb) as [_ Hall].
      destruct (Hall eq_refl v) as (ws & Hws & Hne).
      { apply list_elem_of_fmap. exists (v, l). split; [done|].
        by apply elem_of_map_to_list. }
      congruence.
Qed.

(** ** Complete assignments *)

(** X3. When the variables of the puzzle are pairwise different and every
    key of the dict is one of them, [assignment_complete] returns [True]
    exactly when every variable has a word. *)
Theorem assignment_complete_iff (a : Assignment) :
  NoDup (variables cw) → keys_ok cw a →
  (assignment_complete cw a = true ↔ covers_all cw a).
Proof.
  intros Hnd Hkeys. split; [by apply complete_covers_all|].
  intros Hcov. unfold assignment_complete. apply bool_decide_eq_true.
  assert (dom a = list_to_set (variables cw)) as Hdom.
  { apply set_eq. intros v. rewrite elem_of_dom, elem_of_list_to_set.
    split; [apply Hkeys|apply Hcov]. }
  by rewrite <- size_dom, Hdom, size_list_to_set.
Qed.

(** ** The variable the search works on next *)

Lemma domain_len_size var st n st' :
  domain_len var st = Ok (n, st') →
  st' = st ∧ n = domain_size st var ∧ is_Some (domain st var).
Proof.
  intros (-> & ws & Hws & ->)%domain_len_Ok. unfold domain_size.
  rewrite Hws. by split_and!.
Qed.

(** Once a first variable has been seen, the first loop keeps the variables
    of least domain size seen so far, in the order they were met. *)
Lemma smallest_domain_loop_min vs : ∀ seen m vars st r st',
  vars = filter (λ u, domain_size st u = m) seen →
  vars ≠ [] →
  (∀ u, u ∈ seen → m ≤ domain_size st u) →
  smallest_domain_loop vs (Some m) vars st = Ok (r, st') →
  st' = st
  ∧ (∀ u, u ∈ vs → is_Some (domain st u))
  ∧ ∃ m', r = filter (λ u, domain_size st u = m') (seen ++ vs)
      ∧ r ≠ []
      ∧ ∀ u, u ∈ seen ++ vs → m' ≤ domain_size st u.
Proof.
  induction vs as [|var vs IH]; intros seen m vars st r st' Hvars Hne Hmin Hrun;
    cbn [smallest_domain_loop] in Hrun.
  - inv_ok. split; [done|]. split; [by intros u Hu%elem_of_nil|].
    exists m. rewrite app_nil_r. by split_and!.
  - inv_ok.
    match goal with H : domain_len _ _ = _ |- _ =>
      apply domain_len_size in H as (-> & -> & Hsome) end.
    assert (seen ++ var :: vs = (seen ++ [var]) ++ vs) as Happ
      by (by rewrite <- app_assoc).
    repeat case_decide.
    + eapply (IH (seen ++ [var])) in Hrun as (-> & Hsomes & m' & -> & Hr & Hall).
      * split; [done|]. split.
        { intros u [->|Hu]%elem_of_cons; [done|by apply Hsomes]. }
        exists m'. rewrite Happ. by split_and!.
      * rewrite filter_app, filter_cons_True, filter_nil by done.
        rewrite (filter_none _ seen); [done|].
        apply Forall_forall. intros u Hu. specialize (Hmin u Hu). lia.
      * done.
      * intros u [Hu|Hu%list_elem_of_singleton]%elem_of_app; [|by subst].
        specialize (Hmin u Hu). lia.
    + eapply (IH (seen ++ [var])) in Hrun as (-> & Hsomes & m' & -> & Hr & Hall).
      * split; [done|]. split.
        { intros u [->|Hu]%elem_of_cons; [done|by apply Hsomes]. }
        exists m'. rewrite Happ. by split_and!.
      * rewrite filter_app, filter_cons_True, filter_nil by done. by subst.
      * by destruct vars.
      * intros u [Hu|Hu%list_elem_of_singleton]%elem_of_app; [by apply Hmin|subst; lia].
    + eapply (IH (seen ++ [var])) in Hrun as (-> & Hsomes & m' & -> & Hr & Hall).
      * split; [done|]. split.
        { intros u [->|Hu]%elem_of_cons; [done|by apply Hsomes]. }
        exists m'. rewrite Happ. by split_and!.
      * rewrite filter_app, filter_cons_False, filter_nil, app_nil_r by done.
        done.
      * done.
      * intros u [Hu|Hu%list_elem_of_singleton]%elem_of_app; [by apply Hmin|subst; lia].
Qed.

Lemma highest_degree_loop_max vs : ∀ h v,
  highest_degree_loop cw vs (Some h) = Some v →
  (v = h ∨ v ∈ vs) ∧ degree cw h ≤ degree cw v
  ∧ ∀ u, u ∈ vs → degree cw u ≤ degree cw v.
Proof.
  unfold degree.
  induction vs as [|var vs IH]; intros h v Hv; simpl in Hv.
  - simplify_eq. split_and!; [by left|done|]. by intros u Hu%elem_of_nil.
  - case_decide as Hlt; apply IH in Hv as (Hin & Hh & Hall).
    + split_and!.
      * right. destruct Hin as [->|?]; [by left|by right].
      * lia.
      * intros u [->|Hu]%elem_of_cons; [done|by apply Hall].
    + split_and!.
      * destruct Hin as [->|?]; [by left|right; by right].
      * done.
      * intros u [->|Hu]%elem_of_cons; [lia|by apply Hall].
Qed.

(** X4. A variable returned by [select_unassigned_variable] has no word in
    the assignment; no variable without a word has a smaller domain, and
    none with a domain of the same size has more neighbours.  The store is
    left as it is. *)
Theorem select_unassigned_variable_spec a st v st' :
  select_unassigned_variable cw a st = Ok (Some v, st') →
  st' = st
  ∧ v ∈ unassigned cw a
  ∧ ∀ u, u ∈ unassigned cw a →
      is_Some (domain st u)
      ∧ domain_size st v ≤ domain_size st u
      ∧ (domain_size st u = domain_size st v → degree cw u ≤ degree cw v).
Proof.
  unfold select_unassigned_variable, unassigned.
  destruct (assignment_complete cw a); [intros Hrun; inv_ok; done|].
  intros Hrun. inv_ok.
  destruct (filter (λ var, a !! var = None) (variables cw)) as [|var vs] eqn:Hun.
  { cbn [smallest_domain_loop] in *. inv_ok; done. }
  match goal with H : smallest_domain_loop _ _ _ _ = _ |- _ =>
    cbn [smallest_domain_loop] in H; rename H into Hloop end.
  inv_ok.
  match goal with H : domain_len _ _ = _ |- _ =>
    apply domain_len_size in H as (-> & -> & Hsome) end.
  apply (smallest_domain_loop_min vs [var]) in Hloop
    as (-> & Hsomes & m & Hr & Hne & Hall); [|by rewrite filter_cons_True|done|];
    last first.
  { intros u Hu%list_elem_of_singleton. by subst. }
  simpl in Hr, Hall.
  assert (st' = st ∧ v ∈ a0 ∧ ∀ u, u ∈ a0 → degree cw u ≤ degree cw v)
    as (-> & Hv & Hdeg).
  { destruct a0 as [|v1 [|v2 rest]]; [done| |]; inv_ok; (split; [done|]).
    - split; [by left|]. intros u Hu%list_elem_of_singleton. subst. lia.
    - change (highest_degree_loop cw (v1 :: v2 :: rest) None)
        with (highest_degree_loop cw (v2 :: rest) (Some v1)) in *.
      match goal with H : Some v = _ |- _ => symmetry in H;
        apply highest_degree_loop_max in H as (Hin & Hh & Hmax) end.
      split.
      + destruct Hin as [->|?]; [by left|by right].
      + intros u [->|Hu]%elem_of_cons; [lia|by apply Hmax]. }
  split; [done|]. rewrite Hr in Hv. apply list_elem_of_filter in Hv as [Hsize Hv].
  split; [done|]. intros u Hu. split_and!.
  - apply elem_of_cons in Hu as [->|Hu]; [done|by apply Hsomes].
  - rewrite Hsize. by apply Hall.
  - intros Heq. apply Hdeg. rewrite Hr. apply list_elem_of_filter. split; [|done].
    congruence.
Qed.

(** X5. When every variable has a domain, [select_unassigned_variable]
    returns and leaves the store as it is; it returns [None] exactly when
    the dict counts as complete or no variable is left without a word. *)
Theorem select_unassigned_variable_none a st :
  (∀ v, v ∈ variables cw → is_Some (domain st v)) →
  ∃ r, select_unassigned_variable cw a st = Ok (r, st)
    ∧ (r = None ↔ assignment_complete cw a = true ∨ unassigned cw a = []).
Proof.
  intros Hdom. destruct (assignment_complete cw a) eqn:Hcomplete.
  { exists None. unfold select_unassigned_variable. rewrite Hcomplete.
    split; [done|]. split; [by left|done]. }
  destruct (unassigned cw a) as [|u us] eqn:Hun.
  - exists None. unfold select_unassigned_variable. rewrite Hcomplete.
    unfold unassigned in Hun. rewrite Hun. split; [done|].
    split; [by right|done].
  - destruct (select_unassigned_variable_run cw a st Hcomplete Hdom) as [v Hv].
    { unfold unassigned in Hun. by rewrite Hun. }
    exists (Some v). split; [done|]. split; [done|]. by intros [?|?].
Qed.

(** ** Ordering without open neighbours *)

Lemma sorted_by_key_const {A} (key : A → nat) (c : nat) (l : list A) :
  Forall (λ x, key x = c) l → sorted_by_key key l = l.
Proof.
  induction 1 as [|x l Hx Hl IH]; simpl; [done|].
  fold (sorted_by_key key l). rewrite IH.
  destruct Hl as [|y l Hy Hl]; simpl; [done|].
  rewrite decide_True; [done|lia].
Qed.

(** X6. When every neighbour of [var] has a word in the assignment,
    [order_domain_values] returns the domain of [var] in the order it has
    in the store, and leaves the store as it is. *)
Theorem order_domain_values_all_assigned var a st ws :
  domain st var = Some ws →
  (∀ n, n ∈ neighbors cw var → is_Some (a !! n)) →
  order_domain_values cw var a st = Ok (ws, st).
Proof.
  intros (l & Hl & Hws)%dom_Some Hassigned. unfold order_domain_values.
  erewrite bind_Ok_l by (by apply domain_ref_Ok).
  erewrite bind_Ok_l by (by apply read_Ok).
  assert (filter (λ n, a !! n = None) (neighbors cw var) = []) as ->.
  { apply filter_none, Forall_forall. intros n Hn.
    destruct (Hassigned n Hn) as [w Hw]. congruence. }
  assert (score_words cw var [] ws st = Ok (map (λ w, (w, 0)) ws, st)) as Hscore.
  { clear. induction ws as [|w ws IH]; cbn [score_words]; [done|].
    cbn [count_neighbors]. erewrite bind_Ok_l by (by apply mret_Ok).
    by erewrite bind_Ok_l by exact IH. }
  erewrite bind_Ok_l by exact Hscore.
  rewrite (sorted_by_key_scored (λ _, 0)).
  rewrite (sorted_by_key_const _ 0); [done|]. by apply Forall_forall.
Qed.

(** ** Node consistency, twice *)

(** X7. On a well-formed store [enforce_node_consistency] returns, and a
    second call right after the first changes nothing. *)
Theorem enforce_node_consistency_idempotent st :
  store_ok cw st →
  ∃ st1, enforce_node_consistency cw st = Ok (tt, st1)
    ∧ enforce_node_consistency cw st1 = Ok (tt, st1).
Proof.
  intros Hok. pose proof Hok as (Halloc & Hinj & Hcov)%store_ok_iff.
  destruct (node_outer_loop (variables cw) st Halloc Hinj Hcov)
    as (st1 & Hrun1 & Hd1 & Hlen1 & Hin1 & Hout1).
  exists st1. split; [done|].
  destruct (node_outer_loop (variables cw) st1)
    as (st2 & Hrun2 & Hd2 & Hlen2 & Hin2 & Hout2).
  { intros v l. rewrite Hd1, Hlen1. apply Halloc. }
  { rewrite Hd1. apply Hinj. }
  { rewrite Hd1. apply Hcov. }
  rewrite enforce_node_consistency_unfold, Hrun2. do 2 f_equal.
  destruct st1 as [h1 d1], st2 as [h2 d2]. simpl in *. subst. f_equal.
  apply list_eq. intros l.
  destruct (decide (Exists (λ v, domains st !! v = Some l) (variables cw)))
    as [(v & Hv & Hl)%Exists_exists|Hno].
  - rewrite (Hin2 v l Hl Hv), (Hin1 v l Hl Hv).
    destruct (heap st !! l) as [ws|]; simpl; [|done].
    by rewrite filter_node_ok_idemp.
  - apply Hout2. intros v Hv Hl. apply Hno, Exists_exists. eauto.
Qed.

(** ** Words are only ever removed *)

Lemma only_removed_refl st : only_removed st st.
Proof. intros l ws Hl. by exists ws. Qed.

Lemma only_removed_trans st1 st2 st3 :
  only_removed st1 st2 → only_removed st2 st3 → only_removed st1 st3.
Proof.
  intros H12 H23 l ws Hl. destruct (H12 l ws Hl) as (ws2 & Hl2 & Hs2).
  destruct (H23 l ws2 Hl2) as (ws3 & Hl3 & Hs3).
  exists ws3. split; [done|]. by etrans.
Qed.

Lemma only_removed_length st st' :
  only_removed st st' → length (heap st) ≤ length (heap st').
Proof.
  intros Hrem. destruct (decide (length (heap st) ≤ length (heap st')));
    [done|].
  destruct (lookup_lt_is_Some_2 (heap st) (length (heap st'))) as [ws Hws];
    [lia|].
  destruct (Hrem _ _ Hws) as (ws' & Hws' & _).
  apply lookup_lt_Some in Hws'. lia.
Qed.

Lemma only_removed_domains st st' :
  domains st' = domains st → only_removed st st' → domains_shrunk st st'.
Proof.
  intros Hd Hrem v ws (l & Hl & Hws)%dom_Some.
  destruct (Hrem l ws Hws) as (ws' & Hws' & Hsub).
  exists ws'. split; [|done]. apply dom_Some. exists l. by rewrite Hd.
Qed.

Lemma shrunk_at_only_removed l st st' :
  shrunk_at l st st' → only_removed st st'.
Proof.
  intros (_ & _ & Hother & Hat) l' ws Hl'.
  destruct (decide (l' = l)) as [->|Hne]; [by apply Hat|].
  exists ws. by rewrite Hother.
Qed.

Lemma revise_only_removed x y st b st' :
  revise cw x y st = Ok (b, st') →
  domains st' = domains st ∧ only_removed st st'.
Proof.
  intros Hrun. split; [by eapply revise_shape|].
  destruct (domains st !! x) as [lx|] eqn:Hlx.
  - eapply shrunk_at_only_removed, revise_shrunk; done.
  - unfold revise in Hrun. destruct (overlaps cw x y) as [[px py]|].
    + inv_ok. congruence.
    + inv_ok. apply only_removed_refl.
Qed.

Lemma ac3_loop_only_removed fuel arcs st b st' :
  ac3_loop cw fuel arcs st = Ok (b, st') →
  domains st' = domains st ∧ only_removed st st'.
Proof.
  intros Hrun. split; [by eapply ac3_loop_shape|].
  revert fuel arcs st b st' Hrun. apply ac3_loop_ind.
  - apply only_removed_refl.
  - done.
  - intros x y rest st st' Hrev _. by eapply revise_only_removed.
  - intros x y rest st st1 ws b st' Hrev _ _ Hrest.
    eapply only_removed_trans; [|done]. by eapply revise_only_removed.
Qed.

Lemma enforce_node_consistency_only_removed st st' :
  store_ok cw st →
  enforce_node_consistency cw st = Ok (tt, st') →
  domains st' = domains st ∧ only_removed st st'.
Proof.
  intros Hok Hrun. pose proof Hok as (Halloc & Hinj & Hcov)%store_ok_iff.
  destruct (node_outer_loop (variables cw) st Halloc Hinj Hcov)
    as (st1 & Hrun1 & Hd1 & Hlen1 & Hin1 & Hout1).
  rewrite enforce_node_consistency_unfold, Hrun1 in Hrun. simplify_eq.
  split; [done|]. intros l ws Hl.
  destruct (decide (Exists (λ v, domains st !! v = Some l) (variables cw)))
    as [(v & Hv & Hvl)%Exists_exists|Hno].
  - rewrite (Hin1 v l Hvl Hv), Hl. simpl. eexists. split; [done|].
    apply sublist_filter.
  - rewrite Hout1, Hl; [by exists ws|].
    intros v Hv Hvl. apply Hno, Exists_exists. eauto.
Qed.

Lemma store_ok_only_removed st st' :
  store_ok cw st → domains st' = domains st → only_removed st st' →
  store_ok cw st'.
Proof.
  intros Hok Hd Hrem. eapply store_ok_same_shape; [done..|].
  by apply only_removed_length.
Qed.

Lemma node_consistent_only_removed st st' :
  node_consistent cw st → domains st' = domains st → only_removed st st' →
  store_ok cw st →
  node_consistent cw st'.
Proof.
  intros Hnode Hd Hrem Hok. unfold node_consistent in *.
  rewrite Forall_forall in *. intros v Hv. specialize (Hnode v Hv).
  unfold domain_fits in *.
  destruct (domain st' v) as [ws'|] eqn:Hws'; [|done].
  apply dom_Some in Hws' as (l & Hl & Hws'). rewrite Hd in Hl.
  apply store_ok_iff in Hok as (Halloc & _).
  destruct (lookup_lt_is_Some_2 (heap st) l) as [ws Hws]; [by eapply Halloc|].
  destruct (Hrem l ws Hws) as (ws2 & Hws2 & Hsub). simplify_eq.
  assert (domain st v = Some ws) as Hdom by (apply dom_Some; eauto).
  rewrite Hdom in Hnode. rewrite Forall_forall in *.
  intros w Hw. eapply Hnode, elem_of_sublist; done.
Qed.

(** ** The footprint of [consistent] *)

(** A loop that stores fresh containers leaves a reference of the dict
    alone, or replaces it by one of the new containers. *)
Lemma fresh_loop_locs {B} (key : B → Var) (content : B → list string)
    (bs : list B) : ∀ st st',
  for_each bs (λ b, l ← alloc (content b); set_domain_ref (key b) l) st
  = Ok (tt, st') →
  ∀ v l, domains st' !! v = Some l →
    (domains st !! v = Some l ∧ v ∉ key <$> bs) ∨ length (heap st) ≤ l.
Proof.
  induction bs as [|b bs IH]; intros st st' Hrun v l Hl; cbn [for_each] in Hrun.
  - inv_ok. left. split; [done|]. apply not_elem_of_nil.
  - inv_ok. unfold alloc, set_domain_ref in *. simplify_eq.
    destruct (IH _ _ Hrun v l Hl) as [[Hv Hout]|Hfresh]; simpl in *.
    + destruct (decide (v = key b)) as [->|Hne].
      * rewrite lookup_insert_eq in Hv. right. by simplify_eq.
      * rewrite lookup_insert_ne in Hv by done. left. split; [done|].
        change (v ∉ key b :: (key <$> bs)). by apply not_elem_of_cons.
    + right. rewrite length_app in Hfresh. simpl in Hfresh. lia.
Qed.

(** Pinning the assigned variables: the old containers are all kept as
    they are, the variables without a word keep their reference, and no
    reference of the new dict leads to the old container of a variable
    with a word. *)
Lemma pin_loop_keep (a : Assignment) st :
  store_ok cw st →
  ∃ st',
    for_each (map_to_list a)
      (λ '(var, w), l ← alloc [w]; set_domain_ref var l) st = Ok (tt, st')
    ∧ store_ok cw st' ∧ pinned a st'
    ∧ (∀ l ws, heap st !! l = Some ws → heap st' !! l = Some ws)
    ∧ (∀ v, a !! v = None → domains st' !! v = domains st !! v)
    ∧ (∀ v l, is_Some (a !! v) → domains st !! v = Some l →
         ∀ u, domains st' !! u ≠ Some l).
Proof.
  intros Hok. destruct (pin_loop cw a st Hok) as (st' & Hrun & Hok' & Hpin & _).
  pose proof Hok as (Halloc & Hinj & _)%store_ok_iff.
  assert (for_each (map_to_list a)
            (λ b, l ← alloc [b.2]; set_domain_ref b.1 l) st = Ok (tt, st'))
    as Hrun'.
  { rewrite <- Hrun.
    rewrite (for_each_ext _ (λ '(var, w), l ← alloc [w]; set_domain_ref var l));
      [done|]. by intros [??]. }
  destruct (fresh_loop fst (λ p, [p.2]) (map_to_list a) st Halloc Hinj)
    as (st2 & Hrun2 & _ & _ & _ & Hkeep & Hout & _).
  rewrite Hrun' in Hrun2. simplify_eq.
  exists st2. split_and!; [done..| |].
  - intros v Hv. apply Hout.
    intros ([v' w'] & -> & Hin)%list_elem_of_fmap.
    apply elem_of_map_to_list in Hin. simpl in *. congruence.
  - intros v l [w Hw] Hl u Hu.
    destruct (fresh_loop_locs fst (λ p, [p.2]) _ _ _ Hrun' u l Hu)
      as [[Hul Hnot]|Hfresh].
    + assert (u = v) as -> by (by eapply Hinj).
      apply Hnot, list_elem_of_fmap. exists (v, w). split; [done|].
      by apply elem_of_map_to_list.
    + apply Halloc in Hl. lia.
Qed.

(** Containers no reference of the dict leads to are out of reach of the
    pruning methods. *)
Lemma revise_unreachable x y st b st' l :
  revise cw x y st = Ok (b, st') →
  (∀ v, domains st !! v ≠ Some l) → heap st' !! l = heap st !! l.
Proof.
  intros Hrun Hl. destruct (domains st !! x) as [lx|] eqn:Hlx.
  - destruct (revise_shrunk cw x y lx st b st' Hlx Hrun) as (_ & _ & Hother & _).
    apply Hother. intros ->. by eapply Hl.
  - unfold revise in Hrun. destruct (overlaps cw x y) as [[px py]|].
    + inv_ok. congruence.
    + by inv_ok.
Qed.

Lemma ac3_loop_unreachable fuel arcs st b st' l :
  ac3_loop cw fuel arcs st = Ok (b, st') →
  (∀ v, domains st !! v ≠ Some l) → heap st' !! l = heap st !! l.
Proof.
  revert fuel arcs st b st'.
  apply (ac3_loop_ind cw (λ _ st _ st',
    (∀ v, domains st !! v ≠ Some l) → heap st' !! l = heap st !! l)).
  - done.
  - done.
  - intros x y rest st st' Hrev _ Hl. by eapply revise_unreachable.
  - intros x y rest st st1 ws b st' Hrev _ _ IH Hl.
    destruct (revise_shape cw x y st true st1 Hrev) as [Hd _].
    rewrite IH by (by rewrite Hd). by eapply revise_unreachable.
Qed.

Lemma enforce_node_consistency_unreachable st st' l :
  store_ok cw st →
  enforce_node_consistency cw st = Ok (tt, st') →
  (∀ v, domains st !! v ≠ Some l) → heap st' !! l = heap st !! l.
Proof.
  intros Hok Hrun Hl. pose proof Hok as (Halloc & Hinj & Hcov)%store_ok_iff.
  destruct (node_outer_loop (variables cw) st Halloc Hinj Hcov)
    as (st1 & Hrun1 & _ & _ & _ & Hout1).
  rewrite enforce_node_consistency_unfold, Hrun1 in Hrun. simplify_eq.
  apply Hout1. intros v _. apply Hl.
Qed.

Lemma consistent_footprint fuel a st b st' :
  store_ok cw st →
  consistent cw fuel a st = Ok (b, st') →
  domains st' = domains st
  ∧ only_removed st st'
  ∧ ∀ v l, is_Some (a !! v) → domains st !! v = Some l →
      heap st' !! l = heap st !! l.
Proof.
  intros Hok. unfold consistent.
  destruct (assignment_has_duplicates a) eqn:Hdup.
  { intros Hrun. inv_ok. split_and!; [done|apply only_removed_refl|done]. }
  destruct (pin_loop_keep a st Hok)
    as (sp & Hpin & Hok1 & Hpinned & Hkeep & Hsame & Hfree).
  destruct (enforce_node_consistency_run cw sp Hok1)
    as (sn & Hnode & Hd2 & Hlen2 & _).
  destruct (enforce_node_consistency_only_removed sp sn Hok1 Hnode)
    as [_ Hrem2].
  erewrite bind_Ok_l by (by apply copy_domains_Ok).
  erewrite bind_Ok_l by exact Hpin.
  erewrite bind_Ok_l by exact Hnode.
  assert (only_removed st sn) as Hrem.
  { intros l ws Hl. apply Hrem2. by apply Hkeep. }
  assert (∀ v l, is_Some (a !! v) → domains st !! v = Some l →
            heap sn !! l = heap st !! l) as Hfix.
  { intros v l Hv Hl.
    rewrite (enforce_node_consistency_unreachable sp sn l Hok1 Hnode)
      by (by eapply Hfree).
    apply store_ok_iff in Hok as (Halloc & _).
    destruct (lookup_lt_is_Some_2 (heap st) l) as [ws Hws];
      [by eapply Halloc|].
    rewrite Hws. by apply Hkeep. }
  intros Hrun. inv_ok.
  match goal with H : has_empty_domains _ = Ok (?e, _) |- _ =>
    apply has_empty_domains_shape in H as ->; destruct e end.
  { unfold set_domains in *. inv_ok. simplify_eq/=. by split_and!. }
  inv_ok.
  match goal with H : ac3 _ _ _ _ = Ok (?ok, ?st3) |- _ =>
    simpl in H;
    pose proof (ac3_loop_only_removed _ _ _ _ _ H) as [Hd3 Hrem3];
    pose proof (λ l, ac3_loop_unreachable _ _ _ _ _ l H) as Hfix3;
    assert (only_removed st st3
            ∧ ∀ v l, is_Some (a !! v) → domains st !! v = Some l →
                heap st3 !! l = heap st !! l) as [Hrem' Hfix'];
    [|destruct ok] end.
  { split.
    - by eapply only_removed_trans.
    - intros v l Hv Hl. rewrite Hfix3 by (rewrite Hd2; by eapply Hfree).
      by eapply Hfix. }
  all: simpl in Hrun; unfold set_domains in *; inv_ok; simplify_eq/=;
    by split_and!.
Qed.

(** X8. A call of [consistent] that returns puts the dict back, adds no
    word to any domain, and leaves the domain of every variable that has a
    word in the assignment exactly as it was. *)
Theorem consistent_frame fuel a st b st' :
  store_ok cw st →
  consistent cw fuel a st = Ok (b, st') →
  domains st' = domains st
  ∧ domains_shrunk st st'
  ∧ ∀ v, is_Some (a !! v) → domain st' v = domain st v.
Proof.
  intros Hok Hrun.
  destruct (consistent_footprint _ _ _ _ _ Hok Hrun) as (Hd & Hrem & Hfix).
  split_and!; [done|by apply only_removed_domains|].
  intros v Hv. unfold domain. rewrite Hd.
  destruct (domains st !! v) as [l|] eqn:Hl; simpl; [|done]. by eapply Hfix.
Qed.

(** ** The footprint of the search *)

Lemma backtrack_loop_effect fuel recurse var (a0 : Assignment) :
  a0 !! var = None → var ∈ variables cw →
  (∀ a st r st',
     store_ok cw st → recurse a st = Ok (r, st') →
     domains st' = domains st ∧ only_removed st st' ∧ a ⊆ r.2
     ∧ (keys_ok cw a → keys_ok cw r.2)) →
  ∀ ws a st r st',
    store_ok cw st → a0 ⊆ a →
    backtrack_loop cw fuel recurse var ws a st = Ok (r, st') →
    domains st' = domains st ∧ only_removed st st' ∧ a0 ⊆ r.2
    ∧ (keys_ok cw a → keys_ok cw r.2).
Proof.
  intros Hvar Hvarin Hrec.
  induction ws as [|w ws IH]; intros a st r st' Hok Hsub Hrun;
    cbn [backtrack_loop] in Hrun.
  - inv_ok. split_and!; [done|apply only_removed_refl|done|done].
  - cbv zeta in Hrun. inv_ok.
    assert (a0 ⊆ <[var:=w]> a) as Hsub1 by (by apply insert_subseteq_r).
    match goal with H : consistent _ _ _ _ = Ok (?ok, ?sc) |- _ =>
      destruct (consistent_footprint _ _ _ _ _ Hok H) as (Hdc & Hrc & _);
      assert (store_ok cw sc) as Hokc
        by (by apply (store_ok_only_removed st));
      destruct ok end.
    + inv_ok.
      match goal with H : enforce_node_consistency _ _ = Ok (?u, ?sn) |- _ =>
        destruct u;
        destruct (enforce_node_consistency_only_removed _ _ Hokc H)
          as [Hdn Hrn];
        assert (store_ok cw sn) as Hokn
          by (eapply store_ok_only_removed; [exact Hokc|done|done]) end.
      match goal with H : ac3 _ _ _ _ = Ok (_, ?sa) |- _ =>
        unfold ac3 in H;
        destruct (ac3_loop_only_removed _ _ _ _ _ H) as [Hda Hra];
        assert (store_ok cw sa) as Hoka
          by (eapply store_ok_only_removed; [exact Hokn|done|done]) end.
      match goal with H : recurse _ _ = Ok (?res, ?sr) |- _ =>
        destruct (Hrec _ _ _ _ Hoka H) as (Hdr & Hrr & Hsubr & Hkeysr);
        destruct res as [found a''];
        assert (only_removed st sr) as Hall
          by (eapply only_removed_trans; [exact Hrc|];
              eapply only_removed_trans; [exact Hrn|];
              eapply only_removed_trans; [exact Hra|exact Hrr]) end.
      simpl in *. destruct found.
      * inv_ok. split_and!; simpl; [congruence|done|by etrans|].
        intros Hkeys. by apply Hkeysr, keys_ok_insert.
      * inv_ok. unfold set_domains in *. simplify_eq.
        match goal with H : backtrack_loop _ _ _ _ _ _ ?s = Ok _ |- _ =>
          assert (store_ok cw s) as Hoks; [|assert (a0 ⊆ a'') as Hsub2;
           [|destruct (IH _ _ _ _ Hoks Hsub2 H) as (Hd' & Hr' & Hs' & Hk')]] end.
        -- eapply store_ok_only_removed; [exact Hok|simpl; congruence|done].
        -- by etrans.
        -- simpl in *. split_and!; [congruence| |done|].
           ++ eapply only_removed_trans; [exact Hall|]. exact Hr'.
           ++ intros Hkeys. by apply Hk', Hkeysr, keys_ok_insert.
    + destruct (IH _ _ _ _ Hokc Hsub1 Hrun) as (Hd' & Hr' & Hs' & Hk').
      split_and!; [congruence|by eapply only_removed_trans|done|].
      intros Hkeys. by apply Hk', keys_ok_insert.
Qed.

Lemma backtrack_effect fuel : ∀ a st r st',
  store_ok cw st →
  backtrack cw fuel a st = Ok (r, st') →
  domains st' = domains st ∧ only_removed st st' ∧ a ⊆ r.2
  ∧ (keys_ok cw a → keys_ok cw r.2).
Proof.
  induction fuel as [|fuel IH]; intros a st r st' Hok Hrun;
    cbn [backtrack] in Hrun.
  - by inv_ok.
  - destruct (assignment_complete cw a) eqn:Hcomplete.
    + inv_ok. split_and!; [done|apply only_removed_refl|done|done].
    + inv_ok.
      match goal with H : select_unassigned_variable _ _ _ = Ok (?sel, _) |- _ =>
        apply select_unassigned_variable_Ok in H as [-> Hsel];
        destruct sel as [var|]; [|by inv_ok] end.
      inv_ok.
      match goal with H : order_domain_values _ _ _ _ = _ |- _ =>
        apply order_domain_values_Ok in H as [-> _] end.
      destruct (Hsel var eq_refl) as [Hvarin Hvar].
      eapply (backtrack_loop_effect fuel (backtrack cw fuel) var a Hvar Hvarin);
        [|done|done|done].
      intros a1 st1 r1 st1' Hok1 Hrun1. by eapply IH.
Qed.

(** X9. Every entry of the dict passed to [backtrack] is still there, with
    the same word, in the dict as [backtrack] leaves it, whether a result
    was found or not. *)
Theorem backtrack_keeps_entries fuel a st found a' st' :
  store_ok cw st →
  backtrack cw fuel a st = Ok ((found, a'), st') →
  ∀ v w, a !! v = Some w → a' !! v = Some w.
Proof.
  intros Hok Hrun v w Hv.
  destruct (backtrack_effect _ _ _ _ _ Hok Hrun) as (_ & _ & Hsub & _).
  by eapply lookup_weaken.
Qed.

(** X10. Across a call of [backtrack] the dict [self.domains] keeps
    referring to the same containers and no domain gains a word:
    [self.domains = old_domains] brings no removed word back. *)
Theorem backtrack_never_restores fuel a st r st' :
  store_ok cw st →
  backtrack cw fuel a st = Ok (r, st') →
  domains st' = domains st ∧ domains_shrunk st st'.
Proof.
  intros Hok Hrun.
  destruct (backtrack_effect _ _ _ _ _ Hok Hrun) as (Hd & Hrem & _ & _).
  split; [done|]. by apply only_removed_domains.
Qed.

(** ** Arc consistency *)

(** [revise] seen through the dict. *)
Lemma revise_domains x y st b st' :
  store_ok cw st → x ∈ variables cw → y ∈ variables cw → x ≠ y →
  revise cw x y st = Ok (b, st') →
  ∃ xs ys, domain st x = Some xs ∧ domain st y = Some ys
    ∧ (∀ z, z ≠ x → domain st' z = domain st z)
    ∧ match overlaps cw x y with
      | Some (px, py) =>
          domain st' x = Some (filter (supported px py ys) xs)
          ∧ (b = true ↔ ¬ Forall (supported px py ys) xs)
      | None => st' = st ∧ b = false
      end.
Proof.
  intros Hok Hxin Hyin Hne Hrun.
  pose proof Hok as (Halloc & Hinj & Hcov)%store_ok_iff.
  destruct (Hcov x Hxin) as [lx Hx]. destruct (Hcov y Hyin) as [ly Hy].
  destruct (lookup_lt_is_Some_2 (heap st) lx) as [xs Hxs]; [by eapply Halloc|].
  destruct (lookup_lt_is_Some_2 (heap st) ly) as [ys Hys]; [by eapply Halloc|].
  assert (lx ≠ ly) as Hll by (intros ->; apply Hne; by eapply Hinj).
  pose proof (revise_Ok cw x y lx ly xs ys st b st' Hx Hy Hll Hxs Hys Hrun)
    as Hspec.
  exists xs, ys. split_and!.
  - apply dom_Some. eauto.
  - apply dom_Some. eauto.
  - intros z Hz. destruct (overlaps cw x y) as [[px py]|].
    + destruct Hspec as [-> _]. unfold domain. simpl.
      destruct (domains st !! z) as [lz|] eqn:Hlz; simpl; [|done].
      rewrite list_lookup_insert_ne; [done|].
      intros ->. apply Hz. by eapply Hinj.
    + by destruct Hspec as [-> _].
  - destruct (overlaps cw x y) as [[px py]|]; [|done].
    destruct Hspec as [-> Hb]. split.
    + unfold domain. simpl. rewrite Hx. simpl. by eapply lookup_insert_heap.
    + rewrite Hb. split.
      * intros (w & Hw & Hn)%Exists_exists Hall.
        rewrite Forall_forall in Hall. eauto.
      * apply not_Forall_Exists, _.
Qed.

(** X11. After a call [revise(x, y)] on a well-formed, node-consistent
    store, a second call returns [False] and changes nothing. *)
Theorem revise_idempotent x y st b st' :
  store_ok cw st → offsets_ok cw → node_consistent cw st →
  x ∈ variables cw → y ∈ variables cw → x ≠ y →
  revise cw x y st = Ok (b, st') →
  revise cw x y st' = Ok (false, st').
Proof.
  intros Hok Hoff Hnode Hx Hy Hne Hrun.
  destruct (revise_only_removed _ _ _ _ _ Hrun) as [Hd Hrem].
  assert (store_ok cw st') as Hok' by (by eapply store_ok_only_removed).
  assert (node_consistent cw st') as Hnode'
    by (by eapply node_consistent_only_removed).
  destruct (revise_run cw st' x y Hok' Hoff Hnode' Hx Hy Hne) as (b2 & st2 & Hrun2).
  destruct (revise_domains _ _ _ _ _ Hok Hx Hy Hne Hrun)
    as (xs & ys & Hxs & Hys & Hother & Hspec).
  destruct (revise_domains _ _ _ _ _ Hok' Hx Hy Hne Hrun2)
    as (xs' & ys' & Hxs' & Hys' & Hother' & Hspec').
  destruct (overlaps cw x y) as [[px py]|].
  - destruct Hspec as [Hnew Hb]. destruct Hspec' as [Hnew' Hb'].
    rewrite Hother in Hys' by done. simplify_eq.
    assert (b2 = false) as ->.
    { destruct b2; [|done]. exfalso. apply Hb'; [done|].
      apply Forall_forall. by intros w [Hw _]%list_elem_of_filter. }
    by apply revise_unrevised in Hrun2 as Heq; subst.
  - destruct Hspec' as [-> ->]. done.
Qed.

(** X12. [revise] raises [IndexError] when the first word of [x]'s domain
    is too short to have a character at the overlap and [y]'s domain is
    not empty: arc consistency relies on node consistency having been
    enforced. *)
Theorem revise_short_word x y st px py w ws wy ys :
  overlaps cw x y = Some (px, py) →
  domain st x = Some (w :: ws) → domain st y = Some (wy :: ys) →
  String.length w ≤ px →
  revise cw x y st = Raise IndexError.
Proof.
  intros Hov (lx & Hlx & Hxs)%dom_Some (ly & Hly & Hys)%dom_Some Hshort.
  unfold revise. rewrite Hov.
  erewrite bind_Ok_l by (by apply domain_ref_Ok).
  erewrite bind_Ok_l by (by apply read_Ok).
  cbn [revise_loop].
  erewrite bind_Ok_l by (by apply domain_ref_Ok).
  erewrite bind_Ok_l by (by apply read_Ok).
  apply bind_Raise. cbn [y_possible_words]. apply bind_Raise.
  unfold char_at. destruct (String.get px w) as [c|] eqn:Hc; [|done].
  assert (px < String.length w) by (apply get_lt; eauto). lia.
Qed.

Lemma requeued_elem x z :
  (z, x) ∈ requeued cw x ↔ z ∈ neighbors cw x.
Proof.
  unfold requeued. rewrite list_elem_of_fmap. split.
  - by intros (n & [= -> ] & Hn).
  - intros Hz. by exists z.
Qed.

Lemma neighbors_elem x z :
  z ∈ neighbors cw x ↔ z ∈ variables cw ∧ z ≠ x ∧ is_Some (overlaps cw z x).
Proof. unfold neighbors. rewrite list_elem_of_filter. tauto. Qed.

Lemma queue_ok_requeued x : x ∈ variables cw → queue_ok cw (requeued cw x).
Proof.
  intros Hx. apply Forall_forall. intros [z x'] Hin.
  unfold requeued in Hin. apply list_elem_of_fmap in Hin as (n & Heq & Hn).
  simplify_eq/=. apply neighbors_elem in Hn as (? & ? & ?). done.
Qed.

Lemma queue_ok_all_arcs : queue_ok cw (all_arcs cw).
Proof.
  apply Forall_forall. intros [x y] [Hx Hy%neighbors_elem]%all_arcs_elem.
  simpl. destruct Hy as (? & ? & ?). done.
Qed.

(** The invariant of the [while] loop: an arc that is not waiting in the
    queue is consistent. *)
Lemma ac3_loop_arc_consistent fuel arcs st b st' :
  ac3_loop cw fuel arcs st = Ok (b, st') →
  store_ok cw st → queue_ok cw arcs →
  (∀ x y, is_arc cw x y → (x, y) ∈ arcs ∨ arc_consistent cw st x y) →
  b = true →
  ∀ x y, is_arc cw x y → arc_consistent cw st' x y.
Proof.
  revert fuel arcs st b st'.
  apply (ac3_loop_ind cw (λ arcs st b st',
    store_ok cw st → queue_ok cw arcs →
    (∀ x y, is_arc cw x y → (x, y) ∈ arcs ∨ arc_consistent cw st x y) →
    b = true →
    ∀ x y, is_arc cw x y → arc_consistent cw st' x y)).
  - intros st _ _ Hinv _ x y Hxy.
    destruct (Hinv x y Hxy) as [Hin|?]; [|done]. by apply elem_of_nil in Hin.
  - intros x0 y0 rest st b st' Hrev IH Hok Hq Hinv Hb.
    apply Forall_cons in Hq as [(Hx0 & Hy0 & Hne0) Hq]. simpl in *.
    apply IH; [done..| |done].
    intros x y Hxy. destruct (Hinv x y Hxy) as [Hin|?]; [|by right].
    apply elem_of_cons in Hin as [[= -> ->]|?]; [|by left]. right.
    destruct (revise_domains _ _ _ _ _ Hok Hx0 Hy0 Hne0 Hrev)
      as (xs & ys & Hxs & Hys & _ & Hspec).
    unfold arc_consistent. rewrite Hxs, Hys.
    destruct (overlaps cw x0 y0) as [[px py]|]; [|done].
    destruct Hspec as [_ Hb']. destruct (decide (Forall (supported px py ys) xs));
      [done|]. by apply Hb' in n.
  - done.
  - intros x0 y0 rest st st1 ws b st' Hrev Hws Hnonempty IH Hok Hq Hinv Hb.
    apply Forall_cons in Hq as [(Hx0 & Hy0 & Hne0) Hq]. simpl in *.
    destruct (revise_only_removed _ _ _ _ _ Hrev) as [Hd Hrem].
    destruct (revise_domains _ _ _ _ _ Hok Hx0 Hy0 Hne0 Hrev)
      as (xs & ys & Hxs & Hys & Hother & Hspec).
    apply IH; [by eapply store_ok_only_removed| | |done].
    { apply Forall_app. split; [done|]. by apply queue_ok_requeued. }
    intros x y Hxy. pose proof Hxy as (Hx & Hy & Hne & Hov).
    rewrite elem_of_app.
    destruct (decide (y = x0)) as [->|Hyx0].
    { left. right. apply requeued_elem, neighbors_elem. done. }
    destruct (Hinv x y Hxy) as [Hin|Hcons].
    + apply elem_of_cons in Hin as [[= -> ->]|?]; [|by left; left]. right.
      unfold arc_consistent. destruct (overlaps cw x0 y0) as [[px py]|]; [|done].
      destruct Hspec as [-> _]. rewrite Hother, Hys by done.
      apply Forall_forall. by intros w [Hw _]%list_elem_of_filter.
    + right. unfold arc_consistent in *. rewrite (Hother y) by done.
      destruct (decide (x = x0)) as [->|Hxx0]; [|by rewrite Hother].
      destruct (overlaps cw x0 y) as [[px py]|] eqn:Hovy; [|done].
      rewrite Hxs in Hcons.
      destruct (domain st1 x0) as [xs1|] eqn:Hxs1; [|done].
      destruct (domain st y) as [ys'|]; [|done].
      destruct (only_removed_domains _ _ Hd Hrem x0 xs Hxs) as (xs2 & Hxs2 & Hsub).
      simplify_eq. rewrite Forall_forall in *.
      intros w Hw. eapply Hcons, elem_of_sublist; done.
Qed.

(** X13. When [ac3], started with all the arcs, returns [True], the store
    is arc consistent: for any two different variables with an overlap,
    every word in the domain of the first agrees at the overlap with some
    word in the domain of the second. *)
Theorem ac3_arc_consistent fuel st st' :
  store_ok cw st → puzzle_ok cw →
  ac3 cw fuel None st = Ok (true, st') →
  ∀ x y px py xs ys,
    x ∈ variables cw → y ∈ variables cw → x ≠ y →
    overlaps cw x y = Some (px, py) →
    domain st' x = Some xs → domain st' y = Some ys →
    ∀ wx, wx ∈ xs → ∃ wy, wy ∈ ys ∧ agree_at px py wx wy.
Proof.
  intros Hok Hpuzzle Hrun x y px py xs ys Hx Hy Hne Hov Hxs Hys wx Hwx.
  unfold ac3 in Hrun.
  pose proof (ac3_loop_arc_consistent _ _ _ _ _ Hrun Hok queue_ok_all_arcs)
    as Hcons.
  specialize (Hcons) with (2 := eq_refl) (x := x) (y := y).
  unfold arc_consistent in Hcons. rewrite Hov, Hxs, Hys in Hcons.
  assert (Forall (supported px py ys) xs) as Hall.
  { apply Hcons.
    - intros x1 y1 (Hx1 & Hy1 & Hne1 & Hov1). left. by apply puzzle_ok_arc.
    - split_and!; [done..|]. by rewrite Hov. }
  rewrite Forall_forall in Hall. specialize (Hall wx Hwx).
  unfold supported in Hall. apply Exists_exists in Hall. done.
Qed.

(** X14. A call of [ac3] that returns leaves the dict alone and adds no
    word to any domain. *)
Theorem ac3_frame fuel arcs st b st' :
  ac3 cw fuel arcs st = Ok (b, st') →
  domains st' = domains st ∧ domains_shrunk st st'.
Proof.
  intros Hrun.
  assert (∃ queue, ac3_loop cw fuel queue st = Ok (b, st')) as [queue Hloop].
  { destruct arcs as [queue|]; eauto. }
  destruct (ac3_loop_only_removed _ _ _ _ _ Hloop) as [Hd Hrem].
  split; [done|]. by apply only_removed_domains.
Qed.

(** ** Termination *)

Lemma sum_list_fmap_le {A} (f g : A → nat) (l : list A) :
  (∀ x, x ∈ l → f x ≤ g x) → sum_list (f <$> l) ≤ sum_list (g <$> l).
Proof.
  induction l as [|x l IH]; intros Hle; csimpl; [done|].
  pose proof (Hle x ltac:(left)).
  assert (sum_list (f <$> l) ≤ sum_list (g <$> l))
    by (apply IH; intros; apply Hle; by right).
  lia.
Qed.

Lemma sum_list_fmap_lt {A} (f g : A → nat) (l : list A) x :
  (∀ z, z ∈ l → f z ≤ g z) → x ∈ l → f x < g x →
  sum_list (f <$> l) < sum_list (g <$> l).
Proof.
  induction l as [|z l IH]; intros Hle Hx Hlt; csimpl.
  { by apply elem_of_nil in Hx. }
  pose proof (Hle z ltac:(left)).
  assert (sum_list (f <$> l) ≤ sum_list (g <$> l))
    by (apply sum_list_fmap_le; intros; apply Hle; by right).
  apply elem_of_cons in Hx as [->|Hx]; [lia|].
  assert (sum_list (f <$> l) < sum_list (g <$> l))
    by (apply IH; [intros; apply Hle; by right|done..]).
  lia.
Qed.

Lemma domain_size_only_removed st st' v :
  store_ok cw st → v ∈ variables cw →
  domains st' = domains st → only_removed st st' →
  domain_size st' v ≤ domain_size st v.
Proof.
  intros (Halloc & _ & Hcov)%store_ok_iff Hv Hd Hrem.
  destruct (Hcov v Hv) as [l Hl].
  destruct (lookup_lt_is_Some_2 (heap st) l) as [ws Hws]; [by eapply Halloc|].
  destruct (Hrem l ws Hws) as (ws' & Hws' & Hsub).
  unfold domain_size, domain. rewrite Hd, Hl. simpl. rewrite Hws, Hws'. simpl.
  by apply sublist_length.
Qed.

Lemma total_size_only_removed st st' :
  store_ok cw st → domains st' = domains st → only_removed st st' →
  total_size cw st' ≤ total_size cw st.
Proof.
  intros Hok Hd Hrem. apply sum_list_fmap_le.
  intros v Hv. by apply domain_size_only_removed.
Qed.

Lemma revise_true_smaller x y st st' :
  store_ok cw st → x ∈ variables cw → y ∈ variables cw → x ≠ y →
  revise cw x y st = Ok (true, st') →
  total_size cw st' < total_size cw st.
Proof.
  intros Hok Hx Hy Hne Hrun.
  destruct (revise_only_removed _ _ _ _ _ Hrun) as [Hd Hrem].
  apply (sum_list_fmap_lt _ _ _ x); [|done|].
  - intros v Hv. by apply domain_size_only_removed.
  - destruct (revise_domains _ _ _ _ _ Hok Hx Hy Hne Hrun)
      as (xs & ys & Hxs & Hys & _ & Hspec).
    destruct (overlaps cw x y) as [[px py]|]; [|by destruct Hspec].
    destruct Hspec as [Hxs' Hb]. unfold domain_size. rewrite Hxs, Hxs'. simpl.
    apply filter_length_lt. apply not_Forall_Exists; [apply _|].
    by apply Hb.
Qed.

Lemma neighbors_length x : length (neighbors cw x) ≤ length (variables cw).
Proof. unfold neighbors. apply length_filter. Qed.

(** The [while] loop of [ac3] is done within one round for every arc of
    the queue and, for every word of a domain, one round for each arc
    that may be put back when the word is removed. *)
Lemma ac3_loop_run fuel : ∀ arcs st,
  store_ok cw st → offsets_ok cw → node_consistent cw st →
  queue_ok cw arcs →
  length arcs + total_size cw st * S (length (variables cw)) < fuel →
  ∃ b st', ac3_loop cw fuel arcs st = Ok (b, st').
Proof.
  induction fuel as [|fuel IH]; intros arcs st Hok Hoff Hnode Hq Hfuel; [lia|].
  cbn [ac3_loop]. destruct arcs as [|[x y] rest].
  { exists true, st. done. }
  apply Forall_cons in Hq as [(Hx & Hy & Hne) Hq]. simpl in Hx, Hy, Hne.
  destruct (revise_run cw st x y Hok Hoff Hnode Hx Hy Hne) as (b & st1 & Hrev).
  destruct (revise_only_removed _ _ _ _ _ Hrev) as [Hd Hrem].
  assert (store_ok cw st1) as Hok1 by (by eapply store_ok_only_removed).
  assert (node_consistent cw st1) as Hnode1
    by (by eapply node_consistent_only_removed).
  destruct b.
  - pose proof Hok1 as (Halloc & _ & Hcov)%store_ok_iff.
    destruct (Hcov x Hx) as [l Hl].
    destruct (lookup_lt_is_Some_2 (heap st1) l) as [ws Hws];
      [by eapply Halloc|].
    pose proof (revise_true_smaller _ _ _ _ Hok Hx Hy Hne Hrev) as Hlt.
    assert (ac3_step cw ((x, y) :: rest) st
            = Ok (if decide (length ws = 0) then Return false
                  else Continue (rest ++ requeued cw x), st1)) as Hstep.
    { unfold ac3_step. rewrite list_remove_first_head. cbn [fst snd].
      erewrite bind_Ok_l by exact Hrev. cbv beta iota.
      erewrite bind_Ok_l by (by apply domain_ref_Ok).
      erewrite bind_Ok_l by (by apply read_Ok).
      by destruct (decide (length ws = 0)). }
    erewrite bind_Ok_l by exact Hstep.
    destruct (decide (length ws = 0)) as [Hempty|Hfull]; [by eauto|].
    apply IH; [done..| |].
    { apply Forall_app. split; [done|]. by apply queue_ok_requeued. }
    rewrite length_app. unfold requeued. rewrite length_map.
    pose proof (neighbors_length x). simpl in Hfuel. nia.
  - apply revise_unrevised in Hrev as Heq. subst st1.
    assert (ac3_step cw ((x, y) :: rest) st = Ok (Continue rest, st)) as Hstep.
    { unfold ac3_step. rewrite list_remove_first_head. cbn [fst snd].
      by erewrite bind_Ok_l by exact Hrev. }
    erewrite bind_Ok_l by exact Hstep.
    apply IH; [done..|]. simpl in Hfuel. lia.
Qed.

(** X15. On a well-formed, node-consistent store of a puzzle whose
    overlap offsets lie inside the slots, [ac3] started with all the arcs
    returns, without an exception, within one round per arc plus, for
    every word in a domain, one round for each arc its removal may put
    back. *)
Theorem ac3_terminates fuel st :
  store_ok cw st → offsets_ok cw → node_consistent cw st →
  length (all_arcs cw) + total_size cw st * S (length (variables cw)) < fuel →
  ∃ b st', ac3 cw fuel None st = Ok (b, st').
Proof.
  intros Hok Hoff Hnode Hfuel. unfold ac3.
  apply ac3_loop_run; [done..|apply queue_ok_all_arcs|done].
Qed.

Lemma has_empty_domains_run st :
  store_ok cw st → ∃ b, has_empty_domains st = Ok (b, st).
Proof.
  intros (Halloc & _ & _)%store_ok_iff.
  destruct (has_empty_loop_run (map_to_list (domains st)).*1 st) as [b Hb].
  { intros v ([v' l] & -> & Hin%elem_of_map_to_list)%list_elem_of_fmap. simpl.
    destruct (lookup_lt_is_Some_2 (heap st) l) as [ws Hws]; [by eapply Halloc|].
    exists ws. apply dom_Some. eauto. }
  exists b. unfold has_empty_domains.
  by erewrite bind_Ok_l by (by apply get_domains_Ok).
Qed.

Lemma enforce_node_consistency_fits st st' :
  store_ok cw st →
  enforce_node_consistency cw st = Ok (tt, st') →
  node_consistent cw st'.
Proof.
  intros Hok Hrun.
  destruct (enforce_node_consistency_run cw st Hok) as (st2 & Hrun2 & _ & _ & Hin & _).
  rewrite Hrun2 in Hrun. simplify_eq.
  apply Forall_forall. intros v Hv. unfold domain_fits. rewrite (Hin v Hv).
  destruct (domain st v) as [ws|]; simpl; [|done].
  apply Forall_forall. by intros w [Hw _]%list_elem_of_filter.
Qed.

Lemma sum_list_fmap_succ {A} (f : A → nat) (l : list A) :
  sum_list ((λ x, f x + 1) <$> l) = sum_list (f <$> l) + length l.
Proof. induction l as [|x l IH]; csimpl; [done|]. rewrite IH. lia. Qed.

Lemma pin_total_size (a : Assignment) st sp :
  store_ok cw st →
  (∀ l ws, heap st !! l = Some ws → heap sp !! l = Some ws) →
  (∀ v, a !! v = None → domains sp !! v = domains st !! v) →
  pinned a sp →
  total_size cw sp ≤ total_size cw st + length (variables cw).
Proof.
  intros (Halloc & _ & Hcov)%store_ok_iff Hkeep Hsame Hpin.
  unfold total_size. rewrite <- sum_list_fmap_succ.
  apply sum_list_fmap_le. intros v Hv. unfold domain_size.
  destruct (a !! v) as [w|] eqn:Hw.
  - rewrite (Hpin v w Hw). simpl. lia.
  - destruct (Hcov v Hv) as [l Hl].
    destruct (lookup_lt_is_Some_2 (heap st) l) as [ws Hws]; [by eapply Halloc|].
    unfold domain. rewrite Hsame, Hl by done. simpl.
    rewrite Hws, (Hkeep l ws Hws). simpl. lia.
Qed.

Lemma ac3_budget_only_removed st st' :
  store_ok cw st → domains st' = domains st → only_removed st st' →
  ac3_budget cw st' ≤ ac3_budget cw st.
Proof.
  intros Hok Hd Hrem. unfold ac3_budget.
  pose proof (total_size_only_removed _ _ Hok Hd Hrem). nia.
Qed.

Lemma consistent_run fuel a st :
  store_ok cw st → offsets_ok cw → ac3_budget cw st < fuel →
  ∃ b st', consistent cw fuel a st = Ok (b, st').
Proof.
  intros Hok Hoff Hfuel. unfold consistent.
  destruct (assignment_has_duplicates a); [by eauto|].
  destruct (pin_loop_keep a st Hok)
    as (sp & Hpin & Hok1 & Hpinned & Hkeep & Hsame & _).
  destruct (enforce_node_consistency_run cw sp Hok1)
    as (sn & Hnode & _).
  destruct (enforce_node_consistency_only_removed sp sn Hok1 Hnode)
    as [Hd2 Hrem2].
  assert (store_ok cw sn) as Hok2 by (by eapply store_ok_only_removed).
  destruct (has_empty_domains_run sn Hok2) as [e Hempty].
  erewrite bind_Ok_l by (by apply copy_domains_Ok).
  erewrite bind_Ok_l by exact Hpin.
  erewrite bind_Ok_l by exact Hnode.
  erewrite bind_Ok_l by exact Hempty.
  destruct e; [by eauto|].
  destruct (ac3_loop_run fuel (all_arcs cw) sn) as (ok & sa & Hac3);
    [done|done|exact (enforce_node_consistency_fits sp sn Hok1 Hnode)
    |apply queue_ok_all_arcs| |].
  { pose proof (pin_total_size a st sp Hok Hkeep Hsame Hpinned).
    pose proof (total_size_only_removed _ _ Hok1 Hd2 Hrem2).
    unfold ac3_budget in Hfuel. nia. }
  unfold ac3. erewrite bind_Ok_l by exact Hac3.
  destruct ok; by eauto.
Qed.

Lemma insert_fresh_size (a0 a : Assignment) var w :
  a0 !! var = None → a0 ⊆ a → size a0 < size (<[var:=w]> a).
Proof.
  intros Hvar Hsub.
  assert (a0 ⊆ <[var:=w]> a) as Hsub1 by (by apply insert_subseteq_r).
  pose proof (map_subseteq_size _ _ Hsub1).
  destruct (decide (size (<[var:=w]> a) ≤ size a0)); [|lia].
  assert (a0 = <[var:=w]> a) as Heq by (by apply map_subseteq_size_eq).
  rewrite Heq, lookup_insert_eq in Hvar. done.
Qed.

Lemma keys_ok_size (a : Assignment) :
  NoDup (variables cw) → keys_ok cw a →
  size a ≤ length (variables cw)
  ∧ (filter (λ var, a !! var = None) (variables cw) = [] →
     size a = length (variables cw)).
Proof.
  intros Hnd Hkeys.
  assert (dom a ⊆ list_to_set (variables cw)) as Hsub.
  { intros v Hv%elem_of_dom. apply elem_of_list_to_set. by apply Hkeys. }
  split.
  - rewrite <- size_dom, <- (size_list_to_set (C:=gset Var)) by done.
    by apply subseteq_size.
  - intros Hnone.
    assert (dom a = list_to_set (variables cw)) as Hdom.
    { apply set_eq. intros v. split; [apply Hsub|].
      intros Hv%elem_of_list_to_set. apply elem_of_dom.
      destruct (a !! v) eqn:Hav; [done|].
      assert (v ∈ filter (λ var, a !! var = None) (variables cw)) as Hin
        by (by apply list_elem_of_filter).
      rewrite Hnone in Hin. by apply elem_of_nil in Hin. }
    by rewrite <- size_dom, Hdom, size_list_to_set.
Qed.

(** The [for] loop of [backtrack] returns when every recursive call does;
    [a0] is the dict as it was when [backtrack] was called, and [B] a
    budget for the pruning. *)
Lemma backtrack_loop_run fuel recurse var (a0 : Assignment) B :
  puzzle_ok cw → offsets_ok cw →
  a0 !! var = None → var ∈ variables cw → B < fuel →
  (∀ a st r st',
     store_ok cw st → recurse a st = Ok (r, st') →
     domains st' = domains st ∧ only_removed st st' ∧ a ⊆ r.2
     ∧ (keys_ok cw a → keys_ok cw r.2)) →
  (∀ a st,
     store_ok cw st → node_consistent cw st → keys_ok cw a →
     size a0 < size a → ac3_budget cw st ≤ B →
     ∃ r st', recurse a st = Ok (r, st')) →
  ∀ ws a st,
    store_ok cw st → node_consistent cw st → keys_ok cw a → a0 ⊆ a →
    ac3_budget cw st ≤ B →
    ∃ r st', backtrack_loop cw fuel recurse var ws a st = Ok (r, st').
Proof.
  intros Hpuzzle Hoff Hvar Hvarin HB Heff Hrec.
  induction ws as [|w ws IH]; intros a st Hok Hnode Hkeys Hsub Hbudget;
    cbn [backtrack_loop]; [by eauto|].
  cbv zeta.
  destruct (consistent_run fuel (<[var:=w]> a) st Hok Hoff) as (ok & sc & Hcons);
    [lia|].
  destruct (consistent_footprint _ _ _ _ _ Hok Hcons) as (Hdc & Hrc & _).
  assert (store_ok cw sc) as Hokc by (by eapply store_ok_only_removed).
  assert (node_consistent cw sc) as Hnodec
    by (by eapply node_consistent_only_removed).
  pose proof (ac3_budget_only_removed _ _ Hok Hdc Hrc) as Hbc.
  assert (keys_ok cw (<[var:=w]> a)) as Hkeys1 by (by apply keys_ok_insert).
  assert (a0 ⊆ <[var:=w]> a) as Hsub1 by (by apply insert_subseteq_r).
  erewrite bind_Ok_l by exact Hcons.
  destruct ok; [|apply IH; [done..|lia]].
  destruct (enforce_node_consistency_run cw sc Hokc) as (sn & Hrunn & _).
  destruct (enforce_node_consistency_only_removed _ _ Hokc Hrunn) as [Hdn Hrn].
  assert (store_ok cw sn) as Hokn by (by eapply store_ok_only_removed).
  assert (node_consistent cw sn) as Hnoden
    by (by eapply node_consistent_only_removed).
  pose proof (ac3_budget_only_removed _ _ Hokc Hdn Hrn) as Hbn.
  destruct (ac3_loop_run fuel (all_arcs cw) sn) as (b & sa & Hac3);
    [done..|apply queue_ok_all_arcs| |].
  { unfold ac3_budget in *. nia. }
  destruct (ac3_loop_only_removed _ _ _ _ _ Hac3) as [Hda Hra].
  assert (store_ok cw sa) as Hoka by (by eapply store_ok_only_removed).
  assert (node_consistent cw sa) as Hnodea
    by (by eapply node_consistent_only_removed).
  pose proof (ac3_budget_only_removed _ _ Hokn Hda Hra) as Hba.
  destruct (Hrec (<[var:=w]> a) sa) as ([found a''] & sr & Hrun);
    [done..|by apply insert_fresh_size|lia|].
  destruct (Heff _ _ _ _ Hoka Hrun) as (Hdr & Hrr & Hsubr & Hkeysr).
  simpl in *.
  erewrite bind_Ok_l by (apply copy_domains_Ok; split; reflexivity).
  erewrite bind_Ok_l by exact Hrunn.
  unfold ac3. erewrite bind_Ok_l by exact Hac3.
  erewrite bind_Ok_l by exact Hrun. cbv beta iota.
  destruct found; [by eauto|].
  erewrite bind_Ok_l by reflexivity.
  assert (domains sr = domains sc) as Hdsr by congruence.
  assert (only_removed sc sr) as Hrsr.
  { eapply only_removed_trans; [exact Hrn|].
    eapply only_removed_trans; [exact Hra|exact Hrr]. }
  apply IH.
  - eapply store_ok_only_removed; [exact Hokc|done|done].
  - eapply node_consistent_only_removed; [exact Hnodec|done|done|done].
  - by apply Hkeysr.
  - by etrans.
  - pose proof (ac3_budget_only_removed sc (mkState (heap sr) (domains sc))
                  Hokc eq_refl Hrsr). rewrite ?Hdn. lia.
Qed.

Lemma backtrack_run fuel : ∀ a st,
  puzzle_ok cw → offsets_ok cw →
  store_ok cw st → node_consistent cw st → keys_ok cw a →
  (length (variables cw) - size a) + ac3_budget cw st < fuel →
  ∃ r st', backtrack cw fuel a st = Ok (r, st').
Proof.
  induction fuel as [|fuel IH];
    intros a st Hpuzzle Hoff Hok Hnode Hkeys Hfuel; [lia|].
  cbn [backtrack].
  destruct (assignment_complete cw a) eqn:Hcomplete; [by eauto|].
  pose proof Hpuzzle as [Hnd _].
  destruct (keys_ok_size a Hnd Hkeys) as [Hle Hfull].
  assert (size a ≠ length (variables cw)) as Hsize.
  { unfold assignment_complete in Hcomplete.
    by apply bool_decide_eq_false in Hcomplete. }
  destruct (select_unassigned_variable_run cw a st Hcomplete) as [var Hsel].
  { intros v Hv. apply store_ok_iff in Hok as (Halloc & _ & Hcov).
    destruct (Hcov v Hv) as [l Hl].
    destruct (lookup_lt_is_Some_2 (heap st) l) as [ws Hws]; [by eapply Halloc|].
    exists ws. apply dom_Some. eauto. }
  { intros Hnone. by apply Hsize, Hfull. }
  destruct (select_unassigned_variable_Ok _ _ _ _ _ Hsel) as [_ Hvar].
  destruct (Hvar var eq_refl) as [Hvarin Hfree].
  destruct (order_domain_values_run cw var a st Hpuzzle Hoff Hok Hnode Hvarin)
    as [ws Hws].
  erewrite bind_Ok_l by exact Hsel. cbv beta iota.
  erewrite bind_Ok_l by exact Hws.
  apply (backtrack_loop_run fuel (backtrack cw fuel) var a (ac3_budget cw st));
    try done.
  - lia.
  - intros a1 st1 r1 st1' Hok1 Hrun1. by eapply backtrack_effect.
  - intros a1 st1 Hok1 Hnode1 Hkeys1 Hsize1 Hb1. apply IH; [done..|]. lia.
Qed.

Lemma total_size_init_state :
  total_size cw (init_state cw) = length (variables cw) * length (words cw).
Proof.
  destruct (init_state_ok cw) as [_ Hdom]. unfold total_size.
  apply sum_list_fmap_same, Forall_forall. intros v Hv.
  unfold domain_size. by rewrite (Hdom v Hv).
Qed.

(** X16. On a well-formed puzzle whose overlap offsets lie inside the
    slots the search terminates without an exception: [backtrack] returns
    from every well-formed, node-consistent store and every dict over the
    puzzle's variables, and [solve] returns from the store [__init__]
    builds, given fuel for the depth of the recursion and the rounds of
    [ac3]. *)
Theorem search_terminates fuel :
  puzzle_ok cw → offsets_ok cw →
  (∀ a st,
     store_ok cw st → node_consistent cw st → keys_ok cw a →
     (length (variables cw) - size a) + ac3_budget cw st < fuel →
     ∃ r st', backtrack cw fuel a st = Ok (r, st'))
  ∧ (length (variables cw) + length (all_arcs cw)
     + (length (variables cw) * length (words cw) + length (variables cw))
       * S (length (variables cw)) < fuel →
     ∃ r st', solve cw fuel (init_state cw) = Ok (r, st')).
Proof.
  intros Hpuzzle Hoff. split.
  { intros a st Hok Hnode Hkeys Hfuel. by apply backtrack_run. }
  intros Hfuel. destruct (init_state_ok cw) as [Hok0 _].
  pose proof total_size_init_state as Hsize.
  destruct (enforce_node_consistency_run cw _ Hok0) as (sn & Hrunn & _).
  destruct (enforce_node_consistency_only_removed _ _ Hok0 Hrunn) as [Hdn Hrn].
  assert (store_ok cw sn) as Hokn by (by eapply store_ok_only_removed).
  pose proof (enforce_node_consistency_fits _ _ Hok0 Hrunn) as Hnoden.
  pose proof (total_size_only_removed _ _ Hok0 Hdn Hrn) as Hsn.
  destruct (ac3_loop_run fuel (all_arcs cw) sn) as (b & sa & Hac3);
    [done..|apply queue_ok_all_arcs| |].
  { nia. }
  destruct (ac3_loop_only_removed _ _ _ _ _ Hac3) as [Hda Hra].
  assert (store_ok cw sa) as Hoka by (by eapply store_ok_only_removed).
  assert (node_consistent cw sa) as Hnodea
    by (by eapply node_consistent_only_removed).
  pose proof (total_size_only_removed _ _ Hokn Hda Hra) as Hsa.
  destruct (backtrack_run fuel ∅ sa) as ([found a'] & sr & Hrun); [done..| | |].
  { intros v [w Hw]. by rewrite lookup_empty in Hw. }
  { unfold ac3_budget. rewrite map_size_empty. nia. }
  unfold solve. erewrite bind_Ok_l by exact Hrunn.
  unfold ac3. erewrite bind_Ok_l by exact Hac3.
  erewrite bind_Ok_l by exact Hrun. by eauto.
Qed.

(** X17. On a well-formed store of a puzzle whose overlap offsets lie
    inside the slots, [consistent] returns for every assignment, without an
    exception. *)
Theorem consistent_terminates fuel a st :
  store_ok cw st → offsets_ok cw → ac3_budget cw st < fuel →
  ∃ b st', consistent cw fuel a st = Ok (b, st').
Proof. apply consistent_run. Qed.

(** X18. When every variable has a word but the dict does not have as many
    entries as the puzzle has variables, [backtrack] raises [KeyError]:
    [select_unassigned_variable] returns [None], which is then looked up in
    [self.domains]. *)
Theorem backtrack_foreign_key fuel a st :
  (∀ v, v ∈ variables cw → is_Some (a !! v)) →
  size a ≠ length (variables cw) →
  backtrack cw (S fuel) a st = Raise KeyError.
Proof.
  intros Hall Hsize. cbn [backtrack].
  assert (assignment_complete cw a = false) as ->.
  { unfold assignment_complete. by apply bool_decide_eq_false. }
  unfold select_unassigned_variable.
  assert (assignment_complete cw a = false) as ->.
  { unfold assignment_complete. by apply bool_decide_eq_false. }
  assert (filter (λ var, a !! var = None) (variables cw) = []) as ->.
  { apply filter_none, Forall_forall. intros v Hv.
    destruct (Hall v Hv) as [w Hw]. congruence. }
  done.
Qed.

(** ** The domains at the start *)

(** X19. [__init__] gives [self.domains] exactly the variables of the
    puzzle as keys, each with the whole vocabulary as its domain, and no
    two of them share a container. *)
Theorem init_state_shape :
  init_domains cw empty_state = Ok (tt, init_state cw)
  ∧ (∀ v, is_Some (domains (init_state cw) !! v) ↔ v ∈ variables cw)
  ∧ (∀ v, v ∈ variables cw → domain (init_state cw) v = Some (words cw))
  ∧ (∀ v1 v2 l,
       domains (init_state cw) !! v1 = Some l →
       domains (init_state cw) !! v2 = Some l → v1 = v2).
Proof.
  destruct (fresh_loop id (λ _, words cw) (variables cw) empty_state)
    as (st & Hrun & Halloc & Hinj & _ & _ & Hout & Hin); [done..|].
  rewrite list_fmap_id in Hin, Hout.
  change (init_domains cw empty_state = Ok (tt, st)) in Hrun.
  assert (init_state cw = st) as -> by (unfold init_state; by rewrite Hrun).
  split_and!; [done| | |done].
  - intros v. split.
    + intros Hv. destruct (decide (v ∈ variables cw)) as [|Hnot]; [done|].
      rewrite (Hout v Hnot) in Hv. simpl in Hv. rewrite lookup_empty in Hv.
      by destruct Hv.
    + intros Hv. destruct (Hin v Hv) as (b & _ & _ & Hdom).
      apply dom_Some in Hdom as (l & Hl & _). by exists l.
  - intros v Hv. by destruct (Hin v Hv) as (b & _ & _ & Hdom).
Qed.

(** ** What [consistent] accepts *)

(** X20. When [consistent] returns [True], on a well-formed puzzle and
    store, no word is used twice, the words of overlapping variables agree
    at the overlap, and every word has the length of its variable. *)
Theorem consistent_sound fuel a st st' :
  store_ok cw st → puzzle_ok cw →
  consistent cw fuel a st = Ok (true, st') →
  distinct_words a ∧ overlaps_agree cw a ∧ words_fit cw a.
Proof.
  intros Hok Hpuzzle Hrun.
  destruct (consistent_Ok cw _ _ _ _ _ Hok Hrun) as (_ & _ & Hvalid).
  destruct (Hvalid eq_refl Hpuzzle) as [Hdistinct Hagree].
  split_and!; [done..|]. intros v w Hv Hw.
  unfold consistent in Hrun.
  destruct (assignment_has_duplicates a); [by inv_ok|].
  destruct (pin_loop cw a st Hok) as (sp & Hpin & Hok1 & Hpinned & _).
  destruct (enforce_node_consistency_run cw sp Hok1)
    as (sn & Hnode & _ & _ & Hin & _).
  erewrite bind_Ok_l in Hrun by (by apply copy_domains_Ok).
  erewrite bind_Ok_l in Hrun by exact Hpin.
  erewrite bind_Ok_l in Hrun by exact Hnode.
  inv_ok.
  match goal with H : has_empty_domains _ = Ok (?e, _) |- _ =>
    destruct e; [unfold set_domains in *; by inv_ok|
                 apply has_empty_domains_Ok in H as [-> Hfull]] end.
  pose proof (Hin v Hv) as Hdom. rewrite (Hpinned v w Hw) in Hdom.
  simpl in Hdom. destruct (decide (node_ok v w)) as [Hfit|Hnot]; [done|].
  rewrite filter_cons_False, filter_nil in Hdom by done.
  by apply Hfull in Hdom.
Qed.

Lemma has_empty_domains_true st st' :
  has_empty_domains st = Ok (true, st') →
  ∃ v, is_Some (domains st !! v) ∧ domain st v = Some [].
Proof.
  unfold has_empty_domains. intros Hrun. inv_ok.
  destruct (has_empty_loop_true _ _ _ Hrun) as (v & Hv & Hdom).
  exists v. split; [|done].
  apply list_elem_of_fmap in Hv as ([v' l] & -> & Hin%elem_of_map_to_list).
  by exists l.
Qed.

Lemma ac3_loop_unrevised arcs : ∀ fuel st,
  Forall (λ arc, revise cw arc.1 arc.2 st = Ok (false, st)) arcs →
  length arcs < fuel →
  ac3_loop cw fuel arcs st = Ok (true, st).
Proof.
  induction arcs as [|[x y] arcs IH]; intros fuel st Hall Hfuel;
    (destruct fuel as [|fuel]; [simpl in Hfuel; lia|]); cbn [ac3_loop].
  - done.
  - apply Forall_cons_1 in Hall as [Hx Hall]. simpl in Hx, Hfuel.
    erewrite bind_Ok_l; last first.
    { unfold ac3_step. rewrite list_remove_first_head. simpl.
      erewrite bind_Ok_l by exact Hx. done. }
    apply IH; [done|lia].
Qed.

(** Two one-word domains that agree at the overlap: nothing to revise. *)
Lemma revise_pinned_pair x y wx wy st :
  domain st x = Some [wx] → domain st y = Some [wy] →
  (∀ px py, overlaps cw x y = Some (px, py) → agree_at px py wx wy) →
  revise cw x y st = Ok (false, st).
Proof.
  intros (lx & Hlx & Hwx)%dom_Some (ly & Hly & Hwy)%dom_Some Hagree.
  unfold revise. destruct (overlaps cw x y) as [[px py]|]; [|done].
  destruct (Hagree px py eq_refl) as [[c Hc] Heq].
  erewrite bind_Ok_l by (by apply domain_ref_Ok).
  erewrite bind_Ok_l by (by apply read_Ok).
  cbn [revise_loop].
  erewrite bind_Ok_l by (by apply domain_ref_Ok).
  erewrite bind_Ok_l by (by apply read_Ok).
  cbn [y_possible_words].
  erewrite bind_Ok_l; last first.
  { erewrite bind_Ok_l by (by apply char_at_Ok).
    erewrite bind_Ok_l by (apply char_at_Ok; split; [by rewrite <- Heq|done]).
    erewrite bind_Ok_l by (by apply mret_Ok). done. }
  rewrite (decide_True (P:=c = c)) by done. by rewrite decide_False.
Qed.

(** X21. [consistent] returns [True] for an assignment that gives a word
    to every key of [self.domains], uses no word twice, and whose words
    have the lengths of their variables and agree at the overlaps. *)
Theorem consistent_accepts fuel a st :
  store_ok cw st → covers_store a st →
  distinct_words a → overlaps_agree cw a → words_fit cw a →
  length (all_arcs cw) < fuel →
  ∃ st', consistent cw fuel a st = Ok (true, st').
Proof.
  intros Hok Hcovers0 Hdistinct Hagree Hfits Hfuel.
  assert (∀ v, is_Some (domains st !! v) → is_Some (a !! v)) as Hcovers.
  { intros v [l Hl]. exact (Hcovers0 v l Hl). }
  unfold consistent.
  destruct (assignment_has_duplicates a) eqn:Hdup.
  { exfalso. unfold assignment_has_duplicates in Hdup.
    apply existsb_exists in Hdup as ([v w] & Hin & Hcount).
    apply bool_decide_eq_true in Hcount. rewrite count_value_filter in Hcount.
    assert (NoDup (filter (λ p : Var * string, p.2 = w) (map_to_list a))) as Hnd
      by apply NoDup_filter, NoDup_map_to_list.
    destruct (filter (λ p : Var * string, p.2 = w) (map_to_list a))
      as [|[v1 w1] [|[v2 w2] l]] eqn:Hf; simpl in Hcount; [lia..|].
    assert ((v1, w1) ∈ filter (λ p : Var * string, p.2 = w) (map_to_list a)) as H1
      by (rewrite Hf; left).
    assert ((v2, w2) ∈ filter (λ p : Var * string, p.2 = w) (map_to_list a)) as H2
      by (rewrite Hf; right; left).
    apply list_elem_of_filter in H1 as [E1 H1], H2 as [E2 H2]. simpl in *. subst.
    apply elem_of_map_to_list in H1, H2.
    assert (v1 = v2) as -> by (by eapply Hdistinct).
    apply NoDup_cons in Hnd as [Hnot _]. apply Hnot. left. }
  destruct (pin_loop_keep a st Hok)
    as (sp & Hpin & Hok1 & Hpinned & Hkeep & Hsame & _).
  destruct (enforce_node_consistency_run cw sp Hok1)
    as (sn & Hnode & Hd2 & Hlen2 & Hin & Hout).
  assert (store_ok cw sn) as Hok2
    by (eapply store_ok_same_shape; [exact Hok1|done|lia]).
  assert (pinned a sn) as Hpinned2.
  { intros v w Hw. destruct (decide (v ∈ variables cw)) as [Hv|Hv].
    - rewrite (Hin v Hv), (Hpinned v w Hw). simpl.
      rewrite filter_cons_True, filter_nil; [done|]. by apply Hfits.
    - rewrite (Hout v Hv). by apply Hpinned. }
  assert (∀ v, is_Some (domains sn !! v) → is_Some (a !! v)) as Hcovers2.
  { intros v Hv. rewrite Hd2 in Hv. destruct (a !! v) eqn:Hav; [done|].
    rewrite (Hsame v Hav) in Hv. rewrite <- Hav. by apply Hcovers. }
  destruct (has_empty_domains_run sn Hok2) as [e Hempty].
  assert (e = false) as ->.
  { destruct e; [|done]. exfalso.
    destruct (has_empty_domains_true _ _ Hempty) as (v & Hv & Hnil).
    destruct (Hcovers2 v Hv) as [w Hw]. rewrite (Hpinned2 v w Hw) in Hnil.
    done. }
  assert (ac3_loop cw fuel (all_arcs cw) sn = Ok (true, sn)) as Hac3.
  { apply ac3_loop_unrevised; [|done]. apply Forall_forall.
    intros [x y] [Hx Hy%neighbors_elem]%all_arcs_elem. simpl.
    destruct Hy as (Hy & Hne & _).
    pose proof Hok2 as (_ & _ & Hcov)%store_ok_iff.
    destruct (Hcovers2 x (Hcov x Hx)) as [wx Hwx].
    destruct (Hcovers2 y (Hcov y Hy)) as [wy Hwy].
    apply (revise_pinned_pair x y wx wy); [by apply Hpinned2..|].
    intros px py Hov. eapply Hagree; [exact Hx|exact Hy|done..]. }
  erewrite bind_Ok_l by (by apply copy_domains_Ok).
  erewrite bind_Ok_l by exact Hpin.
  erewrite bind_Ok_l by exact Hnode.
  erewrite bind_Ok_l by exact Hempty.
  unfold ac3. erewrite bind_Ok_l by exact Hac3.
  by eauto.
Qed.

(** ** The letter grid *)

Lemma cell_inj variable k k' :
  cell_i variable k = cell_i variable k' →
  cell_j variable k = cell_j variable k' → k = k'.
Proof.
  unfold cell_i, cell_j. destruct (var_direction variable); simpl; lia.
Qed.

Lemma blank_grid_shape height width :
  grid_shape height width (blank_grid height width).
Proof.
  unfold grid_shape, blank_grid. rewrite length_replicate. split; [done|].
  apply Forall_replicate. by rewrite length_replicate.
Qed.

Lemma blank_grid_cell height width i j :
  i < height → j < width → cell (blank_grid height width) i j = Some None.
Proof.
  intros Hi Hj. unfold cell, blank_grid.
  rewrite lookup_replicate_2 by done. simpl. by rewrite lookup_replicate_2.
Qed.

Lemma grid_shape_row height width letters i row :
  grid_shape height width letters → letters !! i = Some row →
  i < height ∧ length row = width.
Proof.
  intros [Hlen Hrows] Hrow. split.
  - apply lookup_lt_Some in Hrow. lia.
  - rewrite Forall_forall in Hrows. apply Hrows. by eapply list_elem_of_lookup_2.
Qed.

Lemma set_cell_run height width i j c letters st :
  grid_shape height width letters → i < height → j < width →
  ∃ row, letters !! i = Some row
    ∧ set_cell i j c letters st
      = Ok (<[i := <[j := Some c]> row]> letters, st).
Proof.
  intros Hshape Hi Hj. pose proof Hshape as [Hlen _].
  destruct (lookup_lt_is_Some_2 letters i) as [row Hrow]; [lia|].
  destruct (grid_shape_row _ _ _ _ _ Hshape Hrow) as [_ Hw].
  exists row. split; [done|]. unfold set_cell. rewrite Hrow.
  by rewrite decide_True by lia.
Qed.

Lemma set_cell_outside height width i j c letters st :
  grid_shape height width letters → ¬ (i < height ∧ j < width) →
  set_cell i j c letters st = Raise IndexError.
Proof.
  intros Hshape Hout. unfold set_cell.
  destruct (letters !! i) as [row|] eqn:Hrow; [|done].
  destruct (grid_shape_row _ _ _ _ _ Hshape Hrow) as [Hi Hw].
  rewrite decide_False; [done|]. lia.
Qed.

Lemma set_cell_shape height width letters i j c row :
  grid_shape height width letters → letters !! i = Some row →
  grid_shape height width (<[i := <[j := Some c]> row]> letters).
Proof.
  intros Hshape Hrow.
  destruct (grid_shape_row _ _ _ _ _ Hshape Hrow) as [Hi Hw].
  destruct Hshape as [Hlen Hrows]. split.
  - by rewrite length_insert.
  - apply Forall_insert; [done|]. by rewrite length_insert.
Qed.

Lemma set_cell_same letters i j c row :
  letters !! i = Some row → j < length row →
  cell (<[i := <[j := Some c]> row]> letters) i j = Some (Some c).
Proof.
  intros Hrow Hj. unfold cell.
  rewrite list_lookup_insert_eq by (by eapply lookup_lt_Some). simpl.
  by rewrite list_lookup_insert_eq.
Qed.

Lemma set_cell_other letters i j c row i' j' :
  letters !! i = Some row → (i', j') ≠ (i, j) →
  cell (<[i := <[j := Some c]> row]> letters) i' j' = cell letters i' j'.
Proof.
  intros Hrow Hne. unfold cell.
  destruct (decide (i' = i)) as [->|Hi].
  - rewrite list_lookup_insert_eq by (by eapply lookup_lt_Some).
    rewrite Hrow. simpl. rewrite list_lookup_insert_ne; [done|]. congruence.
  - by rewrite list_lookup_insert_ne.
Qed.

(** The loop over the letters of one word. *)
Lemma write_word_run height width variable word ks : ∀ letters st,
  grid_shape height width letters →
  Forall (λ k, k < String.length word) ks →
  Forall (inside height width variable) ks →
  ∃ letters',
    write_word variable word ks letters st = Ok (letters', st)
    ∧ grid_shape height width letters'
    ∧ (∀ i j, (∀ k, k ∈ ks → (cell_i variable k, cell_j variable k) ≠ (i, j)) →
         cell letters' i j = cell letters i j)
    ∧ (NoDup ks → ∀ k c, k ∈ ks → String.get k word = Some c →
         cell letters' (cell_i variable k) (cell_j variable k)
         = Some (Some c)).
Proof.
  induction ks as [|k ks IH]; intros letters st Hshape Hlen Hin;
    cbn [write_word].
  - exists letters. split_and!; [done..|].
    intros _ k c Hk. by apply elem_of_nil in Hk.
  - apply Forall_cons in Hlen as [Hk Hlen], Hin as [[Hi Hj] Hin].
    destruct (proj2 (get_lt word k) Hk) as [c Hc].
    destruct (set_cell_run height width _ _ c letters st Hshape Hi Hj)
      as (row & Hrow & Hset).
    destruct (grid_shape_row _ _ _ _ _ Hshape Hrow) as [_ Hw].
    destruct (IH _ st (set_cell_shape _ _ _ _ (cell_j variable k) c _ Hshape Hrow)
                Hlen Hin) as (letters' & Hrun & Hshape' & Hframe & Hwritten).
    exists letters'. split_and!; [|done| |].
    + erewrite bind_Ok_l by (by apply char_at_Ok).
      by erewrite bind_Ok_l by exact Hset.
    + intros i j Hmiss. rewrite Hframe.
      * apply set_cell_other; [done|]. intros Heq. eapply Hmiss; [left|done].
      * intros k' Hk'. apply Hmiss. by right.
    + intros [Hnotin Hnd]%NoDup_cons k' c' Hk' Hc'.
      apply elem_of_cons in Hk' as [->|Hk']; [|by apply Hwritten].
      simplify_eq. rewrite Hframe.
      * apply set_cell_same; [done|lia].
      * intros k' Hk' [= Hi' Hj']. apply Hnotin.
        by rewrite <- (cell_inj variable k' k).
Qed.

Lemma write_word_outside height width variable word ks : ∀ letters st,
  grid_shape height width letters →
  Forall (λ k, k < String.length word) ks →
  ¬ Forall (inside height width variable) ks →
  write_word variable word ks letters st = Raise IndexError.
Proof.
  induction ks as [|k ks IH]; intros letters st Hshape Hlen Hout;
    cbn [write_word].
  - by destruct Hout.
  - apply Forall_cons in Hlen as [Hk Hlen].
    destruct (proj2 (get_lt word k) Hk) as [c Hc].
    erewrite bind_Ok_l by (by apply char_at_Ok).
    destruct (decide (inside height width variable k)) as [[Hi Hj]|Hnot].
    + destruct (set_cell_run height width _ _ c letters st Hshape Hi Hj)
        as (row & Hrow & Hset).
      erewrite bind_Ok_l by exact Hset.
      apply IH; [by eapply set_cell_shape|done|].
      intros Hall. apply Hout. by apply Forall_cons.
    + apply bind_Raise. by eapply set_cell_outside.
Qed.

Lemma seq_lt n : Forall (λ k, k < n) (seq 0 n).
Proof. apply Forall_forall. intros k Hk%elem_of_seq. lia. Qed.

Lemma misses_cells (item : Var * string) i j :
  misses item i j ↔
  ∀ k, k ∈ seq 0 (String.length item.2) →
    (cell_i item.1 k, cell_j item.1 k) ≠ (i, j).
Proof.
  split.
  - intros Hmiss k Hk%elem_of_seq [= Hi Hj].
    destruct (proj2 (get_lt item.2 k)) as [c Hc]; [lia|].
    apply (Hmiss c). by exists k.
  - intros Hne c (k & Hc & Hi & Hj). apply (Hne k); [|congruence].
    apply elem_of_seq. split; [lia|]. simpl. apply get_lt. eauto.
Qed.

(** The loop over the items. *)
Lemma letter_loop_run height width items : ∀ letters st,
  grid_shape height width letters →
  Forall (fits_grid height width) items →
  ∃ letters',
    letter_loop items letters st = Ok (letters', st)
    ∧ grid_shape height width letters'
    ∧ (∀ i j, Forall (λ item, misses item i j) items →
         cell letters' i j = cell letters i j)
    ∧ (∀ before item after i j c,
         items = before ++ item :: after →
         letter_in item i j c →
         Forall (λ item', misses item' i j) after →
         cell letters' i j = Some (Some c)).
Proof.
  induction items as [|[variable word] items IH]; intros letters st Hshape Hfit;
    cbn [letter_loop].
  - exists letters. split_and!; [done..|].
    intros before item after i j c Happ. by destruct before.
  - apply Forall_cons in Hfit as [Hfit1 Hfit].
    destruct (write_word_run height width variable word
                (seq 0 (String.length word)) letters st Hshape (seq_lt _) Hfit1)
      as (letters1 & Hrun1 & Hshape1 & Hframe1 & Hwritten1).
    destruct (IH letters1 st Hshape1 Hfit)
      as (letters' & Hrun & Hshape' & Hframe & Hlast).
    exists letters'. split_and!; [|done| |].
    + by erewrite bind_Ok_l by exact Hrun1.
    + intros i j [Hmiss1 Hmiss]%Forall_cons. rewrite Hframe by done.
      apply Hframe1. by apply (misses_cells (variable, word)).
    + intros before item after i j c Happ Hin Hmiss.
      destruct before as [|item0 before]; simplify_eq/=.
      * rewrite Hframe by done. destruct Hin as (k & Hc & <- & <-).
        simpl in *. apply Hwritten1; [apply NoDup_seq| |done].
        apply elem_of_seq. split; [lia|]. simpl. apply get_lt. eauto.
      * by eapply Hlast.
Qed.

Lemma letter_loop_outside height width items : ∀ letters st,
  grid_shape height width letters →
  ¬ Forall (fits_grid height width) items →
  letter_loop items letters st = Raise IndexError.
Proof.
  induction items as [|[variable word] items IH]; intros letters st Hshape Hout;
    cbn [letter_loop].
  - by destruct Hout.
  - destruct (decide (fits_grid height width (variable, word))) as [Hfit|Hnot].
    + destruct (write_word_run height width variable word
                  (seq 0 (String.length word)) letters st Hshape (seq_lt _) Hfit)
        as (letters1 & Hrun1 & Hshape1 & _).
      erewrite bind_Ok_l by exact Hrun1. apply IH; [done|].
      intros Hall. apply Hout. by apply Forall_cons.
    + apply bind_Raise.
      by eapply write_word_outside; [|apply seq_lt|].
Qed.

(** X22. [letter_grid] returns a grid of [height] rows of [width] cells,
    leaving the store as it is, when every word lies inside the grid; it
    raises [IndexError] when some word does not. *)
Theorem letter_grid_bounds height width items st :
  (Forall (fits_grid height width) items →
   ∃ letters, letter_grid height width items st = Ok (letters, st)
     ∧ length letters = height
     ∧ ∀ row, row ∈ letters → length row = width)
  ∧ (¬ Forall (fits_grid height width) items →
     letter_grid height width items st = Raise IndexError).
Proof.
  split.
  - intros Hfit.
    destruct (letter_loop_run height width items (blank_grid height width) st
                (blank_grid_shape _ _) Hfit)
      as (letters & Hrun & [Hlen Hrows] & _).
    exists letters. split_and!; [done..|]. by apply Forall_forall.
  - apply letter_loop_outside, blank_grid_shape.
Qed.

(** X23. A cell of the grid that no word of the assignment passes through
    holds [None]. *)
Theorem letter_grid_uncovered height width items st letters st' i j :
  letter_grid height width items st = Ok (letters, st') →
  i < height → j < width →
  (∀ item c, item ∈ items → ¬ letter_in item i j c) →
  cell letters i j = Some None.
Proof.
  intros Hrun Hi Hj Hmiss.
  destruct (decide (Forall (fits_grid height width) items)) as [Hfit|Hnot].
  - destruct (letter_loop_run height width items (blank_grid height width) st
                (blank_grid_shape _ _) Hfit)
      as (letters1 & Hrun1 & _ & Hframe & _).
    unfold letter_grid in Hrun. rewrite Hrun1 in Hrun. simplify_eq.
    rewrite Hframe; [by apply blank_grid_cell|].
    apply Forall_forall. intros item Hin c. by apply Hmiss.
  - unfold letter_grid in Hrun.
    by rewrite (letter_loop_outside height width) in Hrun
      by (done || apply blank_grid_shape).
Qed.


Lemma last_hit {A} (P : A → Prop) `{!∀ x, Decision (P x)} (l : list A) :
  Exists P l →
  ∃ before x after,
    l = before ++ x :: after ∧ P x ∧ Forall (λ y, ¬ P y) after.
Proof.
  induction l as [|x l IH]; intros Hex.
  { by apply Exists_nil in Hex. }
  destruct (decide (Exists P l)) as [Hl|Hl].
  - destruct (IH Hl) as (before & y & after & -> & Hy & Hafter).
    by exists (x :: before), y, after.
  - apply Exists_cons in Hex as [Hx|?]; [|done].
    exists [], x, l. split_and!; [done..|].
    by apply not_Exists_Forall; [apply _|].
Qed.

Lemma letter_in_cells (item : Var * string) i j :
  (∃ c, letter_in item i j c) ↔
  Exists (λ k, (cell_i item.1 k, cell_j item.1 k) = (i, j))
         (seq 0 (String.length item.2)).
Proof.
  rewrite Exists_exists. split.
  - intros (c & k & Hc & Hi & Hj). exists k. split; [|congruence].
    apply elem_of_seq. split; [lia|]. simpl. apply get_lt. eauto.
  - intros (k & Hk%elem_of_seq & [= Hi Hj]).
    destruct (proj2 (get_lt item.2 k)) as [c Hc]; [lia|].
    exists c, k. done.
Qed.

(** X25. When the words agree wherever two of them meet, every letter of
    every word is in its cell of the grid. *)
Theorem letter_grid_shows_words height width items st letters st' :
  letter_grid height width items st = Ok (letters, st') →
  (∀ p q i j c c', p ∈ items → q ∈ items →
     letter_in p i j c → letter_in q i j c' → c = c') →
  ∀ p i j c, p ∈ items → letter_in p i j c →
    cell letters i j = Some (Some c).
Proof.
  intros Hrun Hagree p i j c Hp Hc.
  destruct (decide (Forall (fits_grid height width) items)) as [Hfit|Hnot];
    last first.
  { unfold letter_grid in Hrun.
    by rewrite (letter_loop_outside height width) in Hrun
      by (done || apply blank_grid_shape). }
  destruct (letter_loop_run height width items (blank_grid height width) st
              (blank_grid_shape _ _) Hfit)
    as (letters1 & Hrun1 & _ & _ & Hlast).
  unfold letter_grid in Hrun. rewrite Hrun1 in Hrun. simplify_eq.
  destruct (last_hit
              (λ item : Var * string,
                 Exists (λ k, (cell_i item.1 k, cell_j item.1 k) = (i, j))
                        (seq 0 (String.length item.2))) items)
    as (before & q & after & -> & Hq & Hafter).
  { apply Exists_exists. exists p. split; [done|].
    apply letter_in_cells. eauto. }
  apply letter_in_cells in Hq as [c' Hc'].
  assert (c = c') as ->.
  { eapply (Hagree p q); [done| |done..].
    apply elem_of_app. right. left. }
  eapply Hlast; [done|done|].
  eapply Forall_impl; [exact Hafter|]. intros item Hnot c2 Hc2.
  apply Hnot, letter_in_cells. eauto.
Qed.

End Further.

(** * The further properties on the examples *)

Lemma has_empty_domains_spec_witness :
  store_ok cw_pets (init_state cw_pets)
  ∧ ∃ b, has_empty_domains (init_state cw_pets)
         = Ok (b, init_state cw_pets)
    ∧ (b = true ↔ ∃ v, domain (init_state cw_pets) v = Some []).
Proof.
  assert (store_ok cw_pets (init_state cw_pets)) as Hok by compute_done.
  split; [exact Hok|].
  exact (has_empty_domains_spec cw_pets (init_state cw_pets) Hok).
Defined.

Lemma assignment_complete_iff_witness :
  NoDup (variables cw_pets) ∧ keys_ok cw_pets pets_solution
  ∧ (assignment_complete cw_pets pets_solution = true
     ↔ covers_all cw_pets pets_solution).
Proof.
  assert (NoDup (variables cw_pets)) as Hnd by compute_done.
  assert (keys_ok cw_pets pets_solution) as Hkeys by compute_done.
  split_and!; [exact Hnd|exact Hkeys|].
  exact (assignment_complete_iff cw_pets pets_solution Hnd Hkeys).
Defined.

Lemma select_unassigned_variable_spec_witness :
  select_unassigned_variable cw_pets ∅ pets_revised = Ok (Some x0, pets_revised)
  ∧ x0 ∈ unassigned cw_pets ∅
  ∧ ∀ u, u ∈ unassigned cw_pets ∅ →
      is_Some (domain pets_revised u)
      ∧ domain_size pets_revised x0 ≤ domain_size pets_revised u
      ∧ (domain_size pets_revised u = domain_size pets_revised x0 →
         degree cw_pets u ≤ degree cw_pets x0).
Proof.
  assert (select_unassigned_variable cw_pets ∅ pets_revised
          = Ok (Some x0, pets_revised)) as Hrun
    by (vm_compute; reflexivity).
  split; [exact Hrun|].
  exact (proj2 (select_unassigned_variable_spec cw_pets ∅ _ x0 _ Hrun)).
Defined.

Lemma select_unassigned_variable_none_witness :
  (∀ v, v ∈ variables cw_pets → is_Some (domain (init_state cw_pets) v))
  ∧ ∃ r, select_unassigned_variable cw_pets pets_solution (init_state cw_pets)
         = Ok (r, init_state cw_pets)
    ∧ (r = None ↔ assignment_complete cw_pets pets_solution = true
                  ∨ unassigned cw_pets pets_solution = []).
Proof.
  assert (∀ v, v ∈ variables cw_pets → is_Some (domain (init_state cw_pets) v))
    as Hdom by (apply Forall_forall; compute_done).
  split; [exact Hdom|].
  exact (select_unassigned_variable_none cw_pets pets_solution _ Hdom).
Defined.

Lemma order_domain_values_all_assigned_witness :
  domain (init_state cw_pets) x0 = Some ["CAT"; "TOE"; "DOG"]
  ∧ (∀ n, n ∈ neighbors cw_pets x0 → is_Some (pets_partial !! n))
  ∧ order_domain_values cw_pets x0 pets_partial (init_state cw_pets)
    = Ok (["CAT"; "TOE"; "DOG"], init_state cw_pets).
Proof.
  assert (domain (init_state cw_pets) x0 = Some ["CAT"; "TOE"; "DOG"]) as Hdom
    by (vm_compute; reflexivity).
  assert (∀ n, n ∈ neighbors cw_pets x0 → is_Some (pets_partial !! n)) as Hall
    by (apply Forall_forall; compute_done).
  split_and!; [exact Hdom|exact Hall|].
  exact (order_domain_values_all_assigned cw_pets x0 pets_partial _ _ Hdom Hall).
Defined.

Lemma enforce_node_consistency_idempotent_witness :
  store_ok cw_mixed (init_state cw_mixed)
  ∧ ∃ st1, enforce_node_consistency cw_mixed (init_state cw_mixed)
           = Ok (tt, st1)
    ∧ enforce_node_consistency cw_mixed st1 = Ok (tt, st1).
Proof.
  assert (store_ok cw_mixed (init_state cw_mixed)) as Hok by compute_done.
  split; [exact Hok|].
  exact (enforce_node_consistency_idempotent cw_mixed _ Hok).
Defined.

Lemma consistent_frame_witness :
  store_ok cw_pets (init_state cw_pets)
  ∧ consistent cw_pets 10 pets_first (init_state cw_pets)
    = Ok (true, final_state (consistent cw_pets 10 pets_first
                               (init_state cw_pets)))
  ∧ domains (final_state (consistent cw_pets 10 pets_first
                            (init_state cw_pets)))
    = domains (init_state cw_pets)
  ∧ domains_shrunk (init_state cw_pets)
      (final_state (consistent cw_pets 10 pets_first (init_state cw_pets)))
  ∧ ∀ v, is_Some (pets_first !! v) →
      domain (final_state (consistent cw_pets 10 pets_first
                             (init_state cw_pets))) v
      = domain (init_state cw_pets) v.
Proof.
  assert (store_ok cw_pets (init_state cw_pets)) as Hok by compute_done.
  assert (consistent cw_pets 10 pets_first (init_state cw_pets)
          = Ok (true, final_state (consistent cw_pets 10 pets_first
                                     (init_state cw_pets)))) as Hrun
    by (vm_compute; reflexivity).
  split_and!; [exact Hok|exact Hrun|..];
    apply (consistent_frame cw_pets 10 pets_first _ true _ Hok Hrun).
Defined.

Lemma backtrack_keeps_entries_witness :
  store_ok cw_pets (init_state cw_pets)
  ∧ backtrack cw_pets 10 pets_first (init_state cw_pets)
    = Ok ((true, pets_solution),
          final_state (backtrack cw_pets 10 pets_first (init_state cw_pets)))
  ∧ ∀ v w, pets_first !! v = Some w → pets_solution !! v = Some w.
Proof.
  assert (store_ok cw_pets (init_state cw_pets)) as Hok by compute_done.
  assert (backtrack cw_pets 10 pets_first (init_state cw_pets)
          = Ok ((true, pets_solution),
                final_state (backtrack cw_pets 10 pets_first
                               (init_state cw_pets)))) as Hrun
    by (vm_compute; reflexivity).
  split_and!; [exact Hok|exact Hrun|].
  exact (backtrack_keeps_entries cw_pets 10 pets_first _ true pets_solution _
           Hok Hrun).
Defined.

Lemma backtrack_never_restores_witness :
  store_ok cw_pets (init_state cw_pets)
  ∧ backtrack cw_pets 10 ∅ (init_state cw_pets)
    = Ok ((true, pets_solution),
          final_state (backtrack cw_pets 10 ∅ (init_state cw_pets)))
  ∧ domains (final_state (backtrack cw_pets 10 ∅ (init_state cw_pets)))
    = domains (init_state cw_pets)
  ∧ domains_shrunk (init_state cw_pets)
      (final_state (backtrack cw_pets 10 ∅ (init_state cw_pets))).
Proof.
  assert (store_ok cw_pets (init_state cw_pets)) as Hok by compute_done.
  assert (backtrack cw_pets 10 ∅ (init_state cw_pets)
          = Ok ((true, pets_solution),
                final_state (backtrack cw_pets 10 ∅ (init_state cw_pets))))
    as Hrun by (vm_compute; reflexivity).
  split_and!; [exact Hok|exact Hrun|..];
    apply (backtrack_never_restores cw_pets 10 ∅ _ _ _ Hok Hrun).
Defined.

Lemma revise_idempotent_witness :
  store_ok cw_pets (init_state cw_pets) ∧ offsets_ok cw_pets
  ∧ node_consistent cw_pets (init_state cw_pets)
  ∧ x0 ∈ variables cw_pets ∧ y0 ∈ variables cw_pets ∧ x0 ≠ y0
  ∧ revise cw_pets x0 y0 (init_state cw_pets) = Ok (true, pets_revised)
  ∧ revise cw_pets x0 y0 pets_revised = Ok (false, pets_revised).
Proof.
  assert (store_ok cw_pets (init_state cw_pets)) as Hok by compute_done.
  assert (offsets_ok cw_pets) as Hoff by compute_done.
  assert (node_consistent cw_pets (init_state cw_pets)) as Hnode
    by compute_done.
  assert (x0 ∈ variables cw_pets) as Hx by compute_done.
  assert (y0 ∈ variables cw_pets) as Hy by compute_done.
  assert (x0 ≠ y0) as Hne by compute_done.
  assert (revise cw_pets x0 y0 (init_state cw_pets) = Ok (true, pets_revised))
    as Hrun by (vm_compute; reflexivity).
  split_and!; [done..|].
  exact (revise_idempotent cw_pets x0 y0 _ true _ Hok Hoff Hnode Hx Hy Hne Hrun).
Defined.

Lemma revise_short_word_witness :
  overlaps cw_short x0 y0 = Some (2, 0)
  ∧ domain (init_state cw_short) x0 = Some ("AB" :: ["ABCD"])
  ∧ domain (init_state cw_short) y0 = Some ("AB" :: ["ABCD"])
  ∧ String.length "AB" ≤ 2
  ∧ revise cw_short x0 y0 (init_state cw_short) = Raise IndexError.
Proof.
  assert (overlaps cw_short x0 y0 = Some (2, 0)) as Hov by reflexivity.
  assert (domain (init_state cw_short) x0 = Some ("AB" :: ["ABCD"])) as Hx
    by (vm_compute; reflexivity).
  assert (domain (init_state cw_short) y0 = Some ("AB" :: ["ABCD"])) as Hy
    by (vm_compute; reflexivity).
  assert (String.length "AB" ≤ 2) as Hshort by (simpl; lia).
  split_and!; [done..|].
  exact (revise_short_word cw_short x0 y0 _ 2 0 "AB" ["ABCD"] "AB" ["ABCD"]
           Hov Hx Hy Hshort).
Defined.

Lemma ac3_arc_consistent_witness :
  store_ok cw_zoo (init_state cw_zoo) ∧ puzzle_ok cw_zoo
  ∧ ac3 cw_zoo 30 None (init_state cw_zoo)
    = Ok (true, final_state (ac3 cw_zoo 30 None (init_state cw_zoo)))
  ∧ ∀ x y px py xs ys,
      x ∈ variables cw_zoo → y ∈ variables cw_zoo → x ≠ y →
      overlaps cw_zoo x y = Some (px, py) →
      domain (final_state (ac3 cw_zoo 30 None (init_state cw_zoo))) x
      = Some xs →
      domain (final_state (ac3 cw_zoo 30 None (init_state cw_zoo))) y
      = Some ys →
      ∀ wx, wx ∈ xs → ∃ wy, wy ∈ ys ∧ agree_at px py wx wy.
Proof.
  assert (store_ok cw_zoo (init_state cw_zoo)) as Hok by compute_done.
  assert (puzzle_ok cw_zoo) as Hpuzzle by compute_done.
  assert (ac3 cw_zoo 30 None (init_state cw_zoo)
          = Ok (true, final_state (ac3 cw_zoo 30 None (init_state cw_zoo))))
    as Hrun by (vm_compute; reflexivity).
  split_and!; [done..|].
  exact (ac3_arc_consistent cw_zoo 30 _ _ Hok Hpuzzle Hrun).
Defined.

Lemma ac3_frame_witness :
  ac3 cw_zoo 30 None (init_state cw_zoo)
  = Ok (true, final_state (ac3 cw_zoo 30 None (init_state cw_zoo)))
  ∧ domains (final_state (ac3 cw_zoo 30 None (init_state cw_zoo)))
    = domains (init_state cw_zoo)
  ∧ domains_shrunk (init_state cw_zoo)
      (final_state (ac3 cw_zoo 30 None (init_state cw_zoo))).
Proof.
  assert (ac3 cw_zoo 30 None (init_state cw_zoo)
          = Ok (true, final_state (ac3 cw_zoo 30 None (init_state cw_zoo))))
    as Hrun by (vm_compute; reflexivity).
  split; [exact Hrun|].
  exact (ac3_frame cw_zoo 30 None _ true _ Hrun).
Defined.

Lemma ac3_terminates_witness :
  store_ok cw_pets (init_state cw_pets) ∧ offsets_ok cw_pets
  ∧ node_consistent cw_pets (init_state cw_pets)
  ∧ length (all_arcs cw_pets)
    + total_size cw_pets (init_state cw_pets) * S (length (variables cw_pets))
    < 21
  ∧ ∃ b st', ac3 cw_pets 21 None (init_state cw_pets) = Ok (b, st').
Proof.
  assert (store_ok cw_pets (init_state cw_pets)) as Hok by compute_done.
  assert (offsets_ok cw_pets) as Hoff by compute_done.
  assert (node_consistent cw_pets (init_state cw_pets)) as Hnode
    by compute_done.
  assert (length (all_arcs cw_pets)
          + total_size cw_pets (init_state cw_pets)
            * S (length (variables cw_pets)) < 21) as Hfuel by compute_done.
  split_and!; [done..|].
  exact (ac3_terminates cw_pets 21 _ Hok Hoff Hnode Hfuel).
Defined.

Lemma search_terminates_witness :
  puzzle_ok cw_pets ∧ offsets_ok cw_pets
  ∧ length (variables cw_pets) + length (all_arcs cw_pets)
    + (length (variables cw_pets) * length (words cw_pets)
       + length (variables cw_pets)) * S (length (variables cw_pets)) < 29
  ∧ ∃ r st', solve cw_pets 29 (init_state cw_pets) = Ok (r, st').
Proof.
  assert (puzzle_ok cw_pets) as Hpuzzle by compute_done.
  assert (offsets_ok cw_pets) as Hoff by compute_done.
  assert (length (variables cw_pets) + length (all_arcs cw_pets)
          + (length (variables cw_pets) * length (words cw_pets)
             + length (variables cw_pets)) * S (length (variables cw_pets))
          < 29) as Hfuel by compute_done.
  split_and!; [done..|].
  exact (proj2 (search_terminates cw_pets 29 Hpuzzle Hoff) Hfuel).
Defined.

Lemma consistent_terminates_witness :
  store_ok cw_pets (init_state cw_pets) ∧ offsets_ok cw_pets
  ∧ ac3_budget cw_pets (init_state cw_pets) < 27
  ∧ ∃ b st', consistent cw_pets 27 pets_first (init_state cw_pets)
             = Ok (b, st').
Proof.
  assert (store_ok cw_pets (init_state cw_pets)) as Hok by compute_done.
  assert (offsets_ok cw_pets) as Hoff by compute_done.
  assert (ac3_budget cw_pets (init_state cw_pets) < 27) as Hfuel
    by compute_done.
  split_and!; [done..|].
  exact (consistent_terminates cw_pets 27 pets_first _ Hok Hoff Hfuel).
Defined.

Lemma backtrack_foreign_key_witness :
  (∀ v, v ∈ variables cw_pets → is_Some (pets_stray !! v))
  ∧ size pets_stray ≠ length (variables cw_pets)
  ∧ backtrack cw_pets 1 pets_stray (init_state cw_pets) = Raise KeyError.
Proof.
  assert (∀ v, v ∈ variables cw_pets → is_Some (pets_stray !! v)) as Hall
    by (apply Forall_forall; compute_done).
  assert (size pets_stray ≠ length (variables cw_pets)) as Hsize
    by compute_done.
  split_and!; [done..|].
  exact (backtrack_foreign_key cw_pets 0 pets_stray _ Hall Hsize).
Defined.

Lemma consistent_sound_witness :
  store_ok cw_pets (init_state cw_pets) ∧ puzzle_ok cw_pets
  ∧ consistent cw_pets 10 pets_solution (init_state cw_pets)
    = Ok (true, final_state (consistent cw_pets 10 pets_solution
                               (init_state cw_pets)))
  ∧ distinct_words pets_solution ∧ overlaps_agree cw_pets pets_solution
  ∧ words_fit cw_pets pets_solution.
Proof.
  assert (store_ok cw_pets (init_state cw_pets)) as Hok by compute_done.
  assert (puzzle_ok cw_pets) as Hpuzzle by compute_done.
  assert (consistent cw_pets 10 pets_solution (init_state cw_pets)
          = Ok (true, final_state (consistent cw_pets 10 pets_solution
                                     (init_state cw_pets)))) as Hrun
    by (vm_compute; reflexivity).
  split_and!; [done..| | |];
    apply (consistent_sound cw_pets 10 pets_solution _ _ Hok Hpuzzle Hrun).
Defined.

Lemma consistent_accepts_witness :
  store_ok cw_pets (init_state cw_pets)
  ∧ covers_store pets_solution (init_state cw_pets)
  ∧ distinct_words pets_solution ∧ overlaps_agree cw_pets pets_solution
  ∧ words_fit cw_pets pets_solution
  ∧ length (all_arcs cw_pets) < 3
  ∧ ∃ st', consistent cw_pets 3 pets_solution (init_state cw_pets)
           = Ok (true, st').
Proof.
  assert (store_ok cw_pets (init_state cw_pets)) as Hok by compute_done.
  assert (covers_store pets_solution (init_state cw_pets)) as Hcov
    by compute_done.
  assert (distinct_words pets_solution) as Hdistinct by compute_done.
  assert (overlaps_agree cw_pets pets_solution) as Hagree by compute_done.
  assert (words_fit cw_pets pets_solution) as Hfit by compute_done.
  assert (length (all_arcs cw_pets) < 3) as Hfuel by compute_done.
  split_and!; [done..|].
  exact (consistent_accepts cw_pets 3 pets_solution _
           Hok Hcov Hdistinct Hagree Hfit Hfuel).
Defined.

Lemma letter_grid_bounds_witness :
  Forall (fits_grid 3 3) pets_items
  ∧ (∃ letters, letter_grid 3 3 pets_items empty_state = Ok (letters, empty_state)
       ∧ length letters = 3 ∧ ∀ row, row ∈ letters → length row = 3)
  ∧ ¬ Forall (fits_grid 2 3) pets_items
  ∧ letter_grid 2 3 pets_items empty_state = Raise IndexError.
Proof.
  assert (Forall (fits_grid 3 3) pets_items) as Hfit by compute_done.
  assert (¬ Forall (fits_grid 2 3) pets_items) as Hnot by compute_done.
  split_and!; [exact Hfit| |exact Hnot|].
  - exact (proj1 (letter_grid_bounds 3 3 pets_items empty_state) Hfit).
  - exact (proj2 (letter_grid_bounds 2 3 pets_items empty_state) Hnot).
Defined.

Lemma letter_grid_uncovered_witness :
  letter_grid 3 3 pets_items empty_state
  = Ok ([[Some "C"; Some "A"; Some "T"];
         [None; None; Some "O"];
         [None; None; Some "E"]]%char, empty_state)
  ∧ 1 < 3 ∧ 0 < 3
  ∧ (∀ item c, item ∈ pets_items → ¬ letter_in item 1 0 c)
  ∧ cell [[Some "C"; Some "A"; Some "T"];
          [None; None; Some "O"];
          [None; None; Some "E"]]%char 1 0 = Some None.
Proof.
  assert (letter_grid 3 3 pets_items empty_state
          = Ok ([[Some "C"; Some "A"; Some "T"];
                 [None; None; Some "O"];
                 [None; None; Some "E"]]%char, empty_state)) as Hrun
    by (vm_compute; reflexivity).
  assert (∀ item c, item ∈ pets_items → ¬ letter_in item 1 0 c) as Hmiss.
  { intros item c Hin (k & _ & Hi & Hj). unfold pets_items in Hin.
    apply elem_of_cons in Hin as [->|Hin].
    - unfold cell_i in Hi. simpl in Hi. lia.
    - apply list_elem_of_singleton in Hin as ->.
      unfold cell_j in Hj. simpl in Hj. lia. }
  split_and!; [exact Hrun|lia|lia|exact Hmiss|].
  exact (letter_grid_uncovered 3 3 pets_items _ _ _ 1 0 Hrun
           ltac:(lia) ltac:(lia) Hmiss).
Defined.


Lemma letter_grid_shows_words_witness :
  letter_grid 3 3 pets_items empty_state
  = Ok ([[Some "C"; Some "A"; Some "T"];
         [None; None; Some "O"];
         [None; None; Some "E"]]%char, empty_state)
  ∧ (∀ p q i j c c', p ∈ pets_items → q ∈ pets_items →
       letter_in p i j c → letter_in q i j c' → c = c')
  ∧ ∀ p i j c, p ∈ pets_items → letter_in p i j c →
      cell [[Some "C"; Some "A"; Some "T"];
            [None; None; Some "O"];
            [None; None; Some "E"]]%char i j = Some (Some c).
Proof.
  assert (letter_grid 3 3 pets_items empty_state
          = Ok ([[Some "C"; Some "A"; Some "T"];
                 [None; None; Some "O"];
                 [None; None; Some "E"]]%char, empty_state)) as Hrun
    by (vm_compute; reflexivity).
  assert (∀ p q i j c c', p ∈ pets_items → q ∈ pets_items →
            letter_in p i j c → letter_in q i j c' → c = c') as Hagree.
  { intros p q i j c c' Hp Hq (k & Hc & Hi & Hj) (k' & Hc' & Hi' & Hj').
    unfold pets_items in Hp, Hq.
    apply elem_of_cons in Hp as [->|Hp];
      [|apply list_elem_of_singleton in Hp as ->];
      (apply elem_of_cons in Hq as [->|Hq];
        [|apply list_elem_of_singleton in Hq as ->]);
      unfold cell_i, cell_j in *; simpl in *;
      destruct k as [|[|[|k]]]; simpl in Hc; try discriminate Hc;
      destruct k' as [|[|[|k']]]; simpl in Hc'; try discriminate Hc';
      try lia; congruence. }
  split_and!; [exact Hrun|exact Hagree|].
  exact (letter_grid_shows_words 3 3 pets_items _ _ _ Hrun Hagree).
Defined.
